(** * ip2country: range lookup engine, exact lookup engine and LRU cache

    A shallow embedding of the Go package [ip2country] (its types and
    validators, [parseIP], the LRU cache, the range engine [IPCountryDB]
    and the exact engine [ExactIPCountryMap]) and the properties its
    specification states about it.

    Conventions of the embedding:
    - a [uint32] is a [Z] (only comparisons are performed on addresses);
      [int64] counters are [Z] with the wrap-around of [atomic.AddInt64]
      written out;
    - Go maps are [gmap]s, slices are lists, pointers to [list.Element]
      are addresses ([nat]) into an explicit element store;
    - [error] values are an inductive type with one constructor per
      [fmt.Errorf] format string of the package;
    - the file system, the clock and the cancellation token of a call are
      explicit inputs; [sync.RWMutex] is an explicit lock state, and an
      operation that waits for a lock nobody will release has the outcome
      [Blocked]. *)

From Stdlib Require Import ZArith Lia Ascii String.
From stdpp Require Import base decidable option list sorting gmap strings.

Local Open Scope Z_scope.

(** ** The types of the package: IPRange *)

Record IPRange := mkIPRange {
  Country : string;
  Code : string;
  StartIP : Z;
  EndIP : Z
}.

#[global] Instance IPRange_eq_dec : EqDecision IPRange.
Proof. solve_decision. Defined.

#[global] Instance IPRange_inhabited : Inhabited IPRange :=
  populate {| Country := EmptyString; Code := EmptyString; StartIP := 0; EndIP := 0 |}.

(** [func (r IPRange) Contains(ip uint32) bool] *)
Definition Contains (r : IPRange) (ip : Z) : bool :=
  (StartIP r <=? ip) && (ip <=? EndIP r).

(** ** Errors of the package, one constructor per message format. *)
Inductive error : Type :=
  | ErrOS (msg : string)                       (* an error of the os / bufio layer *)
  | ErrContext (msg : string)                  (* ctx.Err() *)
  | ErrOpenFile (e : error)                    (* "failed to open file: %w" *)
  | ErrFileStats (e : error)                   (* "failed to get file stats: %w" *)
  | ErrFileSize (size limit : Z)               (* "file size %d exceeds limit %d" *)
  | ErrScanner (e : error)                     (* "scanner error: %w" *)
  | ErrOverlapDetected (s1 e1 s2 e2 : Z)       (* "overlapping ranges detected: [%d-%d] and [%d-%d]" *)
  | ErrRangeValidation (e : error)             (* "range validation failed: %w" *)
  | ErrFieldCount (expected got : nat)         (* "incorrect number of fields: expected %d, got %d" *)
  | ErrInvalidStartIP (part : string) (e : error) (* "invalid start IP %q: %w" *)
  | ErrInvalidEndIP (part : string) (e : error)   (* "invalid end IP %q: %w" *)
  | ErrInvalidIPq (part : string) (e : error)     (* "invalid IP %q: %w" *)
  | ErrInvalidRange (s e : Z)                  (* "invalid range: start IP %d > end IP %d" *)
  | ErrEmptyCode                               (* "country code cannot be empty" *)
  | ErrInvalidRangeAt (i : nat) (e : error)    (* "invalid range at index %d (after sorting): %w" *)
  | ErrOverlapping (s1 e1 s2 e2 : Z)           (* "overlapping ranges: [%d-%d] and [%d-%d]" *)
  | ErrNotIPv4 (s : string)                    (* "not an IPv4 address: %s" *)
  | ErrInvalidIPFormat (s : string)            (* "invalid IP format: %s" *)
  | ErrNotFound                                (* "country not found for IP" *)
  | ErrNotFoundCached                          (* "country not found for IP (cached miss)" *)
  | ErrInitFailed (e : error)                  (* "initialization failed: %w" *)
  | ErrInvalidIP (e : error)                   (* "invalid IP: %w" *)
  | ErrReloadFailed (e : error).               (* "reload failed: %w" *)

#[global] Instance error_eq_dec : EqDecision error.
Proof. solve_decision. Defined.

(** [func (r IPRange) Validate() error] *)
Definition Validate (r : IPRange) : option error :=
  if StartIP r >? EndIP r then Some (ErrInvalidRange (StartIP r) (EndIP r))
  else if String.eqb (Code r) EmptyString then Some ErrEmptyCode
  else None.

(** ** sort.Search and sort.Slice of the Go standard library *)

(** The loop of [sort.Search]: [for i < j { h := int(uint(i+j) >> 1); if
    !f(h) { i = h + 1 } else { j = h } }].  Every iteration shrinks
    [j - i], so [j - i] iterations are always enough. *)
Fixpoint search_loop (fuel : nat) (f : nat → bool) (i j : nat) : nat :=
  match fuel with
  | O => i
  | S fuel' =>
      if decide (i < j)%nat then
        let h := ((i + j) / 2)%nat in
        if negb (f h) then search_loop fuel' f (h + 1)%nat j
        else search_loop fuel' f i h
      else i
  end.

Definition sort_Search (n : nat) (f : nat → bool) : nat := search_loop n f 0%nat n.

(** [sort.Slice(s, func(i, j) bool { return s[i].StartIP < s[j].StartIP })]:
    the standard library promises a permutation of its input that is
    ordered by the comparison, and nothing about equal keys (the sort is
    not stable). *)
Class SortSlice := {
  sort_by_start : list IPRange → list IPRange;
  sort_by_start_perm : ∀ rs, sort_by_start rs ≡ₚ rs;
  sort_by_start_sorted : ∀ rs, Sorted (λ a b, StartIP a ≤ StartIP b) (sort_by_start rs)
}.

(** ** Orderings of a range collection *)

(** Adjacent ranges have ascending starts. *)
Definition sorted_by_start (rs : list IPRange) : Prop :=
  ∀ (i : nat) a b, rs !! i = Some a → rs !! S i = Some b → StartIP a ≤ StartIP b.

(** [ranges[i].end < ranges[i+1].start] for all adjacent pairs. *)
Definition non_overlapping (rs : list IPRange) : Prop :=
  ∀ (i : nat) a b, rs !! i = Some a → rs !! S i = Some b → EndIP a < StartIP b.

(** Each range is well formed: [start <= end] and a non-empty code. *)
Definition range_ok (r : IPRange) : Prop := StartIP r ≤ EndIP r ∧ Code r ≠ EmptyString.

(** The linear scan used as the reference for lookups. *)
Definition linear_scan (rs : list IPRange) (ip : Z) : option IPRange :=
  List.find (λ r, Contains r ip) rs.

(** The search findCountryForIP performs on a cache miss:
    [idx := sort.Search(len(db.ranges), func(i) { return
    db.ranges[i].StartIP > ipNum })], then [db.ranges[idx-1]] when
    [idx > 0] and that range contains the address. *)
Definition range_search (rs : list IPRange) (ipNum : Z) : option IPRange :=
  let idx := sort_Search (length rs) (λ i, StartIP (rs !!! i) >? ipNum) in
  let rangeItem := rs !!! (idx - 1)%nat in
  if (0 <? idx)%nat && Contains rangeItem ipNum then Some rangeItem else None.

(** ** The validators: validateRanges of the engine and the exported ValidateIPRanges *)

(** [for i := 0; i < len(ranges)-1; i++ { if ranges[i].EndIP >=
    ranges[i+1].StartIP { return overlap error } }; return nil] *)
Fixpoint validateRanges (ranges : list IPRange) : option error :=
  match ranges with
  | a :: (b :: _) as rest =>
      if EndIP a >=? StartIP b
      then Some (ErrOverlapDetected (StartIP a) (EndIP a) (StartIP b) (EndIP b))
      else validateRanges rest
  | _ => None
  end.

(** The loop [for i := 1; i < len(sorted); i++] of ValidateIPRanges, with
    [previous = sorted[i-1]] and the remaining elements [sorted[i:]]. *)
Fixpoint validate_loop (i : nat) (previous : IPRange) (rest : list IPRange) : option error :=
  match rest with
  | [] => None
  | current :: rest' =>
      match Validate current with
      | Some err => Some (ErrInvalidRangeAt i err)
      | None =>
          if EndIP previous >=? StartIP current
          then Some (ErrOverlapping (StartIP previous) (EndIP previous)
                                    (StartIP current) (EndIP current))
          else validate_loop (S i) current rest'
      end
  end.

Definition ValidateIPRanges `{SortSlice} (ranges : list IPRange) : option error :=
  match ranges with
  | [] => None
  | _ =>
      match sort_by_start ranges with
      | [] => None (* unreachable: the sorted copy has the length of [ranges] *)
      | first :: rest =>
          match Validate first with
          | Some err => Some (ErrInvalidRangeAt 0 err)
          | None => validate_loop 1 first rest
          end
      end
  end.

(** ** The LRU cache *)

(** [cacheEntry]: a cached lookup result, positive or negative. *)
Record cacheEntry := mkCacheEntry {
  country : string;
  code : string;
  ip : Z;
  found : bool
}.

(** The zero value [cacheEntry{}]. *)
Definition cacheEntry_zero : cacheEntry :=
  {| country := EmptyString; code := EmptyString; ip := 0; found := false |}.

(** [cacheItem]: what a list element carries. *)
Record cacheItem := mkCacheItem {
  value : cacheEntry;
  key : Z
}.

#[global] Instance cacheEntry_eq_dec : EqDecision cacheEntry.
Proof. solve_decision. Defined.
#[global] Instance cacheItem_eq_dec : EqDecision cacheItem.
Proof. solve_decision. Defined.

(** [atomic.AddInt64]: two's complement addition on 64 bits. *)
Definition int64_wrap (z : Z) : Z := (z + 2 ^ 63) mod 2 ^ 64 - 2 ^ 63.
Definition atomic_AddInt64 (x delta : Z) : Z := int64_wrap (x + delta).

(** [lruCache].  [items] maps a key to the address of its [*list.Element];
    [evictList] is the [container/list] as the sequence of its element
    addresses, front (most recently used) first; [heap] holds the
    [cacheItem] each allocated element points to and [heap_next] is the
    next fresh address.  Elements removed from the list stay in [heap]
    unreferenced, as garbage does.  The cache's own [sync.Mutex] is taken
    and released inside every method and no method calls a locking method
    while holding it, so it is not part of the state. *)
Record lruCache := mkLRU {
  capacity : Z;
  items : gmap Z nat;
  evictList : list nat;
  heap : gmap nat cacheItem;
  heap_next : nat;
  hits : Z;
  misses : Z
}.

(** The [cacheItem] behind [elem.Value]: the item an element points to.  An address
    stored in [items] or [evictList] is always allocated (see [cache_wf]);
    the default is never used there. *)
Definition deref (c : lruCache) (elem : nat) : cacheItem :=
  default {| value := cacheEntry_zero; key := 0 |} (heap c !! elem).

(** [func newLRUCache(capacity int) *lruCache] *)
Definition newLRUCache (capacity : Z) : lruCache :=
  {| capacity := capacity; items := ∅; evictList := []; heap := ∅;
     heap_next := 0%nat; hits := 0; misses := 0 |}.

(** [container/list]: [l.Remove(e)] unlinks [e] when it belongs to [l]. *)
Definition list_Remove (e : nat) (l : list nat) : list nat :=
  filter (λ x, x ≠ e) l.

(** [container/list]: [l.MoveToFront(e)] does nothing when [e] is not an
    element of [l] or is already at the front. *)
Definition list_MoveToFront (e : nat) (l : list nat) : list nat :=
  if bool_decide (e ∉ l) || bool_decide (head l = Some e) then l
  else e :: list_Remove e l.

(** [func (c *lruCache) get(key uint32) (cacheEntry, bool)] *)
Definition get (c : lruCache) (k : Z) : lruCache * (cacheEntry * bool) :=
  match items c !! k with
  | Some elem =>
      ({| capacity := capacity c; items := items c;
          evictList := list_MoveToFront elem (evictList c);
          heap := heap c; heap_next := heap_next c;
          hits := atomic_AddInt64 (hits c) 1; misses := misses c |},
       (value (deref c elem), true))
  | None =>
      ({| capacity := capacity c; items := items c; evictList := evictList c;
          heap := heap c; heap_next := heap_next c;
          hits := hits c; misses := atomic_AddInt64 (misses c) 1 |},
       (cacheEntry_zero, false))
  end.

(** [func (c *lruCache) removeOldest()] *)
Definition removeOldest (c : lruCache) : lruCache :=
  match last (evictList c) with
  | Some elem =>
      let item := deref c elem in
      {| capacity := capacity c; items := delete (key item) (items c);
         evictList := list_Remove elem (evictList c);
         heap := heap c; heap_next := heap_next c;
         hits := hits c; misses := misses c |}
  | None => c
  end.

(** [func (c *lruCache) put(key uint32, value cacheEntry)] *)
Definition put (c : lruCache) (k : Z) (v : cacheEntry) : lruCache :=
  match items c !! k with
  | Some elem =>
      {| capacity := capacity c; items := items c;
         evictList := list_MoveToFront elem (evictList c);
         heap := <[elem := {| value := v; key := key (deref c elem) |}]> (heap c);
         heap_next := heap_next c; hits := hits c; misses := misses c |}
  | None =>
      let c1 := if Z.of_nat (length (evictList c)) >=? capacity c
                then removeOldest c else c in
      let elem := heap_next c1 in
      {| capacity := capacity c1; items := <[k := elem]> (items c1);
         evictList := elem :: evictList c1;
         heap := <[elem := {| value := v; key := k |}]> (heap c1);
         heap_next := S elem; hits := hits c1; misses := misses c1 |}
  end.

(** [func (c *lruCache) clear()] *)
Definition clear (c : lruCache) : lruCache :=
  {| capacity := capacity c; items := ∅; evictList := [];
     heap := heap c; heap_next := heap_next c; hits := 0; misses := 0 |}.

(** [func (c *lruCache) getStats() (hits, misses int64)] *)
Definition getStats (c : lruCache) : Z * Z := (hits c, misses c).

(** The keys held by the recency list, front first. *)
Definition list_keys (c : lruCache) : list Z :=
  (λ e, key (deref c e)) <$> evictList c.

(** Well-formedness of the pointer structure: list elements are distinct
    allocated addresses, and the index maps exactly the key of each list
    element to that element. *)
Record cache_wf (c : lruCache) : Prop := {
  wf_nodup : NoDup (evictList c);
  wf_alloc : ∀ e, e ∈ evictList c → (e < heap_next c)%nat ∧ is_Some (heap c !! e);
  wf_index : ∀ k e, items c !! k = Some e ↔ e ∈ evictList c ∧ key (deref c e) = k
}.

(** A property of every cached entry, by key. *)
Definition cache_all (P : Z → cacheEntry → Prop) (c : lruCache) : Prop :=
  ∀ k e, items c !! k = Some e → P k (value (deref c e)).

(** Operations of the cache, for sequences of calls. *)
Inductive cache_op :=
  | OpGet (k : Z)
  | OpPut (k : Z) (v : cacheEntry)
  | OpClear.

Definition cache_step (c : lruCache) (op : cache_op) : lruCache :=
  match op with
  | OpGet k => (get c k).1
  | OpPut k v => put c k v
  | OpClear => clear c
  end.

Definition cache_run (c : lruCache) (ops : list cache_op) : lruCache :=
  foldl cache_step c ops.

(** ** Configuration, statistics and parse results *)

Record Config := mkConfig {
  Delimiter : string;
  MaxFileSize : Z;
  MaxRanges : Z;
  CacheSize : Z;
  SkipHeader : bool
}.

(** [func DefaultConfig() Config] *)
Definition DefaultConfig : Config :=
  {| MaxRanges := 1000000; MaxFileSize := Z.shiftl 100 20; SkipHeader := false;
     Delimiter := ","; CacheSize := 1000 |}.

(** [Stats]; instants and durations are integers, the zero [time.Time]
    is [0]. *)
Record Stats := mkStats {
  LastUpdate : Z;
  LoadTime : Z;
  FileSize : Z;
  CacheHits : Z;
  CacheMisses : Z;
  TotalRanges : Z
}.

Definition Stats_zero : Stats :=
  {| LastUpdate := 0; LoadTime := 0; FileSize := 0; CacheHits := 0;
     CacheMisses := 0; TotalRanges := 0 |}.

Record ParseError := mkParseError {
  Content : string;
  Err : error;
  Line : nat
}.

Record ParseResult := mkParseResult {
  Ranges : list IPRange;
  Errors : list ParseError;
  PStats : Stats
}.

(** A value or an error: the Go idiom [(T, error)]. *)
Inductive result (A : Type) : Type :=
  | Ok (a : A)
  | Failed (e : error).
Arguments Ok {A} a.
Arguments Failed {A} e.

(** ** The Go standard library functions the parsers call

    [strings.TrimSpace], [strings.Split], [net.ParseIP] (an address as its
    bytes, [None] for [nil]) and [strconv.ParseUint(s, 10, 32)] ([None] for
    an error) are not code of this package: the embedding is parametric in
    them. *)
Class GoText := {
  strings_TrimSpace : string → string;
  strings_Split : string → string → list string;
  net_ParseIP : string → option (list Z);
  strconv_ParseUint32 : string → option Z
}.

(** [func (ip IP) To4() IP] of package [net]. *)
Definition IP_To4 (b : list Z) : option (list Z) :=
  if (length b =? 4)%nat then Some b
  else if (length b =? 16)%nat
          && forallb (Z.eqb 0) (take 10 b)
          && bool_decide (b !! 10%nat = Some 255)
          && bool_decide (b !! 11%nat = Some 255)
       then Some (drop 12 b)
       else None.

(** [binary.BigEndian.Uint32] *)
Definition BigEndian_Uint32 (b : list Z) : Z :=
  Z.lor (Z.lor (Z.lor (Z.shiftl (b !!! 0%nat) 24) (Z.shiftl (b !!! 1%nat) 16))
               (Z.shiftl (b !!! 2%nat) 8))
        (b !!! 3%nat).

(** ** [func parseIP(ipStr string) (uint32, error)] *)
Definition parseIP `{GoText} (ipStr : string) : result Z :=
  match net_ParseIP ipStr with
  | Some addr =>
      match IP_To4 addr with
      | Some ip4 => Ok (BigEndian_Uint32 ip4)
      | None => Failed (ErrNotIPv4 ipStr)
      end
  | None =>
      match strconv_ParseUint32 ipStr with
      | Some num => Ok num
      | None => Failed (ErrInvalidIPFormat ipStr)
      end
  end.

(** ** The environment of a call *)

(** What reading a file yields: the result of [file.Stat()], the lines
    [scanner.Scan] produces before it returns false, and [scanner.Err()]
    at that point. *)
Record File := mkFile {
  file_stat : result Z;
  file_lines : list string;
  file_scan_err : option error
}.

(** The file system ([os.Open]) and the three clock readings of a load. *)
Record World := mkWorld {
  os_Open : string → result File;
  clock_start : Z;
  clock_loaded : Z;
  clock_now : Z
}.

(** A [context.Context]: whether [ctx.Done()] is closed when the scanning
    loop polls it for the [n]-th time (counting from 0), and [ctx.Err()]. *)
Record Context := mkContext {
  ctx_Done : nat → bool;
  ctx_Err : error
}.

(** [context.Background()] is never cancelled. *)
Definition context_Background : Context :=
  {| ctx_Done := λ _, false; ctx_Err := ErrContext EmptyString |}.

(** ** sync.RWMutex and the monad of engine operations *)

Inductive RWMutex :=
  | Unlocked
  | WriteLocked
  | ReadLocked (readers : nat).

#[global] Instance RWMutex_eq_dec : EqDecision RWMutex.
Proof. solve_decision. Defined.

(** The lock is not reentrant: [Lock] waits while anyone holds the mutex,
    [RLock] waits while a writer holds it.  [None] is "must wait". *)
Definition RWMutex_Lock (m : RWMutex) : option RWMutex :=
  match m with Unlocked => Some WriteLocked | _ => None end.

Definition RWMutex_Unlock (m : RWMutex) : RWMutex :=
  match m with WriteLocked => Unlocked | _ => m end.

Definition RWMutex_RLock (m : RWMutex) : option RWMutex :=
  match m with
  | Unlocked => Some (ReadLocked 1)
  | ReadLocked n => Some (ReadLocked (S n))
  | WriteLocked => None
  end.

Definition RWMutex_RUnlock (m : RWMutex) : RWMutex :=
  match m with
  | ReadLocked (S (S n)) => ReadLocked (S n)
  | ReadLocked _ => Unlocked
  | _ => m
  end.

(** The outcome of running an operation of one goroutine to its end, the
    other goroutines being idle: it returns [a] in state [s], or it waits
    for ever on a lock in state [s]. *)
Inductive outcome (S A : Type) : Type :=
  | Done (a : A) (s : S)
  | Blocked (s : S).
Arguments Done {S A} a s.
Arguments Blocked {S A} s.

Definition M (S A : Type) : Type := S → outcome S A.

Definition M_ret {S A} (a : A) : M S A := λ s, Done a s.

Definition M_bind {S A B} (m : M S A) (k : A → M S B) : M S B :=
  λ s, match m s with
       | Done a s' => k a s'
       | Blocked s' => Blocked s'
       end.

Definition M_gets {S A} (f : S → A) : M S A := λ s, Done (f s) s.
Definition M_modify {S} (f : S → S) : M S unit := λ s, Done tt (f s).

(** Acquire a lock through [acquire], or wait for ever. *)
Definition M_acquire {S} (mu : S → RWMutex) (set_mu : RWMutex → S → S)
    (acquire : RWMutex → option RWMutex) : M S unit :=
  λ s, match acquire (mu s) with
       | Some m => Done tt (set_mu m s)
       | None => Blocked s
       end.

(** [defer cleanup]: [cleanup] runs when the body returns. *)
Definition M_defer {S A} (cleanup : M S unit) (body : M S A) : M S A :=
  M_bind body (λ a, M_bind cleanup (λ _, M_ret a)).

Declare Scope go_scope.
Delimit Scope go_scope with go.
Notation "x <- m ;; k" := (M_bind m (λ x, k))
  (at level 100, m at next level, k at level 200, right associativity) : go_scope.
Notation "m >>> k" := (M_bind m (λ _, k))
  (at level 100, k at level 200, right associativity) : go_scope.

(** The state an outcome ends in. *)
Definition outcome_state {S A} (o : outcome S A) : S :=
  match o with Done _ s => s | Blocked s => s end.

(** ** The range lookup engine, IPCountryDB *)
Module RangeEngine.
Local Open Scope go_scope.

Record IPCountryDB := mkDB {
  ranges : list IPRange;
  mu : RWMutex;
  initialized : Z;
  initErr : option error;
  config : Config;
  stats : Stats;
  filePath : string;
  cache : lruCache
}.

Definition set_ranges (v : list IPRange) (db : IPCountryDB) : IPCountryDB :=
  mkDB v (mu db) (initialized db) (initErr db) (config db) (stats db) (filePath db) (cache db).
Definition set_mu (v : RWMutex) (db : IPCountryDB) : IPCountryDB :=
  mkDB (ranges db) v (initialized db) (initErr db) (config db) (stats db) (filePath db) (cache db).
Definition set_initialized (v : Z) (db : IPCountryDB) : IPCountryDB :=
  mkDB (ranges db) (mu db) v (initErr db) (config db) (stats db) (filePath db) (cache db).
Definition set_initErr (v : option error) (db : IPCountryDB) : IPCountryDB :=
  mkDB (ranges db) (mu db) (initialized db) v (config db) (stats db) (filePath db) (cache db).
Definition set_stats (v : Stats) (db : IPCountryDB) : IPCountryDB :=
  mkDB (ranges db) (mu db) (initialized db) (initErr db) (config db) v (filePath db) (cache db).
Definition set_cache (v : lruCache) (db : IPCountryDB) : IPCountryDB :=
  mkDB (ranges db) (mu db) (initialized db) (initErr db) (config db) (stats db) (filePath db) v.

(** [db.mu.Lock()], [db.mu.Unlock()], [db.mu.RLock()], [db.mu.RUnlock()] *)
Definition mu_Lock : M IPCountryDB unit := M_acquire mu set_mu RWMutex_Lock.
Definition mu_Unlock : M IPCountryDB unit := M_modify (λ db, set_mu (RWMutex_Unlock (mu db)) db).
Definition mu_RLock : M IPCountryDB unit := M_acquire mu set_mu RWMutex_RLock.
Definition mu_RUnlock : M IPCountryDB unit := M_modify (λ db, set_mu (RWMutex_RUnlock (mu db)) db).

(** [func NewIPCountryDB(filePath string, config ...Config) *IPCountryDB] *)
Definition NewIPCountryDB (path : string) (cfgs : list Config) : IPCountryDB :=
  let cfg := match cfgs with c :: _ => c | [] => DefaultConfig end in
  let cfg := if String.eqb (Delimiter cfg) EmptyString
             then mkConfig "," (MaxFileSize cfg) (MaxRanges cfg) (CacheSize cfg) (SkipHeader cfg)
             else cfg in
  let cfg := if CacheSize cfg <=? 0
             then mkConfig (Delimiter cfg) (MaxFileSize cfg) (MaxRanges cfg) 1000 (SkipHeader cfg)
             else cfg in
  {| ranges := []; mu := Unlocked; initialized := 0; initErr := None;
     config := cfg; stats := Stats_zero; filePath := path;
     cache := newLRUCache (CacheSize cfg) |}.

Section WithLibrary.
Context `{!GoText} `{!SortSlice}.

(** [func (db *IPCountryDB) parseLine(line string)], returning an [IPRange] or an error *)
Definition parseLine (db : IPCountryDB) (line : string) : result IPRange :=
  let parts := strings_Split line (Delimiter (config db)) in
  match parts with
  | [p0; p1; p2] =>
      match parseIP (strings_TrimSpace p0) with
      | Failed err => Failed (ErrInvalidStartIP p0 err)
      | Ok startIP =>
          match parseIP (strings_TrimSpace p1) with
          | Failed err => Failed (ErrInvalidEndIP p1 err)
          | Ok endIP =>
              let countryCode := strings_TrimSpace p2 in
              let ipRange := {| StartIP := startIP; EndIP := endIP;
                                Country := countryCode; Code := countryCode |} in
              match Validate ipRange with
              | Some err => Failed err
              | None => Ok ipRange
              end
          end
      end
  | _ => Failed (ErrFieldCount 3 (length parts))
  end.

(** How the scanning loop ended: [scanner.Scan()] returned false, or the
    loop was left by [break]. *)
Inductive scan_end := ScanExhausted | ScanBreak.

(** The loop [for scanner.Scan() { ... }] of parseReaderWithContext over
    the lines still to be scanned; [lineNum] lines were scanned before. *)
Fixpoint scan_loop (db : IPCountryDB) (ctx : Context) (lines : list string)
    (lineNum : nat) (rs : list IPRange) (errors : list ParseError)
  : result (scan_end * list IPRange * list ParseError) :=
  match lines with
  | [] => Ok (ScanExhausted, rs, errors)
  | text :: lines' =>
      if ctx_Done ctx lineNum then Failed (ctx_Err ctx)
      else
        let lineNum := S lineNum in
        let line := strings_TrimSpace text in
        if String.eqb line EmptyString || (SkipHeader (config db) && (lineNum =? 1)%nat)
        then scan_loop db ctx lines' lineNum rs errors
        else
          match parseLine db line with
          | Failed err =>
              scan_loop db ctx lines' lineNum rs
                (errors ++ [{| Line := lineNum; Content := line; Err := err |}])
          | Ok ipRange =>
              let rs := rs ++ [ipRange] in
              if (MaxRanges (config db) >? 0)
                 && (Z.of_nat (length rs) >=? MaxRanges (config db))
              then Ok (ScanBreak, rs, errors)
              else scan_loop db ctx lines' lineNum rs errors
          end
  end.

(** [func (db *IPCountryDB) parseReaderWithContext(ctx, reader)] *)
Definition parseReaderWithContext (db : IPCountryDB) (ctx : Context) (reader : File)
  : result ParseResult :=
  match scan_loop db ctx (file_lines reader) 0 [] [] with
  | Failed err => Failed err
  | Ok (how, rs, errors) =>
      match (match how with ScanExhausted => file_scan_err reader | ScanBreak => None end) with
      | Some err => Failed (ErrScanner err)
      | None =>
          Ok {| Ranges := rs; Errors := errors;
                PStats := mkStats 0 0 0 0 0 (Z.of_nat (length rs)) |}
      end
  end.

(** [func (db *IPCountryDB) parseFileWithContext(ctx, filePath)] *)
Definition parseFileWithContext (db : IPCountryDB) (ctx : Context) (w : World)
    (path : string) : result ParseResult :=
  match os_Open w path with
  | Failed err => Failed (ErrOpenFile err)
  | Ok file =>
      match file_stat file with
      | Failed err => Failed (ErrFileStats err)
      | Ok fileSize =>
          if (MaxFileSize (config db) >? 0) && (fileSize >? MaxFileSize (config db))
          then Failed (ErrFileSize fileSize (MaxFileSize (config db)))
          else
            match parseReaderWithContext db ctx file with
            | Failed err => Failed err
            | Ok res =>
                let st := PStats res in
                Ok {| Ranges := Ranges res; Errors := Errors res;
                      PStats := mkStats (LastUpdate st) (LoadTime st) fileSize
                                  (CacheHits st) (CacheMisses st) (TotalRanges st) |}
            end
      end
  end.

(** The part of initializeWithContext that runs with [db.mu] held. *)
Definition load (ctx : Context) (w : World) : M IPCountryDB (option error) :=
  i <- M_gets initialized ;;
  if i =? 1 then M_gets initErr
  else
    db <- M_gets id ;;
    match parseFileWithContext db ctx w (filePath db) with
    | Failed err => M_modify (set_initErr (Some err)) >>> M_gets initErr
    | Ok res =>
        let sorted := sort_by_start (Ranges res) in
        match validateRanges sorted with
        | Some err =>
            M_modify (set_initErr (Some (ErrRangeValidation err))) >>> M_gets initErr
        | None =>
            let st := PStats res in
            M_modify (set_ranges sorted) >>>
            M_modify (set_stats (mkStats (clock_now w) (clock_loaded w - clock_start w)
                                   (FileSize st) (CacheHits st) (CacheMisses st)
                                   (TotalRanges st))) >>>
            M_modify (set_initialized 1) >>>
            M_ret None
        end
    end.

(** [func (db *IPCountryDB) initializeWithContext(ctx) error] *)
Definition initializeWithContext (ctx : Context) (w : World) : M IPCountryDB (option error) :=
  i <- M_gets initialized ;;
  if i =? 1 then M_gets initErr
  else mu_Lock >>> M_defer mu_Unlock (load ctx w).

(** [c.get] and [c.put] on the cache the engine points to. *)
Definition cache_get (ipNum : Z) : M IPCountryDB (cacheEntry * bool) :=
  λ db, Done (get (cache db) ipNum).2 (set_cache (get (cache db) ipNum).1 db).
Definition cache_put (ipNum : Z) (entry : cacheEntry) : M IPCountryDB unit :=
  M_modify (λ db, set_cache (put (cache db) ipNum entry) db).

(** [func (db *IPCountryDB) findCountryForIP(ipNum uint32) (string, string, error)] *)
Definition findCountryForIP (ipNum : Z) : M IPCountryDB (string * string * option error) :=
  r <- cache_get ipNum ;;
  if r.2 then
    if negb (found r.1) then M_ret (EmptyString, EmptyString, Some ErrNotFoundCached)
    else M_ret (country r.1, code r.1, None)
  else
    db <- M_gets id ;;
    let idx := sort_Search (length (ranges db))
                 (λ i, StartIP (ranges db !!! i) >? ipNum) in
    let rangeItem := ranges db !!! (idx - 1)%nat in
    if (0 <? idx)%nat && Contains rangeItem ipNum then
      cache_put ipNum {| ip := ipNum; country := Country rangeItem;
                         code := Code rangeItem; found := true |} >>>
      M_ret (Country rangeItem, Code rangeItem, None)
    else
      cache_put ipNum {| ip := ipNum; country := EmptyString; code := EmptyString;
                         found := false |} >>>
      M_ret (EmptyString, EmptyString, Some ErrNotFound).

(** [func (db *IPCountryDB) GetCountryWithContext(ctx, ipStr) (string, error)] *)
Definition GetCountryWithContext (ctx : Context) (w : World) (ipStr : string)
  : M IPCountryDB (string * option error) :=
  err <- initializeWithContext ctx w ;;
  match err with
  | Some e => M_ret (EmptyString, Some (ErrInitFailed e))
  | None =>
      match parseIP ipStr with
      | Failed e => M_ret (EmptyString, Some (ErrInvalidIP e))
      | Ok ipNum =>
          mu_RLock >>>
          M_defer mu_RUnlock
            (r <- findCountryForIP ipNum ;; M_ret (r.1.1, r.2))
      end
  end.

(** [func (db *IPCountryDB) GetCountry(ipStr string) (string, error)] *)
Definition GetCountry (w : World) (ipStr : string) : M IPCountryDB (string * option error) :=
  GetCountryWithContext context_Background w ipStr.

(** [func (db *IPCountryDB) GetCountryCodeWithContext(ctx, ipStr) (string, error)] *)
Definition GetCountryCodeWithContext (ctx : Context) (w : World) (ipStr : string)
  : M IPCountryDB (string * option error) :=
  err <- initializeWithContext ctx w ;;
  match err with
  | Some e => M_ret (EmptyString, Some (ErrInitFailed e))
  | None =>
      match parseIP ipStr with
      | Failed e => M_ret (EmptyString, Some (ErrInvalidIP e))
      | Ok ipNum =>
          mu_RLock >>>
          M_defer mu_RUnlock
            (r <- findCountryForIP ipNum ;; M_ret (r.1.2, r.2))
      end
  end.

(** [func (db *IPCountryDB) GetCountryCode(ipStr string) (string, error)] *)
Definition GetCountryCode (w : World) (ipStr : string) : M IPCountryDB (string * option error) :=
  GetCountryCodeWithContext context_Background w ipStr.

(** [func (db *IPCountryDB) Stats() Stats]; the name [Stats] is taken by
    the record. *)
Definition GetStats : M IPCountryDB Stats :=
  mu_RLock >>>
  s <- M_gets stats ;;
  mu_RUnlock >>>
  c <- M_gets cache ;;
  M_ret (mkStats (LastUpdate s) (LoadTime s) (FileSize s)
           (getStats c).1 (getStats c).2 (TotalRanges s)).

(** The assignments of ReloadWithContext made before it initializes again. *)
Definition reload_reset : M IPCountryDB unit :=
  M_modify (set_initialized 0) >>>
  M_modify (set_ranges []) >>>
  M_modify (set_initErr None) >>>
  M_modify (λ db, set_cache (clear (cache db)) db).

(** [func (db *IPCountryDB) ReloadWithContext(ctx) error] *)
Definition ReloadWithContext (ctx : Context) (w : World) : M IPCountryDB (option error) :=
  mu_Lock >>>
  M_defer mu_Unlock
    (reload_reset >>>
     err <- initializeWithContext ctx w ;;
     match err with
     | Some e => M_ret (Some (ErrReloadFailed e))
     | None => M_ret None
     end).

(** [func (db *IPCountryDB) Reload() error] *)
Definition Reload (w : World) : M IPCountryDB (option error) :=
  ReloadWithContext context_Background w.

End WithLibrary.
End RangeEngine.

(** ** The exact lookup engine, ExactIPCountryMap *)
Module ExactEngine.
Local Open Scope go_scope.

(** [ExactIPCountryMap]; a [nil] map reads like the empty map and is only
    written after [make], so both are the empty [gmap]. *)
Record ExactIPCountryMap := mkMap {
  ipMap : gmap Z string;
  mu : RWMutex;
  initialized : Z;
  initErr : option error;
  config : Config;
  stats : Stats;
  filePath : string;
  cache : lruCache;
  parseErrors : list ParseError
}.

Definition set_ipMap (v : gmap Z string) (m : ExactIPCountryMap) : ExactIPCountryMap :=
  mkMap v (mu m) (initialized m) (initErr m) (config m) (stats m) (filePath m) (cache m)
    (parseErrors m).
Definition set_mu (v : RWMutex) (m : ExactIPCountryMap) : ExactIPCountryMap :=
  mkMap (ipMap m) v (initialized m) (initErr m) (config m) (stats m) (filePath m) (cache m)
    (parseErrors m).
Definition set_initialized (v : Z) (m : ExactIPCountryMap) : ExactIPCountryMap :=
  mkMap (ipMap m) (mu m) v (initErr m) (config m) (stats m) (filePath m) (cache m)
    (parseErrors m).
Definition set_initErr (v : option error) (m : ExactIPCountryMap) : ExactIPCountryMap :=
  mkMap (ipMap m) (mu m) (initialized m) v (config m) (stats m) (filePath m) (cache m)
    (parseErrors m).
Definition set_stats (v : Stats) (m : ExactIPCountryMap) : ExactIPCountryMap :=
  mkMap (ipMap m) (mu m) (initialized m) (initErr m) (config m) v (filePath m) (cache m)
    (parseErrors m).
Definition set_cache (v : lruCache) (m : ExactIPCountryMap) : ExactIPCountryMap :=
  mkMap (ipMap m) (mu m) (initialized m) (initErr m) (config m) (stats m) (filePath m) v
    (parseErrors m).
Definition set_parseErrors (v : list ParseError) (m : ExactIPCountryMap) : ExactIPCountryMap :=
  mkMap (ipMap m) (mu m) (initialized m) (initErr m) (config m) (stats m) (filePath m)
    (cache m) v.

Definition mu_Lock : M ExactIPCountryMap unit := M_acquire mu set_mu RWMutex_Lock.
Definition mu_Unlock : M ExactIPCountryMap unit :=
  M_modify (λ m, set_mu (RWMutex_Unlock (mu m)) m).
Definition mu_RLock : M ExactIPCountryMap unit := M_acquire mu set_mu RWMutex_RLock.
Definition mu_RUnlock : M ExactIPCountryMap unit :=
  M_modify (λ m, set_mu (RWMutex_RUnlock (mu m)) m).

(** [func NewExactIPCountryMap(filePath string, config ...Config) *ExactIPCountryMap] *)
Definition NewExactIPCountryMap (path : string) (cfgs : list Config) : ExactIPCountryMap :=
  let cfg := match cfgs with c :: _ => c | [] => DefaultConfig end in
  let cfg := if String.eqb (Delimiter cfg) EmptyString
             then mkConfig "," (MaxFileSize cfg) (MaxRanges cfg) (CacheSize cfg) (SkipHeader cfg)
             else cfg in
  let cfg := if CacheSize cfg <=? 0
             then mkConfig (Delimiter cfg) (MaxFileSize cfg) (MaxRanges cfg) 1000 (SkipHeader cfg)
             else cfg in
  {| ipMap := ∅; mu := Unlocked; initialized := 0; initErr := None;
     config := cfg; stats := Stats_zero; filePath := path;
     cache := newLRUCache (CacheSize cfg); parseErrors := [] |}.

Section WithLibrary.
Context `{!GoText}.

(** [func (m *ExactIPCountryMap) parseLine(line string) (code string, ipNum uint32, err error)] *)
Definition parseLine (m : ExactIPCountryMap) (line : string) : result (string * Z) :=
  let parts := strings_Split line (Delimiter (config m)) in
  match parts with
  | [p0; p1] =>
      let ipStr := strings_TrimSpace p0 in
      match parseIP ipStr with
      | Failed err => Failed (ErrInvalidIPq ipStr err)
      | Ok ipNum =>
          let c := strings_TrimSpace p1 in
          if String.eqb c EmptyString then Failed ErrEmptyCode else Ok (c, ipNum)
      end
  | _ => Failed (ErrFieldCount 2 (length parts))
  end.

Inductive scan_end := ScanExhausted | ScanBreak.

(** The loop [for scanner.Scan() { ... }] of parseFileWithContext: it
    writes [m.ipMap] and [m.parseErrors] as it goes. *)
Fixpoint scan_loop (ctx : Context) (lines : list string) (lineNum processed : nat)
    (m : ExactIPCountryMap) : ExactIPCountryMap * result scan_end :=
  match lines with
  | [] => (m, Ok ScanExhausted)
  | text :: lines' =>
      if ctx_Done ctx lineNum then (m, Failed (ctx_Err ctx))
      else
        let lineNum := S lineNum in
        let line := strings_TrimSpace text in
        if String.eqb line EmptyString || (SkipHeader (config m) && (lineNum =? 1)%nat)
        then scan_loop ctx lines' lineNum processed m
        else
          match parseLine m line with
          | Failed err =>
              scan_loop ctx lines' lineNum processed
                (set_parseErrors
                   (parseErrors m ++ [{| Line := lineNum; Content := line; Err := err |}]) m)
          | Ok (c, ipNum) =>
              let m := set_ipMap (<[ipNum := c]> (ipMap m)) m in
              let processed := S processed in
              if (MaxRanges (config m) >? 0)
                 && (Z.of_nat processed >=? MaxRanges (config m))
              then (m, Ok ScanBreak)
              else scan_loop ctx lines' lineNum processed m
          end
  end.

(** [func (m *ExactIPCountryMap) parseFileWithContext(ctx, filePath) error] *)
Definition parseFileWithContext (ctx : Context) (w : World) (path : string)
  : M ExactIPCountryMap (option error) :=
  m <- M_gets id ;;
  match os_Open w path with
  | Failed err => M_ret (Some (ErrOpenFile err))
  | Ok file =>
      match file_stat file with
      | Failed err => M_ret (Some (ErrFileStats err))
      | Ok fileSize =>
          if (MaxFileSize (config m) >? 0) && (fileSize >? MaxFileSize (config m))
          then M_ret (Some (ErrFileSize fileSize (MaxFileSize (config m))))
          else
            M_modify (set_ipMap ∅) >>>
            M_modify (set_parseErrors []) >>>
            r <- (λ m, Done (scan_loop ctx (file_lines file) 0 0 m).2
                            (scan_loop ctx (file_lines file) 0 0 m).1) ;;
            match r with
            | Failed err => M_ret (Some err)
            | Ok how =>
                match (match how with
                       | ScanExhausted => file_scan_err file
                       | ScanBreak => None
                       end) with
                | Some err => M_ret (Some (ErrScanner err))
                | None =>
                    M_modify (λ m, set_stats
                      (mkStats (LastUpdate (stats m)) (LoadTime (stats m)) fileSize
                         (CacheHits (stats m)) (CacheMisses (stats m))
                         (TotalRanges (stats m))) m) >>>
                    M_ret None
                end
            end
      end
  end.

(** The part of initializeWithContext that runs with [m.mu] held. *)
Definition load (ctx : Context) (w : World) : M ExactIPCountryMap (option error) :=
  i <- M_gets initialized ;;
  if i =? 1 then M_gets initErr
  else
    path <- M_gets filePath ;;
    err <- parseFileWithContext ctx w path ;;
    match err with
    | Some e => M_modify (set_initErr (Some e)) >>> M_gets initErr
    | None =>
        M_modify (λ m, set_stats
          (mkStats (clock_now w) (clock_loaded w - clock_start w) (FileSize (stats m))
             (CacheHits (stats m)) (CacheMisses (stats m))
             (Z.of_nat (size (ipMap m)))) m) >>>
        M_modify (set_initialized 1) >>>
        M_ret None
    end.

(** [func (m *ExactIPCountryMap) initializeWithContext(ctx) error] *)
Definition initializeWithContext (ctx : Context) (w : World)
  : M ExactIPCountryMap (option error) :=
  i <- M_gets initialized ;;
  if i =? 1 then M_gets initErr
  else mu_Lock >>> M_defer mu_Unlock (load ctx w).

Definition cache_get (ipNum : Z) : M ExactIPCountryMap (cacheEntry * bool) :=
  λ m, Done (get (cache m) ipNum).2 (set_cache (get (cache m) ipNum).1 m).
Definition cache_put (ipNum : Z) (entry : cacheEntry) : M ExactIPCountryMap unit :=
  M_modify (λ m, set_cache (put (cache m) ipNum entry) m).

(** [func (m *ExactIPCountryMap) findCountryForIP(ipNum uint32) (string, string, error)] *)
Definition findCountryForIP (ipNum : Z) : M ExactIPCountryMap (string * string * option error) :=
  r <- cache_get ipNum ;;
  if r.2 then
    if negb (found r.1) then M_ret (EmptyString, EmptyString, Some ErrNotFoundCached)
    else M_ret (country r.1, code r.1, None)
  else
    m <- M_gets id ;;
    match ipMap m !! ipNum with
    | None =>
        cache_put ipNum {| ip := ipNum; country := EmptyString; code := EmptyString;
                           found := false |} >>>
        M_ret (EmptyString, EmptyString, Some ErrNotFound)
    | Some c =>
        cache_put ipNum {| ip := ipNum; country := c; code := c; found := true |} >>>
        M_ret (c, c, None)
    end.

(** [func (m *ExactIPCountryMap) GetCountryWithContext(ctx, ipStr) (string, error)] *)
Definition GetCountryWithContext (ctx : Context) (w : World) (ipStr : string)
  : M ExactIPCountryMap (string * option error) :=
  err <- initializeWithContext ctx w ;;
  match err with
  | Some e => M_ret (EmptyString, Some (ErrInitFailed e))
  | None =>
      match parseIP ipStr with
      | Failed e => M_ret (EmptyString, Some (ErrInvalidIP e))
      | Ok ipNum =>
          mu_RLock >>>
          M_defer mu_RUnlock
            (r <- findCountryForIP ipNum ;; M_ret (r.1.1, r.2))
      end
  end.

Definition GetCountry (w : World) (ipStr : string) : M ExactIPCountryMap (string * option error) :=
  GetCountryWithContext context_Background w ipStr.

(** [func (m *ExactIPCountryMap) GetCountryCodeWithContext(ctx, ipStr) (string, error)] *)
Definition GetCountryCodeWithContext (ctx : Context) (w : World) (ipStr : string)
  : M ExactIPCountryMap (string * option error) :=
  err <- initializeWithContext ctx w ;;
  match err with
  | Some e => M_ret (EmptyString, Some (ErrInitFailed e))
  | None =>
      match parseIP ipStr with
      | Failed e => M_ret (EmptyString, Some (ErrInvalidIP e))
      | Ok ipNum =>
          mu_RLock >>>
          M_defer mu_RUnlock
            (r <- findCountryForIP ipNum ;; M_ret (r.1.2, r.2))
      end
  end.

Definition GetCountryCode (w : World) (ipStr : string)
  : M ExactIPCountryMap (string * option error) :=
  GetCountryCodeWithContext context_Background w ipStr.

(** [func (m *ExactIPCountryMap) GetParseErrors() []ParseError] *)
Definition GetParseErrors : M ExactIPCountryMap (list ParseError) :=
  mu_RLock >>> M_defer mu_RUnlock (M_gets parseErrors).

(** [func (m *ExactIPCountryMap) Stats() Stats] *)
Definition GetStats : M ExactIPCountryMap Stats :=
  mu_RLock >>>
  s <- M_gets stats ;;
  mu_RUnlock >>>
  c <- M_gets cache ;;
  M_ret (mkStats (LastUpdate s) (LoadTime s) (FileSize s)
           (getStats c).1 (getStats c).2 (TotalRanges s)).

(** The assignments of ReloadWithContext made before it initializes again. *)
Definition reload_reset : M ExactIPCountryMap unit :=
  M_modify (set_initialized 0) >>>
  M_modify (set_ipMap ∅) >>>
  M_modify (set_initErr None) >>>
  M_modify (λ m, set_cache (clear (cache m)) m).

(** [func (m *ExactIPCountryMap) ReloadWithContext(ctx) error] *)
Definition ReloadWithContext (ctx : Context) (w : World) : M ExactIPCountryMap (option error) :=
  mu_Lock >>>
  M_defer mu_Unlock
    (reload_reset >>>
     err <- initializeWithContext ctx w ;;
     match err with
     | Some e => M_ret (Some (ErrReloadFailed e))
     | None => M_ret None
     end).

Definition Reload (w : World) : M ExactIPCountryMap (option error) :=
  ReloadWithContext context_Background w.

End WithLibrary.
End ExactEngine.

(** ** Reference instances of the standard library functions

    Enough of the Go standard library to run the engines on ASCII data
    files with dotted-decimal or decimal addresses: ASCII white space,
    splitting on a separator, dotted-decimal IPv4 (IPv6 literals are not
    recognised) and unsigned decimal numbers below [2^32]; sorting is a
    merge sort. *)
Module Reference.

Definition ascii_is_space (a : ascii) : bool :=
  let n := nat_of_ascii a in
  (n =? 32)%nat || ((9 <=? n)%nat && (n <=? 13)%nat).

Fixpoint trim_left (s : list ascii) : list ascii :=
  match s with
  | a :: s' => if ascii_is_space a then trim_left s' else s
  | [] => []
  end.

Definition TrimSpace (s : string) : string :=
  string_of_list_ascii
    (rev (trim_left (rev (trim_left (list_ascii_of_string s))))).

Fixpoint is_prefix (p s : list ascii) : bool :=
  match p, s with
  | [], _ => true
  | a :: p', b :: s' => Ascii.eqb a b && is_prefix p' s'
  | _ :: _, [] => false
  end.

Fixpoint split_aux (sep s cur : list ascii) (skip : nat) : list string :=
  match s with
  | [] => [string_of_list_ascii (rev cur)]
  | a :: s' =>
      match skip with
      | S k => split_aux sep s' cur k
      | O =>
          if is_prefix sep s
          then string_of_list_ascii (rev cur) :: split_aux sep s' [] (length sep - 1)
          else split_aux sep s' (a :: cur) 0
      end
  end.

Definition Split (s sep : string) : list string :=
  match list_ascii_of_string sep with
  | [] => (λ a, String a EmptyString) <$> list_ascii_of_string s
  | sepl => split_aux sepl (list_ascii_of_string s) [] 0
  end.

Definition digit_value (a : ascii) : option Z :=
  let n := nat_of_ascii a in
  if (48 <=? n)%nat && (n <=? 57)%nat then Some (Z.of_nat (n - 48)) else None.

Fixpoint decimal_aux (s : list ascii) (acc : Z) : option Z :=
  match s with
  | [] => Some acc
  | a :: s' =>
      match digit_value a with
      | Some d => decimal_aux s' (10 * acc + d)
      | None => None
      end
  end.

Definition decimal (s : string) : option Z :=
  match list_ascii_of_string s with
  | [] => None
  | l => decimal_aux l 0
  end.

Definition ParseUint32 (s : string) : option Z :=
  match decimal s with
  | Some n => if n <? 2 ^ 32 then Some n else None
  | None => None
  end.

(** One field of a dotted-decimal address: at most three digits, no
    leading zero, at most 255. *)
Definition octet (s : string) : option Z :=
  match decimal s with
  | Some n =>
      if (String.length s <=? 3)%nat && (n <=? 255)
         && ((String.length s =? 1)%nat || negb (is_prefix ["0"%char] (list_ascii_of_string s)))
      then Some n else None
  | None => None
  end.

Definition ParseIP (s : string) : option (list Z) :=
  match octet <$> Split s "." with
  | [Some a; Some b; Some c; Some d] =>
      Some [0; 0; 0; 0; 0; 0; 0; 0; 0; 0; 255; 255; a; b; c; d]
  | _ => None
  end.

#[global] Instance go_text : GoText :=
  {| strings_TrimSpace := TrimSpace; strings_Split := Split;
     net_ParseIP := ParseIP; strconv_ParseUint32 := ParseUint32 |}.

Definition start_le (a b : IPRange) : Prop := StartIP a ≤ StartIP b.

#[global] Instance start_le_dec : RelDecision start_le.
Proof. intros a b. unfold start_le. apply _. Defined.

#[global] Instance start_le_total : Total start_le.
Proof. intros a b. unfold start_le. lia. Qed.

#[global] Instance sort_slice : SortSlice :=
  {| sort_by_start := merge_sort start_le;
     sort_by_start_perm := merge_sort_Permutation start_le;
     sort_by_start_sorted := λ rs, Sorted_merge_sort start_le rs |}.

End Reference.

(** ** Invariants of the engines *)

(** The entry a lookup of [ipNum] over [rs] produces, by linear scan. *)
Definition lookup_entry (rs : list IPRange) (ipNum : Z) : cacheEntry :=
  match linear_scan rs ipNum with
  | Some r => {| ip := ipNum; country := Country r; code := Code r; found := true |}
  | None => {| ip := ipNum; country := EmptyString; code := EmptyString; found := false |}
  end.

(** Every cached entry is the one a lookup over [rs] produces. *)
Definition cache_coherent (rs : list IPRange) (c : lruCache) : Prop :=
  cache_all (λ k v, v = lookup_entry rs k) c.

(** The entry a probe of the exact map produces. *)
Definition exact_entry (m : gmap Z string) (ipNum : Z) : cacheEntry :=
  match m !! ipNum with
  | Some c => {| ip := ipNum; country := c; code := c; found := true |}
  | None => {| ip := ipNum; country := EmptyString; code := EmptyString; found := false |}
  end.

(** What a lookup returns for the outcome of the reference scan. *)
Definition lookup_result_of (o : option IPRange) (res : string * string * option error)
  : Prop :=
  match o with
  | Some r => res = (Country r, Code r, None)
  | None =>
      res = (EmptyString, EmptyString, Some ErrNotFound)
      ∨ res = (EmptyString, EmptyString, Some ErrNotFoundCached)
  end.

(** Two consecutive lookups of the address [ipNum] returning [r1] then
    [r2], the cache being [c0] before, [c1] between and [c2] after them:
    the results agree, the second lookup is a cache hit, and when the
    address was neither cached nor matched the first lookup is a counted
    miss that records a negative entry. *)
Definition served_twice (r1 r2 : string * option error) (c0 c1 c2 : lruCache)
    (ipNum : Z) (unmatched : Prop) : Prop :=
  r2.1 = r1.1
  ∧ (r2.2 = None ↔ r1.2 = None)
  ∧ (r1.2 ≠ None →
       (r1.2 = Some ErrNotFound ∨ r1.2 = Some ErrNotFoundCached)
       ∧ r2.2 = Some ErrNotFoundCached)
  ∧ hits c2 = atomic_AddInt64 (hits c1) 1
  ∧ (- 2 ^ 63 ≤ hits c1 < 2 ^ 63 - 1 → hits c2 = hits c1 + 1)
  ∧ misses c2 = misses c1
  ∧ (items c0 !! ipNum = None → unmatched →
       r1 = (EmptyString, Some ErrNotFound)
       ∧ misses c1 = atomic_AddInt64 (misses c0) 1
       ∧ (- 2 ^ 63 ≤ misses c0 < 2 ^ 63 - 1 → misses c1 = misses c0 + 1)
       ∧ hits c1 = hits c0
       ∧ (get c1 ipNum).2
         = ({| ip := ipNum; country := EmptyString; code := EmptyString; found := false |}, true)
       ∧ r2 = (EmptyString, Some ErrNotFoundCached)).

(** The invariant of a range engine between two calls. *)
Record db_inv (db : RangeEngine.IPCountryDB) : Prop := {
  inv_mu : RangeEngine.mu db = Unlocked;
  inv_wf : cache_wf (RangeEngine.cache db);
  inv_coherent : cache_coherent (RangeEngine.ranges db) (RangeEngine.cache db);
  inv_sorted : sorted_by_start (RangeEngine.ranges db);
  inv_disjoint : non_overlapping (RangeEngine.ranges db);
  inv_mirror : ∀ r, r ∈ RangeEngine.ranges db → range_ok r ∧ Country r = Code r;
  inv_uninit : RangeEngine.initialized db ≠ 1 →
               RangeEngine.ranges db = [] ∧ items (RangeEngine.cache db) = ∅
}.

(** The invariant of an exact engine between two calls. *)
Record map_inv (m : ExactEngine.ExactIPCountryMap) : Prop := {
  minv_mu : ExactEngine.mu m = Unlocked;
  minv_wf : cache_wf (ExactEngine.cache m);
  minv_coherent :
    cache_all (λ k v, v = exact_entry (ExactEngine.ipMap m) k) (ExactEngine.cache m);
  minv_uninit : ExactEngine.initialized m ≠ 1 → items (ExactEngine.cache m) = ∅
}.

(** States of a range engine reachable through its exported methods, each
    call running to its end before the next. *)
Inductive reachable `{!GoText} `{!SortSlice} : RangeEngine.IPCountryDB → Prop :=
  | reach_New path cfgs :
      reachable (RangeEngine.NewIPCountryDB path cfgs)
  | reach_GetCountry db ctx w ipStr r db' :
      reachable db →
      RangeEngine.GetCountryWithContext ctx w ipStr db = Done r db' →
      reachable db'
  | reach_GetCountryCode db ctx w ipStr r db' :
      reachable db →
      RangeEngine.GetCountryCodeWithContext ctx w ipStr db = Done r db' →
      reachable db'
  | reach_Stats db r db' :
      reachable db →
      RangeEngine.GetStats db = Done r db' →
      reachable db'
  | reach_Reload db ctx w r db' :
      reachable db →
      RangeEngine.ReloadWithContext ctx w db = Done r db' →
      reachable db'.

(** States of an exact engine reachable through its exported methods. *)
Inductive mreachable `{!GoText} : ExactEngine.ExactIPCountryMap → Prop :=
  | mreach_New path cfgs :
      mreachable (ExactEngine.NewExactIPCountryMap path cfgs)
  | mreach_GetCountry m ctx w ipStr r m' :
      mreachable m →
      ExactEngine.GetCountryWithContext ctx w ipStr m = Done r m' →
      mreachable m'
  | mreach_GetCountryCode m ctx w ipStr r m' :
      mreachable m →
      ExactEngine.GetCountryCodeWithContext ctx w ipStr m = Done r m' →
      mreachable m'
  | mreach_Stats m r m' :
      mreachable m →
      ExactEngine.GetStats m = Done r m' →
      mreachable m'
  | mreach_GetParseErrors m r m' :
      mreachable m →
      ExactEngine.GetParseErrors m = Done r m' →
      mreachable m'
  | mreach_Reload m ctx w r m' :
      mreachable m →
      ExactEngine.ReloadWithContext ctx w m = Done r m' →
      mreachable m'.

(** ** The engines as functions of their state *)

(** A relation holds between every element of a list and its successor. *)
Definition adjacent {A} (R : relation A) (l : list A) : Prop :=
  ∀ (i : nat) a b, l !! i = Some a → l !! S i = Some b → R a b.

(** Strictly ascending starts. *)
Definition start_lt (a b : IPRange) : Prop := StartIP a < StartIP b.

(** What a load attempt computes from the file: the sorted, validated
    ranges and their statistics, or the error of the failing step. *)
Definition load_result `{!GoText} `{!SortSlice} (db : RangeEngine.IPCountryDB)
    (ctx : Context) (w : World) : result (list IPRange * Stats) :=
  match RangeEngine.parseFileWithContext db ctx w (RangeEngine.filePath db) with
  | Failed err => Failed err
  | Ok res =>
      match validateRanges (sort_by_start (Ranges res)) with
      | Some err => Failed (ErrRangeValidation err)
      | None =>
          Ok (sort_by_start (Ranges res),
              mkStats (clock_now w) (clock_loaded w - clock_start w)
                (FileSize (PStats res)) (CacheHits (PStats res))
                (CacheMisses (PStats res)) (TotalRanges (PStats res)))
      end
  end.

(** The range engine's findCountryForIP as a function of the state: its
    results and the cache it leaves. *)
Definition find_pure (ipNum : Z) (db : RangeEngine.IPCountryDB)
  : (string * string * option error) * lruCache :=
  match items (RangeEngine.cache db) !! ipNum with
  | Some e =>
      (if negb (found (value (deref (RangeEngine.cache db) e)))
       then (EmptyString, EmptyString, Some ErrNotFoundCached)
       else (country (value (deref (RangeEngine.cache db) e)),
             code (value (deref (RangeEngine.cache db) e)), None),
       (get (RangeEngine.cache db) ipNum).1)
  | None =>
      (match range_search (RangeEngine.ranges db) ipNum with
       | Some r => (Country r, Code r, None)
       | None => (EmptyString, EmptyString, Some ErrNotFound)
       end,
       put (get (RangeEngine.cache db) ipNum).1 ipNum
         (match range_search (RangeEngine.ranges db) ipNum with
          | Some r => {| ip := ipNum; country := Country r; code := Code r;
                         found := true |}
          | None => {| ip := ipNum; country := EmptyString; code := EmptyString; found := false |}
          end))
  end.

(** The exact engine's findCountryForIP as a function of the state. *)
Definition exact_find_pure (ipNum : Z) (m : ExactEngine.ExactIPCountryMap)
  : (string * string * option error) * lruCache :=
  match items (ExactEngine.cache m) !! ipNum with
  | Some e =>
      (if negb (found (value (deref (ExactEngine.cache m) e)))
       then (EmptyString, EmptyString, Some ErrNotFoundCached)
       else (country (value (deref (ExactEngine.cache m) e)),
             code (value (deref (ExactEngine.cache m) e)), None),
       (get (ExactEngine.cache m) ipNum).1)
  | None =>
      (match ExactEngine.ipMap m !! ipNum with
       | Some c => (c, c, None)
       | None => (EmptyString, EmptyString, Some ErrNotFound)
       end,
       put (get (ExactEngine.cache m) ipNum).1 ipNum
         (exact_entry (ExactEngine.ipMap m) ipNum))
  end.

(** The fields a load attempt does not write. *)
Definition same_frame (m m' : ExactEngine.ExactIPCountryMap) : Prop :=
  ExactEngine.mu m' = ExactEngine.mu m
  ∧ ExactEngine.initialized m' = ExactEngine.initialized m
  ∧ ExactEngine.initErr m' = ExactEngine.initErr m
  ∧ ExactEngine.config m' = ExactEngine.config m
  ∧ ExactEngine.filePath m' = ExactEngine.filePath m
  ∧ ExactEngine.cache m' = ExactEngine.cache m.

(** The data set of the README: [1.0.0.0-1.0.0.255=AU],
    [1.0.1.0-1.0.3.255=CN], [8.8.8.0-8.8.8.255=US]. *)
Definition example_file : File :=
  {| file_stat := Ok 64;
     file_lines := ["1.0.0.0,1.0.0.255,AU"; "1.0.1.0,1.0.3.255,CN"; "8.8.8.0,8.8.8.255,US"];
     file_scan_err := None |}.

Definition example_world : World :=
  {| os_Open := λ _, Ok example_file; clock_start := 0; clock_loaded := 1; clock_now := 2 |}.

(** An exact-match data file. *)
Definition example_exact_file : File :=
  {| file_stat := Ok 22;
     file_lines := ["1.1.1.1,US"; "8.8.8.8,AU"];
     file_scan_err := None |}.

Definition example_exact_world : World :=
  {| os_Open := λ _, Ok example_exact_file;
     clock_start := 0; clock_loaded := 1; clock_now := 2 |}.

(** The data file does not exist. *)
Definition missing_world : World :=
  {| os_Open := λ _, Failed (ErrOS "open ip_to_country.csv: no such file or directory");
     clock_start := 0; clock_loaded := 1; clock_now := 2 |}.


(** An exact-match file whose third line is longer than the scanner's
    buffer: [scanner.Scan] yields two lines and then fails. *)
Definition truncated_world : World :=
  {| os_Open := λ _, Ok {| file_stat := Ok 70000;
                           file_lines := ["1.1.1.1,US"; "8.8.8.8,AU"];
                           file_scan_err := Some (ErrOS "bufio.Scanner: token too long") |};
     clock_start := 0; clock_loaded := 1; clock_now := 2 |}.

(** A context cancelled while the first line is being processed. *)
Definition cancelled_after_first : Context :=
  {| ctx_Done := λ n, (1 <=? n)%nat; ctx_Err := ErrContext "context canceled" |}.

(** A range engine holding the README data set, initialized, with an empty
    cache. *)
Definition example_db : RangeEngine.IPCountryDB :=
  RangeEngine.mkDB
    [mkIPRange "AU" "AU" 16777216 16777471;
     mkIPRange "CN" "CN" 16777472 16778239;
     mkIPRange "US" "US" 134744064 134744319]
    Unlocked 1 None DefaultConfig Stats_zero "ip_to_country.csv" (newLRUCache 1000).

(** ** The cache seen as a recency list *)

(** The bindings of the cache in recency order, most recent first. *)
Definition cache_view (c : lruCache) : list (Z * cacheEntry) :=
  (λ e, (key (deref c e), value (deref c e))) <$> evictList c.

(** The first binding of a key in an association list. *)
Definition assoc (k : Z) (l : list (Z * cacheEntry)) : option cacheEntry :=
  snd <$> List.find (λ p, p.1 =? k) l.

(** The three methods on the recency list and the two counters: a hit
    moves the binding to the front, a put rebinds the key at the front and
    drops the last binding when the key is new and the list is full. *)
Definition recency_step (cap : Z) (s : list (Z * cacheEntry) * Z * Z) (op : cache_op)
  : list (Z * cacheEntry) * Z * Z :=
  let '(l, h, m) := s in
  match op with
  | OpGet k =>
      match assoc k l with
      | Some v => ((k, v) :: filter (λ p, p.1 ≠ k) l, atomic_AddInt64 h 1, m)
      | None => (l, h, atomic_AddInt64 m 1)
      end
  | OpPut k v =>
      match assoc k l with
      | Some _ => ((k, v) :: filter (λ p, p.1 ≠ k) l, h, m)
      | None =>
          ((k, v) :: (if Z.of_nat (length l) >=? cap then removelast l else l), h, m)
      end
  | OpClear => ([], 0, 0)
  end.

(** The number of [get] calls after the last [clear]. *)
Definition gets_since_clear (ops : list cache_op) : nat :=
  foldl (λ n op, match op with OpGet _ => S n | OpPut _ _ => n | OpClear => 0%nat end)
        0%nat ops.


(** The IPv4-mapped form [net.ParseIP] returns for a dotted-decimal
    address: sixteen bytes, [::ffff:a.b.c.d]. *)
Definition ipv4_mapped (a b c d : Z) : list Z :=
  [0; 0; 0; 0; 0; 0; 0; 0; 0; 0; 255; 255; a; b; c; d].

(** A byte. *)
Definition is_byte (x : Z) : Prop := 0 ≤ x < 256.

(** ** Disjointness of a range collection, in any order *)

(** No address belongs to two ranges at different positions. *)
Definition pairwise_disjoint (rs : list IPRange) : Prop :=
  ∀ (i j : nat) a b (ipNum : Z), i ≠ j → rs !! i = Some a → rs !! j = Some b →
    Contains a ipNum = true → Contains b ipNum = false.

(** ** ParseCSVRanges *)

(** [func ParseCSVRanges(filePath string, config ...Config)], returning
    a [ParseResult] or an error.  [os.Stat] is a second view of the file
    system, given as [os_Stat]; the engine value the function builds has
    only its path and configuration set (its cache pointer is nil and the
    parser does not use it). *)
Definition ParseCSVRanges `{!GoText} `{!SortSlice} (os_Stat : string → result Z)
    (w : World) (filePath : string) (config : list Config) : result ParseResult :=
  let cfg := match config with c :: _ => c | [] => DefaultConfig end in
  let parse :=
    RangeEngine.parseFileWithContext
      {| RangeEngine.ranges := []; RangeEngine.mu := Unlocked;
         RangeEngine.initialized := 0; RangeEngine.initErr := None;
         RangeEngine.config := cfg; RangeEngine.stats := Stats_zero;
         RangeEngine.filePath := filePath; RangeEngine.cache := newLRUCache 0 |}
      context_Background w filePath in
  if MaxFileSize cfg >? 0 then
    match os_Stat filePath with
    | Failed err => Failed (ErrFileStats err)
    | Ok size =>
        if size >? MaxFileSize cfg then Failed (ErrFileSize size (MaxFileSize cfg))
        else parse
    end
  else parse.

(** ** Size bounds of a range engine *)

(** What the constructor establishes and every call keeps: a non-empty
    delimiter, a positive cache size that is the capacity of the cache and
    bounds its length, statistics that count the committed ranges, and at
    most [MaxRanges] ranges when that limit is positive. *)
Definition db_bounds (db : RangeEngine.IPCountryDB) : Prop :=
  Delimiter (RangeEngine.config db) ≠ EmptyString
  ∧ 1 ≤ CacheSize (RangeEngine.config db)
  ∧ capacity (RangeEngine.cache db) = CacheSize (RangeEngine.config db)
  ∧ Z.of_nat (length (evictList (RangeEngine.cache db))) ≤ CacheSize (RangeEngine.config db)
  ∧ TotalRanges (RangeEngine.stats db) = Z.of_nat (length (RangeEngine.ranges db))
  ∧ (0 < MaxRanges (RangeEngine.config db) →
       Z.of_nat (length (RangeEngine.ranges db)) ≤ MaxRanges (RangeEngine.config db)).

(** ** Size bounds of an exact engine *)

(** What the constructor establishes and every call keeps: a non-empty
    delimiter, a positive cache size that is the capacity of the cache and
    bounds its length and, once the engine is initialised, statistics that
    count the addresses of the map, at most [MaxRanges] addresses when
    that limit is positive, and no empty code. *)
Definition map_bounds (m : ExactEngine.ExactIPCountryMap) : Prop :=
  Delimiter (ExactEngine.config m) ≠ EmptyString
  ∧ 1 ≤ CacheSize (ExactEngine.config m)
  ∧ capacity (ExactEngine.cache m) = CacheSize (ExactEngine.config m)
  ∧ Z.of_nat (length (evictList (ExactEngine.cache m))) ≤ CacheSize (ExactEngine.config m)
  ∧ (ExactEngine.initialized m = 1 →
       TotalRanges (ExactEngine.stats m) = Z.of_nat (size (ExactEngine.ipMap m))
       ∧ (0 < MaxRanges (ExactEngine.config m) →
            Z.of_nat (size (ExactEngine.ipMap m)) ≤ MaxRanges (ExactEngine.config m))
       ∧ ∀ ipNum c, ExactEngine.ipMap m !! ipNum = Some c → c ≠ EmptyString).

(** * Properties *)

(** ** The recency list *)

Lemma list_Remove_elem_of (e x : nat) (l : list nat) :
  x ∈ list_Remove e l ↔ x ≠ e ∧ x ∈ l.
Proof. unfold list_Remove. by rewrite list_elem_of_filter. Qed.

Lemma list_Remove_NoDup (e : nat) (l : list nat) : NoDup l → NoDup (list_Remove e l).
Proof. apply NoDup_filter. Qed.

Lemma list_Remove_notin (e : nat) (l : list nat) : e ∉ l → list_Remove e l = l.
Proof.
  induction l as [|x l IH]; intros Hn; [done|].
  unfold list_Remove in *. rewrite filter_cons.
  apply not_elem_of_cons in Hn as [Hne Hn].
  destruct (decide (x ≠ e)) as [_|Hc]; [|by destruct Hc].
  by rewrite IH.
Qed.

Lemma list_Remove_perm (e : nat) (l : list nat) :
  NoDup l → e ∈ l → e :: list_Remove e l ≡ₚ l.
Proof.
  induction l as [|x l IH]; intros Hnd Hin; [by apply elem_of_nil in Hin|].
  apply NoDup_cons in Hnd as [Hx Hnd].
  unfold list_Remove in *. rewrite filter_cons.
  destruct (decide (x ≠ e)) as [Hne|Heq].
  - apply elem_of_cons in Hin as [->|Hin]; [done|].
    rewrite Permutation_swap. by rewrite IH.
  - apply dec_stable in Heq as ->.
    fold (list_Remove e l). by rewrite list_Remove_notin.
Qed.

Lemma list_Remove_length (e : nat) (l : list nat) :
  NoDup l → e ∈ l → S (length (list_Remove e l)) = length l.
Proof.
  intros Hnd Hin. change (length (e :: list_Remove e l) = length l).
  by rewrite list_Remove_perm.
Qed.

Lemma list_MoveToFront_perm (e : nat) (l : list nat) :
  NoDup l → list_MoveToFront e l ≡ₚ l.
Proof.
  intros Hnd. unfold list_MoveToFront.
  destruct (bool_decide (e ∉ l)) eqn:Hin; [done|].
  destruct (bool_decide (head l = Some e)); [done|]. simpl.
  apply bool_decide_eq_false in Hin. apply dec_stable in Hin.
  by apply list_Remove_perm.
Qed.

Lemma list_MoveToFront_head (e : nat) (l : list nat) :
  e ∈ l → head (list_MoveToFront e l) = Some e.
Proof.
  intros Hin. unfold list_MoveToFront.
  rewrite (bool_decide_eq_false_2 (e ∉ l)); [|by intros Hc]. simpl.
  destruct (bool_decide (head l = Some e)) eqn:Hh; [|done].
  by apply bool_decide_eq_true in Hh.
Qed.

(** ** Well-formedness of the cache is preserved by every method *)

Lemma deref_heap (c c' : lruCache) (e : nat) :
  heap c' !! e = heap c !! e → deref c' e = deref c e.
Proof. unfold deref. by intros ->. Qed.

(** Reordering the list, and rewriting items of the heap without changing
    their keys, keeps the structure well formed. *)
Lemma cache_wf_reorder (c c' : lruCache) :
  cache_wf c →
  evictList c' ≡ₚ evictList c →
  items c' = items c →
  heap_next c' = heap_next c →
  (∀ e, e ∈ evictList c → is_Some (heap c' !! e) ∧ key (deref c' e) = key (deref c e)) →
  cache_wf c'.
Proof.
  intros [Hnd Hal Hix] Hp Hit Hn Hh. split.
  - by rewrite Hp.
  - intros e He. rewrite Hp in He. rewrite Hn. split; [by apply Hal|by apply Hh].
  - intros k e. rewrite Hit, Hp, Hix. split.
    + intros [He Hk]. split; [done|]. by rewrite (proj2 (Hh e He)).
    + intros [He Hk]. split; [done|]. by rewrite <- (proj2 (Hh e He)).
Qed.

Lemma newLRUCache_wf (n : Z) : cache_wf (newLRUCache n).
Proof.
  split; simpl.
  - constructor.
  - intros e He. by apply elem_of_nil in He.
  - intros k e. rewrite lookup_empty. split; [done|]. intros [He _].
    by apply elem_of_nil in He.
Qed.

Lemma clear_wf (c : lruCache) : cache_wf (clear c).
Proof.
  split; simpl.
  - constructor.
  - intros e He. by apply elem_of_nil in He.
  - intros k e. rewrite lookup_empty. split; [done|]. intros [He _].
    by apply elem_of_nil in He.
Qed.

Lemma get_wf (c : lruCache) (k : Z) : cache_wf c → cache_wf (get c k).1.
Proof.
  intros Hwf. unfold get. destruct (items c !! k) as [e|] eqn:Hk; simpl.
  - apply (cache_wf_reorder c); simpl; try done.
    + apply list_MoveToFront_perm, Hwf.
    + intros e' He'. split; [by apply Hwf|done].
  - apply (cache_wf_reorder c); simpl; try done.
    intros e' He'. split; [by apply Hwf|done].
Qed.

Lemma removeOldest_wf (c : lruCache) : cache_wf c → cache_wf (removeOldest c).
Proof.
  intros Hwf. unfold removeOldest.
  destruct (last (evictList c)) as [e|] eqn:Hl; [|done].
  apply last_Some_elem_of in Hl.
  destruct Hwf as [Hnd Hal Hix]. split; simpl.
  - by apply list_Remove_NoDup.
  - intros x Hx. apply list_Remove_elem_of in Hx as [_ Hx]. by apply Hal.
  - intros k x. unfold deref at 2. simpl. fold (deref c x).
    rewrite list_Remove_elem_of. destruct (decide (key (deref c e) = k)) as [<-|Hne].
    + rewrite lookup_delete_eq. split; [done|]. intros [[Hxe Hx] Hk].
      destruct Hxe. assert (items c !! key (deref c e) = Some x) as H1 by by apply Hix.
      assert (items c !! key (deref c e) = Some e) as H2 by by apply Hix.
      congruence.
    + rewrite lookup_delete_ne by done. rewrite Hix. split.
      * intros [Hx Hk]. split; [|done]. split; [|done]. intros ->. by destruct Hne.
      * intros [[_ Hx] Hk]. done.
Qed.

Lemma put_wf (c : lruCache) (k : Z) (v : cacheEntry) : cache_wf c → cache_wf (put c k v).
Proof.
  intros Hwf. unfold put. destruct (items c !! k) as [e|] eqn:Hk.
  - apply (cache_wf_reorder c); simpl; try done.
    + apply list_MoveToFront_perm, Hwf.
    + intros e' He'. unfold deref. simpl. destruct (decide (e = e')) as [->|Hne].
      * rewrite lookup_insert_eq. split; [by eexists|done].
      * rewrite lookup_insert_ne by done. split; [by apply Hwf|done].
  - set (c1 := if Z.of_nat (length (evictList c)) >=? capacity c
               then removeOldest c else c).
    assert (cache_wf c1) as [Hnd Hal Hix].
    { unfold c1. destruct (_ >=? _); [by apply removeOldest_wf|done]. }
    assert (items c1 !! k = None) as Hk1.
    { unfold c1. destruct (_ >=? _); [|done]. unfold removeOldest.
      destruct (last (evictList c)); [|done]. simpl.
      apply lookup_delete_None. by right. }
    assert (heap_next c1 ∉ evictList c1) as Hfresh.
    { intros Hc. apply Hal in Hc as [Hc _]. lia. }
    split; simpl.
    + by constructor.
    + intros e He. apply elem_of_cons in He as [->|He].
      * rewrite lookup_insert_eq. split; [lia|by eexists].
      * destruct (Hal e He) as [Hlt Hs]. rewrite lookup_insert_ne by lia.
        split; [lia|done].
    + intros k' e. unfold deref. simpl. rewrite elem_of_cons.
      destruct (decide (e = heap_next c1)) as [->|Hne].
      * rewrite lookup_insert_eq. simpl. destruct (decide (k = k')) as [->|Hkk].
        -- rewrite lookup_insert_eq. split; [by auto|done].
        -- rewrite lookup_insert_ne by done. split.
           ++ intros Hc. apply Hix in Hc as [Hc _]. done.
           ++ intros [_ Hc]. done.
      * rewrite (lookup_insert_ne (heap c1)) by done. fold (deref c1 e).
        destruct (decide (k = k')) as [->|Hkk].
        -- rewrite lookup_insert_eq. split; [congruence|].
           intros [[Hc|He] Hke]; [done|].
           assert (items c1 !! k' = Some e) as Hc by by apply Hix. congruence.
        -- rewrite lookup_insert_ne by done. rewrite Hix. split.
           ++ intros [He Hke]. by auto.
           ++ intros [[Hc|He] Hke]; done.
Qed.

Lemma cache_step_wf (c : lruCache) (op : cache_op) : cache_wf c → cache_wf (cache_step c op).
Proof.
  destruct op; simpl; auto using get_wf, put_wf, clear_wf.
Qed.

Lemma cache_run_wf (ops : list cache_op) (c : lruCache) :
  cache_wf c → cache_wf (cache_run c ops).
Proof.
  revert c. induction ops as [|op ops IH]; intros c Hwf; [done|].
  simpl. apply IH. by apply cache_step_wf.
Qed.

(** ** What the cache returns *)

Lemma get_hit (c : lruCache) (k : Z) (e : nat) :
  items c !! k = Some e → (get c k).2 = (value (deref c e), true).
Proof. intros H. unfold get. by rewrite H. Qed.

Lemma get_miss (c : lruCache) (k : Z) :
  items c !! k = None → (get c k).2 = (cacheEntry_zero, false).
Proof. intros H. unfold get. by rewrite H. Qed.

Lemma get_items (c : lruCache) (k : Z) : items (get c k).1 = items c.
Proof. unfold get. by destruct (items c !! k). Qed.

Lemma get_heap (c : lruCache) (k : Z) : heap (get c k).1 = heap c.
Proof. unfold get. by destruct (items c !! k). Qed.

Lemma get_capacity (c : lruCache) (k : Z) : capacity (get c k).1 = capacity c.
Proof. unfold get. by destruct (items c !! k). Qed.

Lemma put_capacity (c : lruCache) (k : Z) (v : cacheEntry) :
  capacity (put c k v) = capacity c.
Proof.
  unfold put, removeOldest. destruct (items c !! k); [done|]. simpl.
  destruct (_ >=? _); [|done]. by destruct (last (evictList c)).
Qed.

Lemma put_counters (c : lruCache) (k : Z) (v : cacheEntry) :
  hits (put c k v) = hits c ∧ misses (put c k v) = misses c.
Proof.
  unfold put, removeOldest. destruct (items c !! k); [done|]. simpl.
  destruct (_ >=? _); [|done]. by destruct (last (evictList c)).
Qed.

(** After [put k v] the key is present and bound to [v], whatever the
    capacity. *)
Lemma put_lookup (c : lruCache) (k : Z) (v : cacheEntry) :
  ∃ e, items (put c k v) !! k = Some e ∧ value (deref (put c k v) e) = v.
Proof.
  unfold put. destruct (items c !! k) as [e|] eqn:Hk.
  - exists e. simpl. split; [done|]. unfold deref. simpl. by rewrite lookup_insert_eq.
  - eexists. simpl. rewrite lookup_insert_eq. split; [done|].
    unfold deref. simpl. by rewrite lookup_insert_eq.
Qed.

Lemma put_get (c : lruCache) (k : Z) (v : cacheEntry) :
  (get (put c k v) k).2 = (v, true).
Proof.
  destruct (put_lookup c k v) as (e & He & Hv). by rewrite (get_hit _ _ e), Hv.
Qed.

(** ** Properties of all cached entries *)

Lemma cache_all_new (P : Z → cacheEntry → Prop) (n : Z) : cache_all P (newLRUCache n).
Proof. intros k e. simpl. by rewrite lookup_empty. Qed.

Lemma cache_all_clear (P : Z → cacheEntry → Prop) (c : lruCache) : cache_all P (clear c).
Proof. intros k e. simpl. by rewrite lookup_empty. Qed.

Lemma cache_all_get (P : Z → cacheEntry → Prop) (c : lruCache) (k : Z) :
  cache_all P c → cache_all P (get c k).1.
Proof.
  intros Hc k' e. rewrite get_items. intros He.
  rewrite (deref_heap c (get c k).1) by (by rewrite get_heap). by apply Hc.
Qed.

Lemma cache_all_removeOldest (P : Z → cacheEntry → Prop) (c : lruCache) :
  cache_all P c → cache_all P (removeOldest c).
Proof.
  intros Hc. unfold removeOldest. destruct (last (evictList c)); [|done].
  intros k e. simpl. intros He. apply lookup_delete_Some in He as [_ He].
  by apply Hc in He.
Qed.

Lemma cache_all_put (P : Z → cacheEntry → Prop) (c : lruCache) (k : Z) (v : cacheEntry) :
  cache_wf c → cache_all P c → P k v → cache_all P (put c k v).
Proof.
  intros Hwf Hc Hv. unfold put. destruct (items c !! k) as [e|] eqn:Hk.
  - intros k' e'. simpl. intros He'. unfold deref. simpl.
    destruct (decide (e = e')) as [->|Hne].
    + rewrite lookup_insert_eq. simpl.
      apply (wf_index c Hwf) in Hk as [_ Hk]. apply (wf_index c Hwf) in He' as [_ He'].
      by rewrite <- He', Hk.
    + rewrite lookup_insert_ne by done. by apply Hc.
  - set (c1 := if Z.of_nat (length (evictList c)) >=? capacity c
               then removeOldest c else c).
    assert (cache_wf c1) as Hwf1.
    { unfold c1. destruct (_ >=? _); [by apply removeOldest_wf|done]. }
    assert (cache_all P c1) as Hc1.
    { unfold c1. destruct (_ >=? _); [by apply cache_all_removeOldest|done]. }
    intros k' e'. simpl. unfold deref. simpl. destruct (decide (k = k')) as [->|Hkk].
    + rewrite lookup_insert_eq. intros [= <-]. by rewrite lookup_insert_eq.
    + rewrite lookup_insert_ne by done. intros He'.
      assert (e' ≠ heap_next c1).
      { apply (wf_index c1 Hwf1) in He' as [He' _].
        apply (wf_alloc c1 Hwf1) in He' as [He' _]. lia. }
      rewrite lookup_insert_ne by done. by apply Hc1.
Qed.

(** ** Size of the cache *)

Lemma get_length (c : lruCache) (k : Z) :
  cache_wf c → length (evictList (get c k).1) = length (evictList c).
Proof.
  intros Hwf. unfold get. destruct (items c !! k); [|done]. simpl.
  by rewrite list_MoveToFront_perm by apply Hwf.
Qed.

Lemma removeOldest_length (c : lruCache) :
  cache_wf c → evictList c ≠ [] →
  S (length (evictList (removeOldest c))) = length (evictList c).
Proof.
  intros Hwf Hne. unfold removeOldest.
  destruct (last (evictList c)) as [e|] eqn:Hl.
  - simpl. apply list_Remove_length; [apply Hwf|by apply last_Some_elem_of].
  - by apply last_None in Hl.
Qed.

Lemma put_length_bound (c : lruCache) (k : Z) (v : cacheEntry) :
  cache_wf c → 1 ≤ capacity c →
  Z.of_nat (length (evictList c)) ≤ capacity c →
  Z.of_nat (length (evictList (put c k v))) ≤ capacity c.
Proof.
  intros Hwf Hcap Hlen. unfold put. destruct (items c !! k) as [e|]; simpl.
  - by rewrite list_MoveToFront_perm by apply Hwf.
  - rewrite Nat2Z.inj_succ.
    destruct (_ >=? _) eqn:Hge; rewrite Z.geb_leb in Hge;
      [apply Z.leb_le in Hge|apply Z.leb_gt in Hge; lia].
    assert (evictList c ≠ []) as Hne.
    { intros Hnil. rewrite Hnil in Hge. simpl in Hge. lia. }
    pose proof (removeOldest_length c Hwf Hne). lia.
Qed.

(** The index and the list hold the same keys, each once. *)
Lemma cache_wf_keys (c : lruCache) :
  cache_wf c →
  dom (items c) = list_to_set (list_keys c) ∧ NoDup (list_keys c)
  ∧ size (items c) = length (evictList c).
Proof.
  intros Hwf.
  assert (dom (items c) = list_to_set (list_keys c)) as Hdom.
  { apply set_eq. intros k. rewrite elem_of_dom, elem_of_list_to_set.
    unfold list_keys. rewrite list_elem_of_fmap. split.
    - intros [e He]. apply (wf_index c Hwf) in He as [He Hk]. by exists e.
    - intros (e & -> & He). exists e. by apply (wf_index c Hwf). }
  assert (NoDup (list_keys c)) as Hnd.
  { unfold list_keys. apply NoDup_fmap_2_strong; [|apply Hwf].
    intros x y Hx Hy Heq.
    assert (items c !! key (deref c x) = Some x) as H1 by by apply (wf_index c Hwf).
    assert (items c !! key (deref c x) = Some y) as H2 by by apply (wf_index c Hwf).
    congruence. }
  split; [done|]. split; [done|].
  rewrite <- size_dom, Hdom, size_list_to_set by done.
  unfold list_keys. by rewrite length_fmap.
Qed.

Lemma cache_step_bound (cap : Z) (c : lruCache) (op : cache_op) :
  1 ≤ cap → cache_wf c → capacity c = cap →
  Z.of_nat (length (evictList c)) ≤ cap →
  capacity (cache_step c op) = cap
  ∧ Z.of_nat (length (evictList (cache_step c op))) ≤ cap.
Proof.
  intros Hcap Hwf Hc Hlen. destruct op as [k|k v|]; simpl.
  - by rewrite get_capacity, get_length.
  - rewrite put_capacity. split; [done|]. rewrite <- Hc.
    apply put_length_bound; [done|lia|lia].
  - split; [done|lia].
Qed.

Lemma cache_run_bound (cap : Z) (ops : list cache_op) (c : lruCache) :
  1 ≤ cap → cache_wf c → capacity c = cap →
  Z.of_nat (length (evictList c)) ≤ cap →
  cache_wf (cache_run c ops)
  ∧ capacity (cache_run c ops) = cap
  ∧ Z.of_nat (length (evictList (cache_run c ops))) ≤ cap.
Proof.
  intros Hcap. revert c. induction ops as [|op ops IH]; intros c Hwf Hc Hlen; [done|].
  simpl. destruct (cache_step_bound cap c op) as [Hc' Hlen']; try done.
  apply IH; [by apply cache_step_wf|done|done].
Qed.

Lemma put_other (c : lruCache) (k k' : Z) (v : cacheEntry) :
  cache_wf c → k' ≠ k →
  items c !! k = None → Z.of_nat (length (evictList c)) < capacity c →
  (get (put c k v) k').2 = (get c k').2.
Proof.
  intros Hwf Hne Hk Hlen. unfold put. rewrite Hk.
  destruct (_ >=? _) eqn:Hge; rewrite Z.geb_leb in Hge;
    [apply Z.leb_le in Hge; lia|clear Hge].
  unfold get at 1. simpl. rewrite lookup_insert_ne by done.
  destruct (items c !! k') as [e'|] eqn:Hk'.
  - rewrite (get_hit c k' e') by done. simpl. unfold deref. simpl.
    rewrite lookup_insert_ne; [done|].
    apply (wf_index c Hwf) in Hk' as [Hk' _]. apply (wf_alloc c Hwf) in Hk' as [Hk' _]. lia.
  - by rewrite get_miss.
Qed.

(** ** Claims about the LRU cache *)

(** C10. For every cache constructed with a capacity [cap >= 1], after
    any finite sequence of [get], [put] and [clear] calls the recency list
    and the index hold at most [cap] entries, and the index and the list
    hold exactly the same set of keys (each key once in the list). *)
Theorem lru_cache_invariant (cap : Z) (ops : list cache_op) :
  1 ≤ cap →
  let c := cache_run (newLRUCache cap) ops in
  Z.of_nat (length (evictList c)) ≤ cap
  ∧ Z.of_nat (size (items c)) ≤ cap
  ∧ dom (items c) = list_to_set (list_keys c)
  ∧ NoDup (list_keys c).
Proof.
  intros Hcap c.
  destruct (cache_run_bound cap ops (newLRUCache cap)) as (Hwf & _ & Hlen);
    [done|apply newLRUCache_wf|done|simpl; lia|].
  destruct (cache_wf_keys _ Hwf) as (Hdom & Hnd & Hsize).
  fold c in Hlen, Hdom, Hnd, Hsize. rewrite Hsize. done.
Qed.

Lemma lru_cache_invariant_witness :
  1 ≤ 2 ∧
  let c := cache_run (newLRUCache 2)
             [OpPut 10 cacheEntry_zero; OpPut 20 cacheEntry_zero; OpGet 10;
              OpPut 30 cacheEntry_zero; OpClear; OpPut 40 cacheEntry_zero] in
  Z.of_nat (length (evictList c)) ≤ 2
  ∧ Z.of_nat (size (items c)) ≤ 2
  ∧ dom (items c) = list_to_set (list_keys c)
  ∧ NoDup (list_keys c).
Proof.
  split; [lia|]. apply (lru_cache_invariant 2); lia.
Defined.

(** C6. [put] of a key that is present rebinds it to the new value and
    makes its element the front of the recency list, without changing the
    index, the length of the list or any other binding; [put] of an absent
    key into a full cache removes exactly the element at the back of the
    list (the least recently used) and its key, and binds the new key at
    the front; with capacity 2, after [put A], [put B], [put C] the key
    [A] misses while [B] and [C] hit. *)
Theorem lru_put_evict (c : lruCache) (k : Z) (v : cacheEntry) :
  cache_wf c → 1 ≤ capacity c →
  (∀ e, items c !! k = Some e →
     (get (put c k v) k).2 = (v, true)
     ∧ head (evictList (put c k v)) = Some e
     ∧ items (put c k v) = items c
     ∧ length (evictList (put c k v)) = length (evictList c)
     ∧ ∀ k', k' ≠ k → (get (put c k v) k').2 = (get c k').2)
  ∧ (∀ oldest, items c !! k = None →
     Z.of_nat (length (evictList c)) = capacity c →
     last (evictList c) = Some oldest →
     items c !! key (deref c oldest) = Some oldest
     ∧ items (put c k v) = <[k := heap_next c]> (delete (key (deref c oldest)) (items c))
     ∧ evictList (put c k v) = heap_next c :: list_Remove oldest (evictList c)
     ∧ length (evictList (put c k v)) = length (evictList c)
     ∧ (get (put c k v) (key (deref c oldest))).2 = (cacheEntry_zero, false)
     ∧ (get (put c k v) k).2 = (v, true)
     ∧ ∀ k', k' ≠ k → k' ≠ key (deref c oldest) →
         (get (put c k v) k').2 = (get c k').2)
  ∧ (∀ A B C eA eB eC, A ≠ B → A ≠ C → B ≠ C →
     let c3 := put (put (put (newLRUCache 2) A eA) B eB) C eC in
     (get c3 A).2 = (cacheEntry_zero, false)
     ∧ (get (get c3 A).1 B).2 = (eB, true)
     ∧ (get (get (get c3 A).1 B).1 C).2 = (eC, true)).
Proof.
  intros Hwf Hcap. split; [|split].
  - intros e Hk. split; [apply put_get|].
    assert (e ∈ evictList c) as He by by apply (wf_index c Hwf) in Hk as [? _].
    unfold put. rewrite Hk. simpl.
    split; [by apply list_MoveToFront_head|]. split; [done|].
    split; [by rewrite list_MoveToFront_perm by apply Hwf|].
    intros k' Hne. unfold get. simpl. destruct (items c !! k') as [e'|] eqn:Hk'; [|done].
    simpl. unfold deref. simpl. rewrite lookup_insert_ne; [done|].
    intros ->. apply (wf_index c Hwf) in Hk as [_ Hk].
    apply (wf_index c Hwf) in Hk' as [_ Hk']. congruence.
  - intros oldest Hk Hlen Hlast.
    assert (oldest ∈ evictList c) as Hin by by apply last_Some_elem_of.
    assert (items c !! key (deref c oldest) = Some oldest) as Hold
      by by apply (wf_index c Hwf).
    assert (k ≠ key (deref c oldest)) as Hkne by congruence.
    split; [done|]. split; [|split; [|split; [|split; [|split; [apply put_get|]]]]].
    + unfold put, removeOldest. rewrite Hk, Hlast.
      by rewrite (proj2 (Z.geb_le _ _)) by lia.
    + unfold put, removeOldest. rewrite Hk, Hlast.
      by rewrite (proj2 (Z.geb_le _ _)) by lia.
    + unfold put, removeOldest. rewrite Hk, Hlast.
      rewrite (proj2 (Z.geb_le _ _)) by lia. simpl.
      apply list_Remove_length; [apply Hwf|done].
    + apply get_miss. unfold put, removeOldest. rewrite Hk, Hlast.
      rewrite (proj2 (Z.geb_le _ _)) by lia. simpl.
      rewrite lookup_insert_ne by done. apply lookup_delete_eq.
    + intros k' Hk1 Hk2. unfold put, removeOldest. rewrite Hk, Hlast.
      rewrite (proj2 (Z.geb_le _ _)) by lia. unfold get at 1. simpl.
      rewrite lookup_insert_ne by done. rewrite lookup_delete_ne by done.
      destruct (items c !! k') as [e'|] eqn:Hk'.
      * rewrite (get_hit c k' e') by done. simpl. unfold deref. simpl.
        rewrite lookup_insert_ne; [done|].
        apply (wf_index c Hwf) in Hk' as [Hk' _].
        apply (wf_alloc c Hwf) in Hk' as [Hk' _]. lia.
      * by rewrite get_miss.
  - intros A B C eA eB eC HAB HAC HBC c3.
    assert (put (newLRUCache 2) A eA
            = mkLRU 2 {[A := 0%nat]} [0%nat] {[0%nat := mkCacheItem eA A]} 1 0 0) as H1.
    { unfold put. simpl. by rewrite lookup_empty. }
    assert (put (put (newLRUCache 2) A eA) B eB
            = mkLRU 2 (<[B := 1%nat]> {[A := 0%nat]}) [1%nat; 0%nat]
                (<[1%nat := mkCacheItem eB B]> {[0%nat := mkCacheItem eA A]}) 2 0 0) as H2.
    { rewrite H1. unfold put. simpl. by rewrite lookup_singleton_ne. }
    assert (items c3 = <[C := 2%nat]> (delete A (<[B := 1%nat]> {[A := 0%nat]}))
            ∧ heap c3 = <[2%nat := mkCacheItem eC C]>
                (<[1%nat := mkCacheItem eB B]> {[0%nat := mkCacheItem eA A]})) as [Hi Hh].
    { unfold c3. rewrite H2. unfold put. simpl.
      rewrite lookup_insert_ne by done. rewrite lookup_singleton_ne by done.
      simpl. unfold removeOldest, deref. simpl.
      rewrite lookup_insert_ne by done. rewrite lookup_singleton_eq. done. }
    assert (items c3 !! A = None) as HA.
    { rewrite Hi. rewrite lookup_insert_ne by done. apply lookup_delete_eq. }
    assert (items c3 !! B = Some 1%nat) as HB.
    { rewrite Hi. rewrite lookup_insert_ne by done. rewrite lookup_delete_ne by done.
      apply lookup_insert_eq. }
    assert (items c3 !! C = Some 2%nat) as HC.
    { rewrite Hi. apply lookup_insert_eq. }
    split; [by apply get_miss|]. split.
    + rewrite (get_hit _ B 1%nat) by by rewrite get_items.
      unfold deref. rewrite get_heap, Hh.
      rewrite lookup_insert_ne by done. by rewrite lookup_insert_eq.
    + rewrite (get_hit _ C 2%nat) by by rewrite !get_items.
      unfold deref. rewrite !get_heap, Hh. by rewrite lookup_insert_eq.
Qed.

Lemma lru_put_evict_witness :
  let c := put (put (newLRUCache 2) 10 cacheEntry_zero) 20 cacheEntry_zero in
  cache_wf c ∧ 1 ≤ capacity c
  ∧ (get (put c 30 cacheEntry_zero) 10).2 = (cacheEntry_zero, false).
Proof.
  intros c.
  assert (cache_wf c) as Hwf by apply put_wf, put_wf, newLRUCache_wf.
  assert (1 ≤ capacity c) as Hcap by (by vm_compute).
  split; [done|]. split; [done|].
  destruct (lru_put_evict c 30 cacheEntry_zero Hwf Hcap) as (_ & Hnew & _).
  destruct (Hnew 0%nat) as (_ & _ & _ & _ & Hmiss & _); [by vm_compute..|].
  exact Hmiss.
Defined.

(** Recency, not insertion order, decides the eviction: with capacity 2,
    after [put 10], [put 20], [get 10], [put 30] the key 20 is gone and
    the keys 10 and 30 are present. *)
Example lru_get_promotes :
  let c := put (get (put (put (newLRUCache 2) 10 cacheEntry_zero) 20 cacheEntry_zero) 10).1
             30 cacheEntry_zero in
  (get c 20).2 = (cacheEntry_zero, false)
  ∧ (get c 10).2 = (cacheEntry_zero, true)
  ∧ (get c 30).2 = (cacheEntry_zero, true)
  ∧ list_keys c = [30; 10].
Proof. by vm_compute. Qed.

(** ** sort.Search *)

Lemma search_loop_spec (f : nat → bool) (n : nat) :
  (∀ a b, (a ≤ b)%nat → (b < n)%nat → f a = true → f b = true) →
  ∀ fuel i j,
    (i ≤ j)%nat → (j ≤ n)%nat → (j - i ≤ fuel)%nat →
    (∀ k, (k < i)%nat → f k = false) →
    (∀ k, (j ≤ k)%nat → (k < n)%nat → f k = true) →
    (i ≤ search_loop fuel f i j)%nat ∧ (search_loop fuel f i j ≤ j)%nat
    ∧ (∀ k, (k < search_loop fuel f i j)%nat → f k = false)
    ∧ (∀ k, (search_loop fuel f i j ≤ k)%nat → (k < n)%nat → f k = true).
Proof.
  intros Hmono. induction fuel as [|fuel IH]; intros i j Hij Hjn Hfuel Hlo Hhi;
    cbn [search_loop].
  - assert (i = j) as -> by lia. auto.
  - destruct (decide (i < j)%nat) as [Hlt|Hge].
    + set (h := ((i + j) / 2)%nat).
      assert (i ≤ h ∧ h < j)%nat as [Hih Hhj].
      { unfold h. split.
        - apply Nat.div_le_lower_bound; lia.
        - apply Nat.Div0.div_lt_upper_bound; lia. }
      destruct (f h) eqn:Hfh; cbn [negb].
      * destruct (IH i h) as (H1 & H2 & H3 & H4); try lia; try done.
        { intros k Hk Hkn. apply (Hmono h k); [lia|done|done]. }
        repeat split; try done; lia.
      * destruct (IH (h + 1)%nat j) as (H1 & H2 & H3 & H4); try lia; try done.
        { intros k Hk. destruct (f k) eqn:Hfk; [|done].
          rewrite (Hmono k h) in Hfh; [done|lia|lia|done]. }
        repeat split; try done; lia.
    + assert (i = j) as -> by lia. auto.
Qed.

Lemma sort_Search_spec (f : nat → bool) (n : nat) :
  (∀ a b, (a ≤ b)%nat → (b < n)%nat → f a = true → f b = true) →
  (sort_Search n f ≤ n)%nat
  ∧ (∀ k, (k < sort_Search n f)%nat → f k = false)
  ∧ (∀ k, (sort_Search n f ≤ k)%nat → (k < n)%nat → f k = true).
Proof.
  intros Hmono. unfold sort_Search.
  destruct (search_loop_spec f n Hmono n 0%nat n) as (_ & H2 & H3 & H4);
    try lia; try done; intros; lia.
Qed.

(** The closure is only evaluated inside the slice, where indexing does
    not panic. *)
Lemma search_loop_ext (f g : nat → bool) (n fuel i j : nat) :
  (j ≤ n)%nat → (∀ h, (h < n)%nat → f h = g h) →
  search_loop fuel f i j = search_loop fuel g i j.
Proof.
  intros Hjn Hfg. revert i j Hjn. induction fuel as [|fuel IH]; intros i j Hjn; [done|].
  cbn [search_loop]. destruct (decide (i < j)%nat) as [Hlt|]; [|done].
  assert ((i + j) / 2 < j)%nat as Hh by (apply Nat.Div0.div_lt_upper_bound; lia).
  rewrite <- (Hfg ((i + j) / 2)%nat) by lia.
  destruct (f _); cbn [negb]; apply IH; lia.
Qed.

(** ** Binary search over sorted, non-overlapping ranges *)

Lemma sorted_by_start_le (rs : list IPRange) (i j : nat) (a b : IPRange) :
  sorted_by_start rs → (i ≤ j)%nat →
  rs !! i = Some a → rs !! j = Some b → StartIP a ≤ StartIP b.
Proof.
  intros Hs Hij Ha. revert b. induction Hij as [|j Hij IH]; intros b Hb.
  - assert (a = b) by congruence. subst. lia.
  - destruct (rs !! j) as [c|] eqn:Hc.
    + specialize (IH c eq_refl). specialize (Hs j c b Hc Hb). lia.
    + apply lookup_ge_None in Hc. apply lookup_lt_Some in Hb. lia.
Qed.

Lemma non_overlapping_lt (rs : list IPRange) (i j : nat) (a b : IPRange) :
  sorted_by_start rs → non_overlapping rs → (i < j)%nat →
  rs !! i = Some a → rs !! j = Some b → EndIP a < StartIP b.
Proof.
  intros Hs Hn Hij Ha Hb.
  destruct (rs !! S i) as [c|] eqn:Hc.
  - specialize (Hn i a c Ha Hc).
    pose proof (sorted_by_start_le rs (S i) j c b Hs Hij Hc Hb). lia.
  - apply lookup_ge_None in Hc. apply lookup_lt_Some in Hb. lia.
Qed.

Lemma Contains_spec (r : IPRange) (ipNum : Z) :
  Contains r ipNum = true ↔ StartIP r ≤ ipNum ≤ EndIP r.
Proof. unfold Contains. rewrite andb_true_iff, !Z.leb_le. done. Qed.

(** At most one range of a sorted, non-overlapping collection contains a
    given address. *)
Lemma Contains_unique (rs : list IPRange) (ipNum : Z) (i j : nat) (a b : IPRange) :
  sorted_by_start rs → non_overlapping rs →
  rs !! i = Some a → rs !! j = Some b →
  Contains a ipNum = true → Contains b ipNum = true → i = j.
Proof.
  intros Hs Hn Ha Hb Hca Hcb. apply Contains_spec in Hca, Hcb.
  destruct (Nat.lt_trichotomy i j) as [Hlt|[->|Hgt]]; [|done|].
  - pose proof (non_overlapping_lt rs i j a b Hs Hn Hlt Ha Hb). lia.
  - pose proof (non_overlapping_lt rs j i b a Hs Hn Hgt Hb Ha). lia.
Qed.

Lemma linear_scan_Some (rs : list IPRange) (ipNum : Z) (r : IPRange) :
  linear_scan rs ipNum = Some r → r ∈ rs ∧ Contains r ipNum = true.
Proof.
  unfold linear_scan. intros H. apply find_some in H as [Hin Hc].
  split; [by apply list_elem_of_In|done].
Qed.

Lemma linear_scan_None (rs : list IPRange) (ipNum : Z) :
  linear_scan rs ipNum = None ↔ ∀ r, r ∈ rs → Contains r ipNum = false.
Proof.
  unfold linear_scan. split.
  - intros H r Hr. apply (find_none _ _ H). by apply list_elem_of_In.
  - intros H. destruct (find _ rs) as [r|] eqn:Hf; [|done].
    apply find_some in Hf as [Hin Hc]. apply list_elem_of_In in Hin.
    rewrite (H r Hin) in Hc. done.
Qed.

(** The index [sort.Search] returns: every range before it starts at or
    below the address, every range from it on starts above. *)
Lemma search_index_spec (rs : list IPRange) (ipNum : Z) :
  sorted_by_start rs →
  let idx := sort_Search (length rs) (λ i, StartIP (rs !!! i) >? ipNum) in
  (idx ≤ length rs)%nat
  ∧ (∀ k r, (k < idx)%nat → rs !! k = Some r → StartIP r ≤ ipNum)
  ∧ (∀ k r, (idx ≤ k)%nat → rs !! k = Some r → ipNum < StartIP r).
Proof.
  intros Hs idx.
  destruct (sort_Search_spec (λ i, StartIP (rs !!! i) >? ipNum) (length rs))
    as (H1 & H2 & H3).
  { intros a b Hab Hb. simpl.
    assert (rs !! a = Some (rs !!! a)) as Ha' by (apply list_lookup_lookup_total_lt; lia).
    assert (rs !! b = Some (rs !!! b)) as Hb' by (by apply list_lookup_lookup_total_lt).
    pose proof (sorted_by_start_le rs a b _ _ Hs Hab Ha' Hb').
    rewrite !Z.gtb_ltb, !Z.ltb_lt. lia. }
  fold idx in H1, H2, H3. split; [done|]. split.
  - intros k r Hk Hr. specialize (H2 k Hk). simpl in H2.
    rewrite (list_lookup_total_correct _ _ _ Hr) in H2.
    rewrite Z.gtb_ltb in H2. apply Z.ltb_ge in H2. done.
  - intros k r Hk Hr. specialize (H3 k Hk (lookup_lt_Some _ _ _ Hr)). simpl in H3.
    rewrite (list_lookup_total_correct _ _ _ Hr) in H3.
    rewrite Z.gtb_ltb in H3. by apply Z.ltb_lt in H3.
Qed.

(** The search agrees with the linear scan. *)
Lemma range_search_linear (rs : list IPRange) (ipNum : Z) :
  sorted_by_start rs → non_overlapping rs →
  range_search rs ipNum = linear_scan rs ipNum.
Proof.
  intros Hs Hn. unfold range_search.
  destruct (search_index_spec rs ipNum Hs) as (Hidx & Hlo & Hhi).
  set (idx := sort_Search (length rs) (λ i, StartIP (rs !!! i) >? ipNum)) in *.
  destruct (linear_scan rs ipNum) as [x|] eqn:Hscan.
  - apply linear_scan_Some in Hscan as [Hin Hc].
    apply list_elem_of_lookup in Hin as [p Hp].
    pose proof (proj1 (Contains_spec _ _) Hc) as [Hc1 Hc2].
    assert (p < idx)%nat as Hpi.
    { destruct (decide (p < idx)%nat); [done|].
      specialize (Hhi p x ltac:(lia) Hp). lia. }
    assert (rs !! (idx - 1)%nat = Some (rs !!! (idx - 1)%nat)) as Hlast
      by (apply list_lookup_lookup_total_lt; lia).
    assert (p = (idx - 1)%nat) as ->.
    { destruct (decide (p = idx - 1)%nat); [done|].
      pose proof (non_overlapping_lt rs p (idx - 1) _ _ Hs Hn ltac:(lia) Hp Hlast).
      specialize (Hlo (idx - 1)%nat _ ltac:(lia) Hlast). lia. }
    rewrite (list_lookup_total_correct _ _ _ Hp), Hc.
    by rewrite (proj2 (Nat.ltb_lt 0 idx)) by lia.
  - destruct (0 <? idx)%nat eqn:Hpos; [|done]. apply Nat.ltb_lt in Hpos. simpl.
    assert (rs !! (idx - 1)%nat = Some (rs !!! (idx - 1)%nat)) as Hlast
      by (apply list_lookup_lookup_total_lt; lia).
    rewrite (proj1 (linear_scan_None rs ipNum) Hscan); [done|].
    by apply list_elem_of_lookup_2 in Hlast.
Qed.

(** ** The range engine, step by step *)
Section RangeEngineFacts.
Context {go_text : GoText} {go_sort : SortSlice}.
Import RangeEngine.

(** The parsers read only [db.config]. *)
Lemma parseLine_config (db1 db2 : IPCountryDB) (line : string) :
  config db1 = config db2 → parseLine db1 line = parseLine db2 line.
Proof. intros Hc. unfold parseLine. by rewrite Hc. Qed.

Lemma scan_loop_config (db1 db2 : IPCountryDB) (ctx : Context) (lines : list string)
    (lineNum : nat) (rs : list IPRange) (errors : list ParseError) :
  config db1 = config db2 →
  scan_loop db1 ctx lines lineNum rs errors = scan_loop db2 ctx lines lineNum rs errors.
Proof.
  intros Hc. revert lineNum rs errors.
  induction lines as [|text lines IH]; intros lineNum rs errors; [done|].
  cbn [scan_loop]. rewrite Hc, (parseLine_config db1 db2) by done.
  destruct (ctx_Done ctx lineNum); [done|].
  destruct (_ || _); [apply IH|].
  destruct (parseLine db2 _); [|apply IH].
  destruct (_ && _); [done|apply IH].
Qed.

Lemma parseFileWithContext_config (db1 db2 : IPCountryDB) (ctx : Context) (w : World)
    (path : string) :
  config db1 = config db2 →
  parseFileWithContext db1 ctx w path = parseFileWithContext db2 ctx w path.
Proof.
  intros Hc. unfold parseFileWithContext, parseReaderWithContext.
  rewrite Hc. destruct (os_Open w path) as [file|]; [|done].
  destruct (file_stat file); [|done]. destruct (_ && _); [done|].
  by rewrite (scan_loop_config db1 db2).
Qed.

Lemma initializeWithContext_ready (ctx : Context) (w : World) (db : IPCountryDB) :
  initialized db = 1 → initializeWithContext ctx w db = Done (initErr db) db.
Proof.
  intros Hi. unfold initializeWithContext, M_bind, M_gets. by rewrite Hi.
Qed.

Lemma initializeWithContext_blocked (ctx : Context) (w : World) (db : IPCountryDB) :
  initialized db ≠ 1 → mu db ≠ Unlocked → initializeWithContext ctx w db = Blocked db.
Proof.
  intros Hi Hmu. unfold initializeWithContext, M_bind, M_gets.
  rewrite (proj2 (Z.eqb_neq _ _) Hi). unfold mu_Lock, M_acquire.
  by destruct (mu db).
Qed.

Lemma initializeWithContext_load (ctx : Context) (w : World) (db : IPCountryDB) :
  initialized db ≠ 1 → mu db = Unlocked →
  initializeWithContext ctx w db =
    match load_result db ctx w with
    | Failed err => Done (Some err) (set_initErr (Some err) db)
    | Ok (rs, st) => Done None (set_initialized 1 (set_stats st (set_ranges rs db)))
    end.
Proof.
  intros Hi Hmu. unfold initializeWithContext, load_result, M_bind, M_gets.
  rewrite (proj2 (Z.eqb_neq _ _) Hi). unfold mu_Lock, M_acquire. rewrite Hmu. simpl.
  unfold M_defer, load, M_bind, M_gets, M_modify, M_ret, mu_Unlock. simpl.
  rewrite (proj2 (Z.eqb_neq _ _) Hi).
  rewrite (parseFileWithContext_config _ db) by done.
  destruct db as [rs0 mu0 i0 e0 cfg0 st0 fp0 c0]. simpl in *. subst mu0.
  destruct (parseFileWithContext _ ctx w fp0) as [res|err]; [|done].
  by destruct (validateRanges _).
Qed.

(** findCountryForIP, by the state of the cache. *)
Lemma findCountryForIP_hit (ipNum : Z) (db : IPCountryDB) (e : nat) :
  items (cache db) !! ipNum = Some e →
  findCountryForIP ipNum db =
    Done (if negb (found (value (deref (cache db) e)))
          then (EmptyString, EmptyString, Some ErrNotFoundCached)
          else (country (value (deref (cache db) e)),
                code (value (deref (cache db) e)), None))
         (set_cache (get (cache db) ipNum).1 db).
Proof.
  intros Hk. unfold findCountryForIP, M_bind, cache_get.
  rewrite (get_hit _ _ e Hk). simpl. by destruct (found _).
Qed.

Lemma findCountryForIP_miss (ipNum : Z) (db : IPCountryDB) :
  items (cache db) !! ipNum = None →
  findCountryForIP ipNum db =
    Done (match range_search (ranges db) ipNum with
          | Some r => (Country r, Code r, None)
          | None => (EmptyString, EmptyString, Some ErrNotFound)
          end)
         (set_cache (put (get (cache db) ipNum).1 ipNum
                       (match range_search (ranges db) ipNum with
                        | Some r => {| ip := ipNum; country := Country r;
                                       code := Code r; found := true |}
                        | None => {| ip := ipNum; country := EmptyString; code := EmptyString;
                                     found := false |}
                        end)) db).
Proof.
  intros Hk. unfold findCountryForIP, M_bind, cache_get.
  rewrite (get_miss _ _ Hk). simpl. unfold M_gets, range_search. simpl.
  destruct (_ && _); unfold cache_put, M_modify, M_ret; simpl; by destruct db.
Qed.

Lemma findCountryForIP_pure (ipNum : Z) (db : IPCountryDB) :
  findCountryForIP ipNum db
  = Done (find_pure ipNum db).1 (set_cache (find_pure ipNum db).2 db).
Proof.
  unfold find_pure. destruct (items (cache db) !! ipNum) as [e|] eqn:Hk.
  - by rewrite (findCountryForIP_hit ipNum db e).
  - by rewrite findCountryForIP_miss.
Qed.

Lemma find_pure_wf (ipNum : Z) (db : IPCountryDB) :
  cache_wf (cache db) → cache_wf (find_pure ipNum db).2.
Proof.
  intros Hwf. unfold find_pure. destruct (items (cache db) !! ipNum); simpl.
  - by apply get_wf.
  - by apply put_wf, get_wf.
Qed.

Lemma find_pure_coherent (ipNum : Z) (db : IPCountryDB) :
  sorted_by_start (ranges db) → non_overlapping (ranges db) →
  cache_wf (cache db) → cache_coherent (ranges db) (cache db) →
  cache_coherent (ranges db) (find_pure ipNum db).2.
Proof.
  intros Hs Hn Hwf Hco. unfold find_pure, cache_coherent.
  destruct (items (cache db) !! ipNum); simpl.
  - by apply cache_all_get.
  - apply cache_all_put; [by apply get_wf|by apply cache_all_get|].
    rewrite range_search_linear by done. done.
Qed.

Lemma find_pure_result (ipNum : Z) (db : IPCountryDB) :
  sorted_by_start (ranges db) → non_overlapping (ranges db) →
  cache_coherent (ranges db) (cache db) →
  lookup_result_of (linear_scan (ranges db) ipNum) (find_pure ipNum db).1.
Proof.
  intros Hs Hn Hco. unfold find_pure.
  destruct (items (cache db) !! ipNum) as [e|] eqn:Hk; simpl.
  - rewrite (Hco ipNum e Hk). unfold lookup_entry, lookup_result_of.
    destruct (linear_scan (ranges db) ipNum); simpl; auto.
  - rewrite range_search_linear by done. unfold lookup_result_of.
    destruct (linear_scan (ranges db) ipNum); auto.
Qed.

(** The two lookups, in terms of initialization and [find_pure]. *)
Lemma GetCountryWithContext_eq (ctx : Context) (w : World) (ipStr : string)
    (db : IPCountryDB) :
  GetCountryWithContext ctx w ipStr db =
    match initializeWithContext ctx w db with
    | Blocked s => Blocked s
    | Done (Some e) s => Done (EmptyString, Some (ErrInitFailed e)) s
    | Done None s =>
        match parseIP ipStr with
        | Failed e => Done (EmptyString, Some (ErrInvalidIP e)) s
        | Ok ipNum =>
            match RWMutex_RLock (mu s) with
            | None => Blocked s
            | Some m =>
                Done ((find_pure ipNum s).1.1.1, (find_pure ipNum s).1.2)
                     (set_mu (RWMutex_RUnlock m) (set_cache (find_pure ipNum s).2 s))
            end
        end
    end.
Proof.
  unfold GetCountryWithContext, M_bind at 1.
  destruct (initializeWithContext ctx w db) as [[e|] s|s]; [done| |done].
  destruct (parseIP ipStr) as [ipNum|e]; [|done].
  unfold M_bind, mu_RLock, M_acquire. destruct (RWMutex_RLock (mu s)) as [m|]; [|done].
  unfold M_defer, M_bind. rewrite findCountryForIP_pure. simpl.
  unfold mu_RUnlock, M_modify, M_ret, find_pure. simpl. by destruct s.
Qed.

Lemma GetCountryCodeWithContext_eq (ctx : Context) (w : World) (ipStr : string)
    (db : IPCountryDB) :
  GetCountryCodeWithContext ctx w ipStr db =
    match initializeWithContext ctx w db with
    | Blocked s => Blocked s
    | Done (Some e) s => Done (EmptyString, Some (ErrInitFailed e)) s
    | Done None s =>
        match parseIP ipStr with
        | Failed e => Done (EmptyString, Some (ErrInvalidIP e)) s
        | Ok ipNum =>
            match RWMutex_RLock (mu s) with
            | None => Blocked s
            | Some m =>
                Done ((find_pure ipNum s).1.1.2, (find_pure ipNum s).1.2)
                     (set_mu (RWMutex_RUnlock m) (set_cache (find_pure ipNum s).2 s))
            end
        end
    end.
Proof.
  unfold GetCountryCodeWithContext, M_bind at 1.
  destruct (initializeWithContext ctx w db) as [[e|] s|s]; [done| |done].
  destruct (parseIP ipStr) as [ipNum|e]; [|done].
  unfold M_bind, mu_RLock, M_acquire. destruct (RWMutex_RLock (mu s)) as [m|]; [|done].
  unfold M_defer, M_bind. rewrite findCountryForIP_pure. simpl.
  unfold mu_RUnlock, M_modify, M_ret, find_pure. simpl. by destruct s.
Qed.

(** ReloadWithContext takes [db.mu] and then calls initializeWithContext,
    which waits for [db.mu]. *)
Lemma ReloadWithContext_blocked (ctx : Context) (w : World) (db : IPCountryDB) :
  ReloadWithContext ctx w db =
    match mu db with
    | Unlocked =>
        Blocked (set_cache (clear (cache db))
                   (set_initErr None (set_ranges [] (set_initialized 0
                      (set_mu WriteLocked db)))))
    | _ => Blocked db
    end.
Proof.
  unfold ReloadWithContext, M_bind at 1, mu_Lock, M_acquire.
  by destruct (mu db).
Qed.

End RangeEngineFacts.

(** ** Adjacent pairs of a list *)

Lemma adjacent_cons {A} (R : relation A) (a b : A) (l : list A) :
  adjacent R (a :: b :: l) ↔ R a b ∧ adjacent R (b :: l).
Proof.
  split.
  - intros Had. split; [by apply (Had 0%nat)|].
    intros i x y Hx Hy. by apply (Had (S i)).
  - intros [Hab Had] [|i] x y Hx Hy; simpl in *.
    + by simplify_eq.
    + by apply (Had i).
Qed.

Lemma adjacent_short {A} (R : relation A) (l : list A) :
  (length l ≤ 1)%nat → adjacent R l.
Proof.
  intros Hl i a b Ha Hb. apply lookup_lt_Some in Hb. lia.
Qed.

Lemma adjacent_Sorted {A} (R : relation A) (l : list A) : adjacent R l ↔ Sorted R l.
Proof.
  induction l as [|a [|b l] IH].
  - split; [constructor|]. intros _. apply adjacent_short. simpl. lia.
  - split; [by repeat constructor|]. intros _. apply adjacent_short. simpl. lia.
  - rewrite adjacent_cons, IH. split.
    + intros [Hab Hs]. constructor; [done|by constructor].
    + intros Hs. apply Sorted_inv in Hs as [Hs Hhd]. by apply HdRel_inv in Hhd.
Qed.

Lemma adjacent_impl {A} (R1 R2 : relation A) (l : list A) :
  (∀ i a b, l !! i = Some a → l !! S i = Some b → R1 a b → R2 a b) →
  adjacent R1 l → adjacent R2 l.
Proof. intros Himp Had i a b Ha Hb. by apply (Himp i), (Had i). Qed.

Lemma adjacent_take {A} (R : relation A) (l : list A) (n : nat) :
  adjacent R l → adjacent R (take n l).
Proof.
  intros Had i a b Ha Hb. apply lookup_take_Some in Ha as [Ha _].
  apply lookup_take_Some in Hb as [Hb _]. by apply (Had i).
Qed.

(** ** The validators *)

#[local] Instance start_lt_trans : Transitive start_lt.
Proof. intros a b c. unfold start_lt. lia. Qed.

#[local] Instance start_lt_antisymm : AntiSymm (=) start_lt.
Proof. intros a b. unfold start_lt. lia. Qed.

Lemma Validate_None (r : IPRange) : Validate r = None ↔ range_ok r.
Proof.
  unfold Validate, range_ok. destruct (StartIP r >? EndIP r) eqn:Hgt.
  - rewrite Z.gtb_ltb in Hgt. apply Z.ltb_lt in Hgt. split; [done|lia].
  - rewrite Z.gtb_ltb in Hgt. apply Z.ltb_ge in Hgt.
    destruct (String.eqb_spec (Code r) EmptyString); split; try done; intros [_ Hc]; done.
Qed.

Lemma Validate_Some (r : IPRange) (err : error) :
  Validate r = Some err →
  (EndIP r < StartIP r ∧ err = ErrInvalidRange (StartIP r) (EndIP r))
  ∨ (StartIP r ≤ EndIP r ∧ Code r = EmptyString ∧ err = ErrEmptyCode).
Proof.
  unfold Validate. destruct (StartIP r >? EndIP r) eqn:Hgt.
  - rewrite Z.gtb_ltb in Hgt. apply Z.ltb_lt in Hgt. intros [= <-]. by left.
  - rewrite Z.gtb_ltb in Hgt. apply Z.ltb_ge in Hgt.
    destruct (String.eqb_spec (Code r) EmptyString); [|done]. intros [= <-]. by right.
Qed.

Lemma validateRanges_cons (a b : IPRange) (rs : list IPRange) :
  validateRanges (a :: b :: rs) =
    if EndIP a >=? StartIP b
    then Some (ErrOverlapDetected (StartIP a) (EndIP a) (StartIP b) (EndIP b))
    else validateRanges (b :: rs).
Proof. done. Qed.

(** validateRanges accepts exactly the lists without overlapping
    neighbours. *)
Lemma validateRanges_None (rs : list IPRange) :
  validateRanges rs = None ↔ non_overlapping rs.
Proof.
  change (non_overlapping rs) with (adjacent (λ a b, EndIP a < StartIP b) rs).
  induction rs as [|a [|b rs] IH].
  - split; [|done]. intros _. apply adjacent_short. simpl. lia.
  - split; [|done]. intros _. apply adjacent_short. simpl. lia.
  - rewrite adjacent_cons, <- IH, validateRanges_cons.
    destruct (EndIP a >=? StartIP b) eqn:Hge; rewrite Z.geb_leb in Hge.
    + apply Z.leb_le in Hge. split; [done|]. intros [Hc _]. lia.
    + apply Z.leb_gt in Hge. split; [by auto|]. by intros [_ Hv].
Qed.

(** The error of validateRanges names the first overlapping pair. *)
Lemma validateRanges_Some (rs : list IPRange) (err : error) :
  validateRanges rs = Some err →
  ∃ (i : nat) a b,
    rs !! i = Some a ∧ rs !! S i = Some b ∧ StartIP b ≤ EndIP a
    ∧ err = ErrOverlapDetected (StartIP a) (EndIP a) (StartIP b) (EndIP b)
    ∧ non_overlapping (take (S i) rs).
Proof.
  revert err. induction rs as [|a [|b rs] IH]; intros err; [done|done|].
  rewrite validateRanges_cons.
  destruct (EndIP a >=? StartIP b) eqn:Hge; rewrite Z.geb_leb in Hge.
  - apply Z.leb_le in Hge. intros [= <-]. exists 0%nat, a, b.
    split; [done|]. split; [done|]. split; [done|]. split; [done|].
    apply (adjacent_short (λ a b, EndIP a < StartIP b)). simpl. lia.
  - apply Z.leb_gt in Hge. intros Hv.
    destruct (IH err Hv) as (i & x & y & Hx & Hy & Hxy & He & Hpre).
    exists (S i), x, y.
    split; [done|]. split; [done|]. split; [done|]. split; [done|].
    change (adjacent (λ a b, EndIP a < StartIP b) (a :: take (S i) (b :: rs))).
    cbn [take]. apply adjacent_cons. split; [done|]. exact Hpre.
Qed.

Lemma validate_loop_None (i : nat) (previous : IPRange) (rest : list IPRange) :
  validate_loop i previous rest = None
  ↔ Forall range_ok rest ∧ non_overlapping (previous :: rest).
Proof.
  change (non_overlapping (previous :: rest))
    with (adjacent (λ a b, EndIP a < StartIP b) (previous :: rest)).
  revert i previous. induction rest as [|current rest IH]; intros i previous.
  - split; [|done]. intros _. split; [constructor|]. apply adjacent_short. simpl. lia.
  - cbn [validate_loop]. rewrite Forall_cons, adjacent_cons.
    destruct (Validate current) as [err|] eqn:Hv.
    + split; [done|]. intros [[Hok _] _]. apply Validate_None in Hok. congruence.
    + apply Validate_None in Hv.
      destruct (EndIP previous >=? StartIP current) eqn:Hge; rewrite Z.geb_leb in Hge.
      * apply Z.leb_le in Hge. split; [done|]. intros [_ [Hc _]]. lia.
      * apply Z.leb_gt in Hge. rewrite IH. tauto.
Qed.

(** The error of the loop of ValidateIPRanges is the first violation in
    scan order: everything before position [j] of [rest] passed. *)
Lemma validate_loop_Some (i : nat) (previous : IPRange) (rest : list IPRange)
    (err : error) :
  validate_loop i previous rest = Some err →
  ∃ (j : nat) p current,
    (previous :: rest) !! j = Some p ∧ rest !! j = Some current
    ∧ validate_loop i previous (take j rest) = None
    ∧ ((∃ e, Validate current = Some e ∧ err = ErrInvalidRangeAt (i + j) e)
       ∨ (Validate current = None ∧ StartIP current ≤ EndIP p
          ∧ err = ErrOverlapping (StartIP p) (EndIP p) (StartIP current) (EndIP current))).
Proof.
  revert i previous err. induction rest as [|current rest IH]; intros i previous err; [done|].
  cbn [validate_loop]. destruct (Validate current) as [e|] eqn:Hv.
  - intros [= <-]. exists 0%nat, previous, current. repeat split; try done.
    left. exists e. by rewrite Nat.add_0_r.
  - destruct (EndIP previous >=? StartIP current) eqn:Hge; rewrite Z.geb_leb in Hge.
    + apply Z.leb_le in Hge. intros [= <-]. exists 0%nat, previous, current.
      repeat split; try done. by right.
    + apply Z.leb_gt in Hge. intros Hl.
      destruct (IH _ _ _ Hl) as (j & p & cur & Hp & Hcur & Hpre & Herr).
      exists (S j), p, cur. repeat split; try done.
      * cbn [take validate_loop]. rewrite Hv.
        rewrite Z.geb_leb, (proj2 (Z.leb_gt _ _)) by lia. done.
      * by rewrite Nat.add_succ_r.
Qed.

(** A list ordered by non-strict start whose starts are pairwise distinct
    is ordered strictly. *)
Lemma sorted_distinct_strict (rs : list IPRange) :
  sorted_by_start rs → NoDup (StartIP <$> rs) → Sorted start_lt rs.
Proof.
  intros Hs Hnd. apply adjacent_Sorted. intros i a b Ha Hb.
  specialize (Hs i a b Ha Hb). unfold start_lt.
  destruct (decide (StartIP a = StartIP b)) as [Heq|]; [|lia].
  assert (i = S i); [|lia].
  apply (NoDup_lookup (StartIP <$> rs) i (S i) (StartIP a)); [done|..].
  - by rewrite list_lookup_fmap, Ha.
  - by rewrite list_lookup_fmap, Hb, Heq.
Qed.

Lemma Sorted_start_lt_NoDup (rs : list IPRange) :
  Sorted start_lt rs → NoDup (StartIP <$> rs).
Proof.
  intros Hs. apply Sorted_StronglySorted in Hs; [|apply _].
  induction Hs as [|a rs Hs IH Hall]; [constructor|].
  rewrite fmap_cons. constructor; [|done].
  rewrite list_elem_of_fmap. intros (b & Heq & Hb).
  rewrite Forall_forall in Hall. specialize (Hall b Hb). unfold start_lt in Hall. lia.
Qed.

(** Ranges that are well formed and do not overlap their successor are
    strictly ordered by start. *)
Lemma valid_disjoint_strict (rs : list IPRange) :
  Forall range_ok rs → non_overlapping rs → Sorted start_lt rs.
Proof.
  intros Hok Hn. apply adjacent_Sorted. intros i a b Ha Hb.
  specialize (Hn i a b Ha Hb). rewrite Forall_lookup in Hok.
  destruct (Hok i a Ha) as [Hle _]. unfold start_lt. lia.
Qed.

Section SortFacts.
Context {go_sort : SortSlice}.

(** Sorting a list that is ordered and has distinct starts returns it. *)
Lemma sort_by_start_strict (rs : list IPRange) :
  Sorted start_lt rs → sort_by_start rs = rs.
Proof.
  intros Hs. apply (Sorted_unique start_lt); [|done|apply sort_by_start_perm].
  apply sorted_distinct_strict.
  - apply (adjacent_Sorted (λ a b, StartIP a ≤ StartIP b)), sort_by_start_sorted.
  - rewrite sort_by_start_perm. by apply Sorted_start_lt_NoDup.
Qed.

Lemma sort_by_start_sorted_by_start (rs : list IPRange) :
  sorted_by_start (sort_by_start rs).
Proof.
  apply (adjacent_Sorted (λ a b, StartIP a ≤ StartIP b)), sort_by_start_sorted.
Qed.

Lemma ValidateIPRanges_unfold (rs : list IPRange) :
  ValidateIPRanges rs =
    match sort_by_start rs with
    | [] => None
    | first :: rest =>
        match Validate first with
        | Some err => Some (ErrInvalidRangeAt 0 err)
        | None => validate_loop 1 first rest
        end
    end.
Proof.
  unfold ValidateIPRanges. destruct rs as [|r rs]; [|done].
  destruct (sort_by_start []) as [|x l] eqn:Hs; [done|].
  pose proof (sort_by_start_perm []) as Hp. rewrite Hs in Hp.
  by apply Permutation_nil_r in Hp.
Qed.

Lemma ValidateIPRanges_None_sorted (rs : list IPRange) :
  ValidateIPRanges rs = None
  ↔ Forall range_ok (sort_by_start rs) ∧ non_overlapping (sort_by_start rs).
Proof.
  rewrite ValidateIPRanges_unfold. destruct (sort_by_start rs) as [|first rest].
  - split; [|done]. intros _. split; [constructor|].
    change (adjacent (λ a b, EndIP a < StartIP b) (@nil IPRange)).
    apply adjacent_short. simpl. lia.
  - rewrite Forall_cons. destruct (Validate first) as [err|] eqn:Hv.
    + split; [done|]. intros [[Hok _] _]. apply Validate_None in Hok. congruence.
    + apply Validate_None in Hv. rewrite validate_loop_None. tauto.
Qed.

(** ValidateIPRanges accepts exactly the collections whose ranges are well
    formed and do not overlap their successor; for those the sorted copy is
    the collection itself. *)
Lemma ValidateIPRanges_None (rs : list IPRange) :
  sorted_by_start rs →
  ValidateIPRanges rs = None ↔ Forall range_ok rs ∧ non_overlapping rs.
Proof.
  intros Hs. rewrite ValidateIPRanges_None_sorted. split.
  - intros [Hok Hn].
    assert (sort_by_start rs = rs) as Heq.
    { symmetry. apply (Sorted_unique start_lt).
      - apply sorted_distinct_strict; [done|].
        rewrite <- (sort_by_start_perm rs).
        by apply Sorted_start_lt_NoDup, valid_disjoint_strict.
      - by apply valid_disjoint_strict.
      - symmetry. apply sort_by_start_perm. }
    by rewrite Heq in Hok, Hn.
  - intros [Hok Hn]. by rewrite sort_by_start_strict by by apply valid_disjoint_strict.
Qed.

End SortFacts.

(** ** The invariant of the range engine *)
Section RangeEngineInvariant.
Context {go_text : GoText} {go_sort : SortSlice}.
Import RangeEngine.

Lemma parseLine_ok (db : IPCountryDB) (line : string) (r : IPRange) :
  parseLine db line = Ok r → range_ok r ∧ Country r = Code r.
Proof.
  unfold parseLine.
  destruct (strings_Split line (Delimiter (config db))) as [|p0 [|p1 [|p2 [|p3 ps]]]];
    try done.
  destruct (parseIP (strings_TrimSpace p0)) as [startIP|]; [|done].
  destruct (parseIP (strings_TrimSpace p1)) as [endIP|]; [|done].
  destruct (Validate _) eqn:Hv; [done|]. intros [= <-].
  apply Validate_None in Hv. done.
Qed.

Lemma scan_loop_ok (db : IPCountryDB) (ctx : Context) (lines : list string)
    (lineNum : nat) (rs : list IPRange) (errors : list ParseError)
    (how : scan_end) (rs' : list IPRange) (errors' : list ParseError) :
  Forall (λ r, range_ok r ∧ Country r = Code r) rs →
  scan_loop db ctx lines lineNum rs errors = Ok (how, rs', errors') →
  Forall (λ r, range_ok r ∧ Country r = Code r) rs'.
Proof.
  revert lineNum rs errors.
  induction lines as [|text lines IH]; intros lineNum rs errors Hrs; cbn [scan_loop].
  - by intros [= _ <- _].
  - destruct (ctx_Done ctx lineNum); [done|].
    destruct (_ || _); [by apply IH|].
    destruct (parseLine db _) as [r|err] eqn:Hline; [|by apply IH].
    apply parseLine_ok in Hline.
    assert (Forall (λ r, range_ok r ∧ Country r = Code r) (rs ++ [r])) as Hrs'.
    { apply Forall_app. split; [done|]. by constructor. }
    destruct (_ && _); [|by apply IH]. by intros [= _ <- _].
Qed.

Lemma parseFileWithContext_ok (db : IPCountryDB) (ctx : Context) (w : World)
    (path : string) (res : ParseResult) :
  parseFileWithContext db ctx w path = Ok res →
  Forall (λ r, range_ok r ∧ Country r = Code r) (Ranges res).
Proof.
  unfold parseFileWithContext, parseReaderWithContext.
  destruct (os_Open w path) as [file|]; [|done].
  destruct (file_stat file); [|done]. destruct (_ && _); [done|].
  destruct (scan_loop _ _ _ _ _ _) as [[[how rs] errors]|] eqn:Hscan; [|done].
  apply scan_loop_ok in Hscan; [|constructor].
  destruct (match how with ScanExhausted => _ | ScanBreak => _ end); [done|].
  by intros [= <-].
Qed.

Lemma load_result_ok (db : IPCountryDB) (ctx : Context) (w : World)
    (rs : list IPRange) (st : Stats) :
  load_result db ctx w = Ok (rs, st) →
  sorted_by_start rs ∧ non_overlapping rs
  ∧ ∀ r, r ∈ rs → range_ok r ∧ Country r = Code r.
Proof.
  unfold load_result.
  destruct (parseFileWithContext _ _ _ _) as [res|] eqn:Hparse; [|done].
  destruct (validateRanges _) eqn:Hv; [done|]. intros [= <- _].
  split; [apply sort_by_start_sorted_by_start|]. split; [by apply validateRanges_None|].
  apply parseFileWithContext_ok in Hparse. rewrite Forall_forall in Hparse.
  intros r Hr. apply Hparse. by rewrite <- (sort_by_start_perm (Ranges res)).
Qed.

Lemma NewIPCountryDB_inv (path : string) (cfgs : list Config) :
  db_inv (NewIPCountryDB path cfgs).
Proof.
  split; simpl; try done.
  - apply newLRUCache_wf.
  - intros r Hr. by apply elem_of_nil in Hr.
Qed.

(** Initialization returns when the engine is between two calls. *)
Lemma initializeWithContext_inv (ctx : Context) (w : World) (db : IPCountryDB) :
  db_inv db →
  ∃ r db', initializeWithContext ctx w db = Done r db' ∧ db_inv db'
           ∧ (r = None → initialized db' = 1).
Proof.
  intros Hinv. destruct (decide (initialized db = 1)) as [Hi|Hi].
  - rewrite initializeWithContext_ready by done. eauto.
  - rewrite initializeWithContext_load by (done || apply Hinv).
    destruct (inv_uninit db Hinv Hi) as [Hrs Hitems].
    destruct (load_result db ctx w) as [[rs st]|err] eqn:Hload.
    + apply load_result_ok in Hload as (Hs & Hn & Hm).
      eexists _, _. split; [done|]. split; [|done].
      destruct Hinv. split; simpl; try done.
      intros k e. rewrite Hitems, lookup_empty. done.
    + eexists _, _. split; [done|]. split; [|done].
      destruct Hinv. split; simpl; done.
Qed.

Lemma find_pure_inv (ipNum : Z) (db : IPCountryDB) :
  db_inv db → initialized db = 1 →
  db_inv (set_mu Unlocked (set_cache (find_pure ipNum db).2 db)).
Proof.
  intros Hinv Hi. split; simpl; try apply Hinv.
  - done.
  - apply find_pure_wf, Hinv.
  - apply find_pure_coherent; apply Hinv.
  - intros Hc. done.
Qed.

Lemma GetCountryWithContext_inv (ctx : Context) (w : World) (ipStr : string)
    (db : IPCountryDB) :
  db_inv db →
  ∃ r db', GetCountryWithContext ctx w ipStr db = Done r db' ∧ db_inv db'.
Proof.
  intros Hinv. rewrite GetCountryWithContext_eq.
  destruct (initializeWithContext_inv ctx w db Hinv) as (r & s & -> & Hs & Hr).
  destruct r as [e|]; [by eauto|]. destruct (parseIP ipStr) as [ipNum|e]; [|by eauto].
  rewrite (inv_mu s Hs). simpl. eexists _, _. split; [done|].
  apply find_pure_inv; auto.
Qed.

Lemma GetCountryCodeWithContext_inv (ctx : Context) (w : World) (ipStr : string)
    (db : IPCountryDB) :
  db_inv db →
  ∃ r db', GetCountryCodeWithContext ctx w ipStr db = Done r db' ∧ db_inv db'.
Proof.
  intros Hinv. rewrite GetCountryCodeWithContext_eq.
  destruct (initializeWithContext_inv ctx w db Hinv) as (r & s & -> & Hs & Hr).
  destruct r as [e|]; [by eauto|]. destruct (parseIP ipStr) as [ipNum|e]; [|by eauto].
  rewrite (inv_mu s Hs). simpl. eexists _, _. split; [done|].
  apply find_pure_inv; auto.
Qed.

Lemma GetStats_inv (db : IPCountryDB) :
  db_inv db → ∃ r, GetStats db = Done r db.
Proof.
  intros Hinv. pose proof (inv_mu db Hinv) as Hmu.
  unfold GetStats, M_bind, mu_RLock, M_acquire. rewrite Hmu. simpl.
  destruct db. simpl in *. subst. by eexists.
Qed.

(** Every reachable state satisfies the invariant. *)
Lemma reachable_inv (db : IPCountryDB) : reachable db → db_inv db.
Proof.
  induction 1 as [path cfgs|db ctx w ipStr r db' _ IH Hcall|db ctx w ipStr r db' _ IH Hcall
                 |db r db' _ IH Hcall|db ctx w r db' _ IH Hcall].
  - apply NewIPCountryDB_inv.
  - destruct (GetCountryWithContext_inv ctx w ipStr db IH) as (r' & s & Heq & Hs).
    congruence.
  - destruct (GetCountryCodeWithContext_inv ctx w ipStr db IH) as (r' & s & Heq & Hs).
    congruence.
  - destruct (GetStats_inv db IH) as (r' & Heq). congruence.
  - rewrite ReloadWithContext_blocked in Hcall. by destruct (mu db).
Qed.

End RangeEngineInvariant.

(** ** The exact engine, step by step *)
Section ExactEngineFacts.
Context {go_text : GoText}.
Import ExactEngine.

Lemma same_frame_refl (m : ExactIPCountryMap) : same_frame m m.
Proof. by repeat split. Qed.

Lemma same_frame_trans (m1 m2 m3 : ExactIPCountryMap) :
  same_frame m1 m2 → same_frame m2 m3 → same_frame m1 m3.
Proof.
  unfold same_frame. intros (?&?&?&?&?&?) (?&?&?&?&?&?).
  repeat split; congruence.
Qed.

Lemma scan_loop_frame (ctx : Context) (lines : list string) (lineNum processed : nat)
    (m : ExactIPCountryMap) :
  same_frame m (scan_loop ctx lines lineNum processed m).1.
Proof.
  revert lineNum processed m.
  induction lines as [|text lines IH]; intros lineNum processed m; cbn [scan_loop].
  - apply same_frame_refl.
  - destruct (ctx_Done ctx lineNum); [apply same_frame_refl|].
    destruct (_ || _); [apply IH|].
    destruct (parseLine m _) as [[c ipNum]|err].
    + destruct (_ && _); [by repeat split|].
      eapply same_frame_trans; [|apply IH]. by repeat split.
    + eapply same_frame_trans; [|apply IH]. by repeat split.
Qed.

(** parseFileWithContext takes no lock: it always returns, and writes only
    the map, the parse errors and the statistics. *)
Lemma parseFileWithContext_returns (ctx : Context) (w : World) (path : string)
    (m : ExactIPCountryMap) :
  ∃ err m', parseFileWithContext ctx w path m = Done err m' ∧ same_frame m m'.
Proof.
  unfold parseFileWithContext, M_bind, M_gets, M_ret, M_modify. simpl.
  destruct (os_Open w path) as [file|]; [|by eauto using same_frame_refl].
  destruct (file_stat file) as [fileSize|]; [|by eauto using same_frame_refl].
  destruct (_ && _); [by eauto using same_frame_refl|].
  pose proof (scan_loop_frame ctx (file_lines file) 0 0
                (set_parseErrors [] (set_ipMap ∅ m))) as Hfr.
  destruct (scan_loop _ _ _ _ _) as [m1 [how|err]]; simpl in *.
  - destruct (match how with ScanExhausted => _ | ScanBreak => _ end);
      eexists _, _; (split; [done|]);
      (eapply same_frame_trans; [|by apply Hfr || (eapply same_frame_trans;
         [apply Hfr|by repeat split])]); by repeat split.
  - eexists _, _. split; [done|]. eapply same_frame_trans; [|apply Hfr]. by repeat split.
Qed.

Lemma exact_initializeWithContext_ready (ctx : Context) (w : World) (m : ExactIPCountryMap) :
  initialized m = 1 → initializeWithContext ctx w m = Done (initErr m) m.
Proof.
  intros Hi. unfold initializeWithContext, M_bind, M_gets. by rewrite Hi.
Qed.

Lemma exact_initializeWithContext_blocked (ctx : Context) (w : World) (m : ExactIPCountryMap) :
  initialized m ≠ 1 → mu m ≠ Unlocked → initializeWithContext ctx w m = Blocked m.
Proof.
  intros Hi Hmu. unfold initializeWithContext, M_bind, M_gets.
  rewrite (proj2 (Z.eqb_neq _ _) Hi). unfold mu_Lock, M_acquire.
  by destruct (mu m).
Qed.

(** A load attempt of an unlocked, uninitialized engine returns; it leaves
    the cache and the lock as they were, and it marks the engine
    initialized exactly when it returns no error. *)
Lemma exact_initializeWithContext_load (ctx : Context) (w : World) (m : ExactIPCountryMap) :
  initialized m ≠ 1 → mu m = Unlocked →
  ∃ r m', initializeWithContext ctx w m = Done r m'
          ∧ mu m' = Unlocked ∧ cache m' = cache m
          ∧ (r = None → initialized m' = 1)
          ∧ (r ≠ None → initialized m' = initialized m ∧ initErr m' = r).
Proof.
  intros Hi Hmu. unfold initializeWithContext, M_bind, M_gets.
  rewrite (proj2 (Z.eqb_neq _ _) Hi). unfold mu_Lock, M_acquire. rewrite Hmu. simpl.
  unfold M_defer, load, M_bind, M_gets. simpl.
  rewrite (proj2 (Z.eqb_neq _ _) Hi).
  destruct (parseFileWithContext_returns ctx w (filePath (set_mu WriteLocked m))
              (set_mu WriteLocked m))
    as (err & m1 & -> & Hmu1 & Hi1 & He1 & _ & _ & Hc1).
  simpl in *. destruct err as [e|]; unfold M_modify, M_ret, mu_Unlock; simpl.
  - eexists _, _. split; [done|]. simpl. rewrite Hmu1. repeat split; try done.
  - eexists _, _. split; [done|]. simpl. rewrite Hmu1. repeat split; try done.
Qed.

Lemma exact_findCountryForIP_pure (ipNum : Z) (m : ExactIPCountryMap) :
  findCountryForIP ipNum m
  = Done (exact_find_pure ipNum m).1 (set_cache (exact_find_pure ipNum m).2 m).
Proof.
  unfold exact_find_pure, findCountryForIP, M_bind, cache_get.
  destruct (items (cache m) !! ipNum) as [e|] eqn:Hk.
  - rewrite (get_hit _ _ e Hk). simpl. by destruct (found _).
  - rewrite (get_miss _ _ Hk). simpl. unfold M_gets, exact_entry. simpl.
    destruct (ipMap m !! ipNum); unfold cache_put, M_modify, M_ret; simpl; by destruct m.
Qed.

Lemma exact_find_pure_wf (ipNum : Z) (m : ExactIPCountryMap) :
  cache_wf (cache m) → cache_wf (exact_find_pure ipNum m).2.
Proof.
  intros Hwf. unfold exact_find_pure. destruct (items (cache m) !! ipNum); simpl.
  - by apply get_wf.
  - by apply put_wf, get_wf.
Qed.

Lemma exact_find_pure_coherent (ipNum : Z) (m : ExactIPCountryMap) :
  cache_wf (cache m) →
  cache_all (λ k v, v = exact_entry (ipMap m) k) (cache m) →
  cache_all (λ k v, v = exact_entry (ipMap m) k) (exact_find_pure ipNum m).2.
Proof.
  intros Hwf Hco. unfold exact_find_pure. destruct (items (cache m) !! ipNum); simpl.
  - by apply cache_all_get.
  - apply cache_all_put; [by apply get_wf|by apply cache_all_get|done].
Qed.

Lemma exact_GetCountryWithContext_eq (ctx : Context) (w : World) (ipStr : string)
    (m : ExactIPCountryMap) :
  GetCountryWithContext ctx w ipStr m =
    match initializeWithContext ctx w m with
    | Blocked s => Blocked s
    | Done (Some e) s => Done (EmptyString, Some (ErrInitFailed e)) s
    | Done None s =>
        match parseIP ipStr with
        | Failed e => Done (EmptyString, Some (ErrInvalidIP e)) s
        | Ok ipNum =>
            match RWMutex_RLock (mu s) with
            | None => Blocked s
            | Some l =>
                Done ((exact_find_pure ipNum s).1.1.1, (exact_find_pure ipNum s).1.2)
                     (set_mu (RWMutex_RUnlock l) (set_cache (exact_find_pure ipNum s).2 s))
            end
        end
    end.
Proof.
  unfold GetCountryWithContext, M_bind at 1.
  destruct (initializeWithContext ctx w m) as [[e|] s|s]; [done| |done].
  destruct (parseIP ipStr) as [ipNum|e]; [|done].
  unfold M_bind, mu_RLock, M_acquire. destruct (RWMutex_RLock (mu s)) as [l|]; [|done].
  unfold M_defer, M_bind. rewrite exact_findCountryForIP_pure. simpl.
  unfold mu_RUnlock, M_modify, M_ret, exact_find_pure. simpl. by destruct s.
Qed.

Lemma exact_GetCountryCodeWithContext_eq (ctx : Context) (w : World) (ipStr : string)
    (m : ExactIPCountryMap) :
  GetCountryCodeWithContext ctx w ipStr m =
    match initializeWithContext ctx w m with
    | Blocked s => Blocked s
    | Done (Some e) s => Done (EmptyString, Some (ErrInitFailed e)) s
    | Done None s =>
        match parseIP ipStr with
        | Failed e => Done (EmptyString, Some (ErrInvalidIP e)) s
        | Ok ipNum =>
            match RWMutex_RLock (mu s) with
            | None => Blocked s
            | Some l =>
                Done ((exact_find_pure ipNum s).1.1.2, (exact_find_pure ipNum s).1.2)
                     (set_mu (RWMutex_RUnlock l) (set_cache (exact_find_pure ipNum s).2 s))
            end
        end
    end.
Proof.
  unfold GetCountryCodeWithContext, M_bind at 1.
  destruct (initializeWithContext ctx w m) as [[e|] s|s]; [done| |done].
  destruct (parseIP ipStr) as [ipNum|e]; [|done].
  unfold M_bind, mu_RLock, M_acquire. destruct (RWMutex_RLock (mu s)) as [l|]; [|done].
  unfold M_defer, M_bind. rewrite exact_findCountryForIP_pure. simpl.
  unfold mu_RUnlock, M_modify, M_ret, exact_find_pure. simpl. by destruct s.
Qed.

Lemma exact_ReloadWithContext_blocked (ctx : Context) (w : World) (m : ExactIPCountryMap) :
  ReloadWithContext ctx w m =
    match mu m with
    | Unlocked =>
        Blocked (set_cache (clear (cache m))
                   (set_initErr None (set_ipMap ∅ (set_initialized 0
                      (set_mu WriteLocked m)))))
    | _ => Blocked m
    end.
Proof.
  unfold ReloadWithContext, M_bind at 1, mu_Lock, M_acquire.
  by destruct (mu m).
Qed.

End ExactEngineFacts.

(** ** The invariant of the exact engine *)
Section ExactEngineInvariant.
Context {go_text : GoText}.
Import ExactEngine.

Lemma NewExactIPCountryMap_inv (path : string) (cfgs : list Config) :
  map_inv (NewExactIPCountryMap path cfgs).
Proof.
  split; simpl; try done. apply newLRUCache_wf.
Qed.

Lemma exact_initializeWithContext_inv (ctx : Context) (w : World)
    (m : ExactIPCountryMap) :
  map_inv m →
  ∃ r m', initializeWithContext ctx w m = Done r m' ∧ map_inv m'
          ∧ (r = None → initialized m' = 1).
Proof.
  intros Hinv. destruct (decide (initialized m = 1)) as [Hi|Hi].
  - rewrite exact_initializeWithContext_ready by done. eauto.
  - destruct (exact_initializeWithContext_load ctx w m Hi (minv_mu m Hinv))
      as (r & m' & Heq & Hmu & Hc & Hok & Hfail).
    exists r, m'. split; [done|]. split; [|done].
    pose proof (minv_uninit m Hinv Hi) as Hitems.
    split; rewrite ?Hc; try done.
    + apply Hinv.
    + intros k e. by rewrite Hitems, lookup_empty.
Qed.

Lemma exact_find_pure_inv (ipNum : Z) (m : ExactIPCountryMap) :
  map_inv m → initialized m = 1 →
  map_inv (set_mu Unlocked (set_cache (exact_find_pure ipNum m).2 m)).
Proof.
  intros Hinv Hi. split; simpl.
  - done.
  - apply exact_find_pure_wf, Hinv.
  - apply exact_find_pure_coherent; apply Hinv.
  - done.
Qed.

Lemma exact_GetCountryWithContext_inv (ctx : Context) (w : World) (ipStr : string)
    (m : ExactIPCountryMap) :
  map_inv m →
  ∃ r m', GetCountryWithContext ctx w ipStr m = Done r m' ∧ map_inv m'.
Proof.
  intros Hinv. rewrite exact_GetCountryWithContext_eq.
  destruct (exact_initializeWithContext_inv ctx w m Hinv) as (r & s & -> & Hs & Hr).
  destruct r as [e|]; [by eauto|]. destruct (parseIP ipStr) as [ipNum|e]; [|by eauto].
  rewrite (minv_mu s Hs). simpl. eexists _, _. split; [done|].
  apply exact_find_pure_inv; auto.
Qed.

Lemma exact_GetCountryCodeWithContext_inv (ctx : Context) (w : World) (ipStr : string)
    (m : ExactIPCountryMap) :
  map_inv m →
  ∃ r m', GetCountryCodeWithContext ctx w ipStr m = Done r m' ∧ map_inv m'.
Proof.
  intros Hinv. rewrite exact_GetCountryCodeWithContext_eq.
  destruct (exact_initializeWithContext_inv ctx w m Hinv) as (r & s & -> & Hs & Hr).
  destruct r as [e|]; [by eauto|]. destruct (parseIP ipStr) as [ipNum|e]; [|by eauto].
  rewrite (minv_mu s Hs). simpl. eexists _, _. split; [done|].
  apply exact_find_pure_inv; auto.
Qed.

Lemma exact_GetStats_inv (m : ExactIPCountryMap) :
  map_inv m → ∃ r, GetStats m = Done r m.
Proof.
  intros Hinv. pose proof (minv_mu m Hinv) as Hmu.
  unfold GetStats, M_bind, mu_RLock, M_acquire. rewrite Hmu. simpl.
  destruct m. simpl in *. subst. by eexists.
Qed.

Lemma exact_GetParseErrors_inv (m : ExactIPCountryMap) :
  map_inv m → ∃ r, GetParseErrors m = Done r m.
Proof.
  intros Hinv. pose proof (minv_mu m Hinv) as Hmu.
  unfold GetParseErrors, M_bind, mu_RLock, M_acquire. rewrite Hmu. simpl.
  destruct m. simpl in *. subst. by eexists.
Qed.

Lemma mreachable_inv (m : ExactIPCountryMap) : mreachable m → map_inv m.
Proof.
  induction 1 as [path cfgs|m ctx w ipStr r m' _ IH Hcall|m ctx w ipStr r m' _ IH Hcall
                 |m r m' _ IH Hcall|m r m' _ IH Hcall|m ctx w r m' _ IH Hcall].
  - apply NewExactIPCountryMap_inv.
  - destruct (exact_GetCountryWithContext_inv ctx w ipStr m IH) as (r' & s & Heq & Hs).
    congruence.
  - destruct (exact_GetCountryCodeWithContext_inv ctx w ipStr m IH) as (r' & s & Heq & Hs).
    congruence.
  - destruct (exact_GetStats_inv m IH) as (r' & Heq). congruence.
  - destruct (exact_GetParseErrors_inv m IH) as (r' & Heq). congruence.
  - rewrite exact_ReloadWithContext_blocked in Hcall. by destruct (mu m).
Qed.

End ExactEngineInvariant.

(** ** Claims about the engines *)

(** The example of the README, run on the model. *)
Example ex_dataset :
  let db0 := RangeEngine.NewIPCountryDB "ip_to_country.csv" [] in
  let o1 := RangeEngine.GetCountryCode example_world "1.0.1.15" db0 in
  let o2 := RangeEngine.GetCountryCode example_world "8.8.8.8" (outcome_state o1) in
  let o3 := RangeEngine.GetCountryCode example_world "1.0.0.0" (outcome_state o2) in
  let o4 := RangeEngine.GetCountryCode example_world "9.9.9.9" (outcome_state o3) in
  match o1, o2, o3, o4 with
  | Done r1 _, Done r2 _, Done r3 _, Done r4 _ =>
      r1 = ("CN", None) ∧ r2 = ("US", None) ∧ r3 = ("AU", None)
      ∧ r4 = (EmptyString, Some ErrNotFound)
  | _, _, _, _ => False
  end.
Proof. vm_compute. auto. Qed.


Lemma example_db_sorted : sorted_by_start (RangeEngine.ranges example_db).
Proof.
  apply (adjacent_Sorted (λ a b, StartIP a ≤ StartIP b)).
  repeat constructor; simpl; lia.
Qed.

Lemma example_db_disjoint : non_overlapping (RangeEngine.ranges example_db).
Proof.
  apply (adjacent_Sorted (λ a b, EndIP a < StartIP b)).
  repeat constructor; simpl; lia.
Qed.

Lemma example_db_inv : db_inv example_db.
Proof.
  split; simpl; try done.
  - apply newLRUCache_wf.
  - apply example_db_sorted.
  - apply example_db_disjoint.
  - intros r Hr. repeat (apply elem_of_cons in Hr as [->|Hr]); try done.
    by apply elem_of_nil in Hr.
Qed.

(** C1. For every range collection that is sorted by start and strictly
    non-overlapping (and a cache holding only results of lookups over that
    collection), and every numeric address, findCountryForIP returns the
    country and code of the range whose inclusive interval contains the
    address and returns not-found when no range contains it; this is the
    outcome of a linear scan, reached through the greatest index whose
    start is at most the address and the check against that range's end. *)
Theorem range_lookup_correct (db : RangeEngine.IPCountryDB) (ipNum : Z) :
  sorted_by_start (RangeEngine.ranges db) →
  non_overlapping (RangeEngine.ranges db) →
  cache_coherent (RangeEngine.ranges db) (RangeEngine.cache db) →
  ∃ res db',
    RangeEngine.findCountryForIP ipNum db = Done res db'
    ∧ RangeEngine.ranges db' = RangeEngine.ranges db
    ∧ (∀ (k : nat) r, RangeEngine.ranges db !! k = Some r →
         (k < sort_Search (length (RangeEngine.ranges db))
                (λ i, StartIP (RangeEngine.ranges db !!! i) >? ipNum))%nat
         ↔ StartIP r ≤ ipNum)
    ∧ range_search (RangeEngine.ranges db) ipNum = linear_scan (RangeEngine.ranges db) ipNum
    ∧ lookup_result_of (linear_scan (RangeEngine.ranges db) ipNum) res
    ∧ (∀ r, r ∈ RangeEngine.ranges db → Contains r ipNum = true →
         res = (Country r, Code r, None))
    ∧ ((∀ r, r ∈ RangeEngine.ranges db → Contains r ipNum = false) →
         res = (EmptyString, EmptyString, Some ErrNotFound)
         ∨ res = (EmptyString, EmptyString, Some ErrNotFoundCached)).
Proof.
  intros Hs Hn Hco. rewrite findCountryForIP_pure. eexists _, _. split; [done|].
  split; [done|]. split.
  { destruct (search_index_spec (RangeEngine.ranges db) ipNum Hs) as (_ & Hlo & Hhi).
    intros k r Hk. split; [by eauto|]. intros Hle.
    destruct (decide (k < sort_Search (length (RangeEngine.ranges db))
                            (λ i, StartIP (RangeEngine.ranges db !!! i) >? ipNum))%nat)
      as [|Hge]; [done|].
    specialize (Hhi k r ltac:(lia) Hk). lia. }
  split; [by apply range_search_linear|].
  pose proof (find_pure_result ipNum db Hs Hn Hco) as Hres.
  split; [done|]. split.
  - intros r Hr Hc. destruct (linear_scan (RangeEngine.ranges db) ipNum) as [r'|] eqn:Hscan.
    + apply linear_scan_Some in Hscan as [Hr' Hc'].
      apply list_elem_of_lookup in Hr as [i Hi]. apply list_elem_of_lookup in Hr' as [j Hj].
      assert (i = j) as -> by eauto using Contains_unique.
      assert (r = r') as -> by congruence. done.
    + rewrite (proj1 (linear_scan_None _ _) Hscan r Hr) in Hc. done.
  - intros Hnone. apply linear_scan_None in Hnone. by rewrite Hnone in Hres.
Qed.

(** The boundaries of the README ranges: each start and end is found, the
    addresses just outside are not. *)
Example ex_boundaries :
  let rs := RangeEngine.ranges example_db in
  (Code <$> range_search rs 16777216) = Some "AU"
  ∧ (Code <$> range_search rs 16777471) = Some "AU"
  ∧ (Code <$> range_search rs 16777472) = Some "CN"
  ∧ (Code <$> range_search rs 16778239) = Some "CN"
  ∧ range_search rs 16778240 = None
  ∧ range_search rs 16777215 = None
  ∧ range_search rs 134744063 = None
  ∧ (Code <$> range_search rs 134744064) = Some "US"
  ∧ (Code <$> range_search rs 134744319) = Some "US"
  ∧ range_search rs 134744320 = None
  ∧ range_search rs 0 = None
  ∧ range_search rs 4294967295 = None.
Proof. by vm_compute. Qed.

(** In every reachable state of the engine the hypotheses of the lookup
    theorem hold: a lookup returns what the linear scan finds. *)
Lemma reachable_lookup_correct {go_text : GoText} {go_sort : SortSlice}
    (db : RangeEngine.IPCountryDB) (ipNum : Z) :
  reachable db →
  ∃ res db',
    RangeEngine.findCountryForIP ipNum db = Done res db'
    ∧ lookup_result_of (linear_scan (RangeEngine.ranges db) ipNum) res.
Proof.
  intros Hdb. apply reachable_inv in Hdb. rewrite findCountryForIP_pure.
  eexists _, _. split; [done|]. apply find_pure_result; apply Hdb.
Qed.

Lemma range_lookup_correct_witness :
  ∃ res db',
    RangeEngine.findCountryForIP 16777487 example_db = Done res db'
    ∧ res = ("CN", "CN", None).
Proof.
  destruct (range_lookup_correct example_db 16777487)
    as (res & db' & Heq & _ & _ & _ & _ & Hin & _);
    [apply example_db_sorted|apply example_db_disjoint|apply cache_all_new|].
  exists res, db'. split; [done|].
  apply (Hin (mkIPRange "CN" "CN" 16777472 16778239)); [|done].
  simpl. apply elem_of_cons. right. apply elem_of_cons. by left.
Defined.

(** C2 (the code does not do this). ReloadWithContext never returns: it
    takes [mu] exclusively and then calls initializeWithContext, which,
    the engine being marked uninitialized, waits for [mu]; this holds for
    both engines, from every state and in every environment. *)
Theorem reload_never_returns {go_text : GoText} {go_sort : SortSlice}
    (ctx : Context) (w : World)
    (db : RangeEngine.IPCountryDB) (m : ExactEngine.ExactIPCountryMap) :
  (∃ s, RangeEngine.ReloadWithContext ctx w db = Blocked s)
  ∧ (∃ s, RangeEngine.Reload w db = Blocked s)
  ∧ (∃ s, ExactEngine.ReloadWithContext ctx w m = Blocked s)
  ∧ (∃ s, ExactEngine.Reload w m = Blocked s).
Proof.
  unfold RangeEngine.Reload, ExactEngine.Reload.
  rewrite !ReloadWithContext_blocked, !exact_ReloadWithContext_blocked.
  destruct (RangeEngine.mu db), (ExactEngine.mu m); eauto 10.
Qed.

(** In a reachable state the country and the code of a lookup agree. *)
Lemma find_pure_mirror (ipNum : Z) (db : RangeEngine.IPCountryDB) :
  db_inv db → (find_pure ipNum db).1.1.1 = (find_pure ipNum db).1.1.2.
Proof.
  intros Hinv.
  pose proof (find_pure_result ipNum db (inv_sorted db Hinv) (inv_disjoint db Hinv)
                (inv_coherent db Hinv)) as Hres.
  destruct (linear_scan (RangeEngine.ranges db) ipNum) as [r|] eqn:Hscan; simpl in Hres.
  - rewrite Hres. simpl. apply linear_scan_Some in Hscan as [Hr _].
    by apply (inv_mirror db Hinv).
  - by destruct Hres as [-> | ->].
Qed.

Lemma exact_find_pure_mirror (ipNum : Z) (m : ExactEngine.ExactIPCountryMap) :
  map_inv m → (exact_find_pure ipNum m).1.1.1 = (exact_find_pure ipNum m).1.1.2.
Proof.
  intros Hinv. unfold exact_find_pure.
  destruct (items (ExactEngine.cache m) !! ipNum) as [e|] eqn:Hk; simpl.
  - rewrite (minv_coherent m Hinv ipNum e Hk). unfold exact_entry.
    by destruct (ExactEngine.ipMap m !! ipNum).
  - by destruct (ExactEngine.ipMap m !! ipNum).
Qed.

(** C9. For both engines, in every reachable state, every environment and
    for every input string, GetCountry and GetCountryCode (with or without
    context) return the same string and the same error and leave the
    engine in the same state. *)
Theorem GetCountry_is_GetCountryCode {go_text : GoText} {go_sort : SortSlice}
    (db : RangeEngine.IPCountryDB) (m : ExactEngine.ExactIPCountryMap)
    (ctx : Context) (w : World) (ipStr : string) :
  reachable db → mreachable m →
  RangeEngine.GetCountryWithContext ctx w ipStr db
    = RangeEngine.GetCountryCodeWithContext ctx w ipStr db
  ∧ RangeEngine.GetCountry w ipStr db = RangeEngine.GetCountryCode w ipStr db
  ∧ ExactEngine.GetCountryWithContext ctx w ipStr m
    = ExactEngine.GetCountryCodeWithContext ctx w ipStr m
  ∧ ExactEngine.GetCountry w ipStr m = ExactEngine.GetCountryCode w ipStr m.
Proof.
  intros Hdb Hm. apply reachable_inv in Hdb. apply mreachable_inv in Hm.
  assert (∀ c, RangeEngine.GetCountryWithContext c w ipStr db
               = RangeEngine.GetCountryCodeWithContext c w ipStr db) as Hrange.
  { intros c. rewrite GetCountryWithContext_eq, GetCountryCodeWithContext_eq.
    destruct (initializeWithContext_inv c w db Hdb) as (r & s & -> & Hs & _).
    destruct r; [done|]. destruct (parseIP ipStr); [|done].
    destruct (RWMutex_RLock _); [|done]. by rewrite find_pure_mirror. }
  assert (∀ c, ExactEngine.GetCountryWithContext c w ipStr m
               = ExactEngine.GetCountryCodeWithContext c w ipStr m) as Hexact.
  { intros c. rewrite exact_GetCountryWithContext_eq, exact_GetCountryCodeWithContext_eq.
    destruct (exact_initializeWithContext_inv c w m Hm) as (r & s & -> & Hs & _).
    destruct r; [done|]. destruct (parseIP ipStr); [|done].
    destruct (RWMutex_RLock _); [|done]. by rewrite exact_find_pure_mirror. }
  unfold RangeEngine.GetCountry, RangeEngine.GetCountryCode,
    ExactEngine.GetCountry, ExactEngine.GetCountryCode. auto.
Qed.

Lemma GetCountry_is_GetCountryCode_witness :
  RangeEngine.GetCountry example_world "8.8.8.8"
    (RangeEngine.NewIPCountryDB "ip_to_country.csv" [])
  = RangeEngine.GetCountryCode example_world "8.8.8.8"
      (RangeEngine.NewIPCountryDB "ip_to_country.csv" []).
Proof.
  apply (GetCountry_is_GetCountryCode
           (RangeEngine.NewIPCountryDB "ip_to_country.csv" [])
           (ExactEngine.NewExactIPCountryMap "ip_to_country.csv" [])
           context_Background example_world "8.8.8.8").
  - apply reach_New.
  - apply mreach_New.
Defined.

(** ** Lookups served from the cache *)

Lemma atomic_AddInt64_succ (x : Z) :
  - 2 ^ 63 ≤ x < 2 ^ 63 - 1 → atomic_AddInt64 x 1 = x + 1.
Proof.
  intros Hx. unfold atomic_AddInt64, int64_wrap.
  rewrite Z.mod_small by lia. lia.
Qed.

Lemma get_counters (c : lruCache) (k : Z) :
  (is_Some (items c !! k) →
     hits (get c k).1 = atomic_AddInt64 (hits c) 1 ∧ misses (get c k).1 = misses c)
  ∧ (items c !! k = None →
     hits (get c k).1 = hits c ∧ misses (get c k).1 = atomic_AddInt64 (misses c) 1).
Proof.
  unfold get. destruct (items c !! k); simpl; split; try done.
Qed.

Lemma find_pure_cached (ipNum : Z) (db : RangeEngine.IPCountryDB) :
  db_inv db →
  ∃ e, items (find_pure ipNum db).2 !! ipNum = Some e
       ∧ value (deref (find_pure ipNum db).2 e)
         = lookup_entry (RangeEngine.ranges db) ipNum.
Proof.
  intros Hinv.
  assert (is_Some (items (find_pure ipNum db).2 !! ipNum)) as [e He].
  { unfold find_pure. destruct (items (RangeEngine.cache db) !! ipNum) as [e|] eqn:Hk; simpl.
    - rewrite get_items. by eexists.
    - destruct (put_lookup (get (RangeEngine.cache db) ipNum).1 ipNum
                  (match range_search (RangeEngine.ranges db) ipNum with
                   | Some r => {| ip := ipNum; country := Country r; code := Code r;
                                  found := true |}
                   | None => {| ip := ipNum; country := EmptyString; code := EmptyString;
                                found := false |}
                   end)) as (e & He & _).
      by eexists. }
  exists e. split; [done|].
  by apply (find_pure_coherent ipNum db (inv_sorted db Hinv) (inv_disjoint db Hinv)
              (inv_wf db Hinv) (inv_coherent db Hinv) ipNum e).
Qed.

Lemma exact_find_pure_cached (ipNum : Z) (m : ExactEngine.ExactIPCountryMap) :
  map_inv m →
  ∃ e, items (exact_find_pure ipNum m).2 !! ipNum = Some e
       ∧ value (deref (exact_find_pure ipNum m).2 e)
         = exact_entry (ExactEngine.ipMap m) ipNum.
Proof.
  intros Hinv.
  assert (is_Some (items (exact_find_pure ipNum m).2 !! ipNum)) as [e He].
  { unfold exact_find_pure.
    destruct (items (ExactEngine.cache m) !! ipNum) as [e|] eqn:Hk; simpl.
    - rewrite get_items. by eexists.
    - destruct (put_lookup (get (ExactEngine.cache m) ipNum).1 ipNum
                  (exact_entry (ExactEngine.ipMap m) ipNum)) as (e & He & _).
      by eexists. }
  exists e. split; [done|].
  by apply (exact_find_pure_coherent ipNum m (minv_wf m Hinv) (minv_coherent m Hinv)
              ipNum e).
Qed.

(** Two lookups in a row through [find_pure]. *)
Lemma find_pure_twice (ipNum : Z) (db : RangeEngine.IPCountryDB) :
  db_inv db →
  let f1 := find_pure ipNum db in
  let f2 := find_pure ipNum (RangeEngine.set_mu Unlocked (RangeEngine.set_cache f1.2 db)) in
  served_twice (f1.1.1.2, f1.1.2) (f2.1.1.2, f2.1.2)
    (RangeEngine.cache db) f1.2 f2.2 ipNum
    (linear_scan (RangeEngine.ranges db) ipNum = None).
Proof.
  intros Hinv f1 f2.
  destruct (find_pure_cached ipNum db Hinv) as (e & He & Hv). fold f1 in He, Hv.
  pose proof (find_pure_result ipNum db (inv_sorted db Hinv) (inv_disjoint db Hinv)
                (inv_coherent db Hinv)) as Hres. fold f1 in Hres.
  assert (f2 = (if negb (found (lookup_entry (RangeEngine.ranges db) ipNum))
                then (EmptyString, EmptyString, Some ErrNotFoundCached)
                else (country (lookup_entry (RangeEngine.ranges db) ipNum),
                      code (lookup_entry (RangeEngine.ranges db) ipNum), None),
                (get f1.2 ipNum).1)) as Hf2.
  { unfold f2, find_pure at 1. simpl. rewrite He. by rewrite Hv. }
  rewrite Hf2. unfold served_twice. simpl.
  destruct (get_counters f1.2 ipNum) as [Hhit _].
  destruct Hhit as [Hh Hm]; [by eexists|].
  unfold lookup_entry in *.
  destruct (linear_scan (RangeEngine.ranges db) ipNum) as [r|] eqn:Hscan; simpl in *.
  - rewrite Hres. simpl. repeat split; try done.
    intros Hb. rewrite Hh. by apply atomic_AddInt64_succ.
  - split; [by destruct Hres as [-> | ->]|]. split; [by destruct Hres as [-> | ->]|].
    split; [destruct Hres as [-> | ->]; auto|]. split; [done|].
    split; [intros Hb; rewrite Hh; by apply atomic_AddInt64_succ|]. split; [done|].
    intros Hk _. unfold f1, find_pure. rewrite Hk.
    rewrite range_search_linear, Hscan by apply Hinv. simpl.
    destruct (get_counters (RangeEngine.cache db) ipNum) as [_ Hmiss].
    destruct (Hmiss Hk) as [Hh0 Hm0].
    destruct (put_counters (get (RangeEngine.cache db) ipNum).1 ipNum
                {| ip := ipNum; country := EmptyString; code := EmptyString;
                   found := false |}) as [-> ->].
    rewrite put_get. repeat split; try done.
    intros Hb. rewrite Hm0. by apply atomic_AddInt64_succ.
Qed.

Lemma exact_find_pure_twice (ipNum : Z) (m : ExactEngine.ExactIPCountryMap) :
  map_inv m →
  let f1 := exact_find_pure ipNum m in
  let f2 := exact_find_pure ipNum
              (ExactEngine.set_mu Unlocked (ExactEngine.set_cache f1.2 m)) in
  served_twice (f1.1.1.2, f1.1.2) (f2.1.1.2, f2.1.2)
    (ExactEngine.cache m) f1.2 f2.2 ipNum
    (ExactEngine.ipMap m !! ipNum = None).
Proof.
  intros Hinv f1 f2.
  destruct (exact_find_pure_cached ipNum m Hinv) as (e & He & Hv). fold f1 in He, Hv.
  assert (f2 = (if negb (found (exact_entry (ExactEngine.ipMap m) ipNum))
                then (EmptyString, EmptyString, Some ErrNotFoundCached)
                else (country (exact_entry (ExactEngine.ipMap m) ipNum),
                      code (exact_entry (ExactEngine.ipMap m) ipNum), None),
                (get f1.2 ipNum).1)) as Hf2.
  { unfold f2, exact_find_pure at 1. simpl. rewrite He. by rewrite Hv. }
  rewrite Hf2. unfold served_twice. simpl.
  destruct (get_counters f1.2 ipNum) as [Hhit _].
  destruct Hhit as [Hh Hm]; [by eexists|].
  assert (f1.1 = (if negb (found (exact_entry (ExactEngine.ipMap m) ipNum))
                  then (EmptyString, EmptyString, Some ErrNotFound)
                  else (country (exact_entry (ExactEngine.ipMap m) ipNum),
                        code (exact_entry (ExactEngine.ipMap m) ipNum), None))
          ∨ f1.1 = (if negb (found (exact_entry (ExactEngine.ipMap m) ipNum))
                    then (EmptyString, EmptyString, Some ErrNotFoundCached)
                    else (country (exact_entry (ExactEngine.ipMap m) ipNum),
                          code (exact_entry (ExactEngine.ipMap m) ipNum), None))) as Hres.
  { unfold f1, exact_find_pure.
    destruct (items (ExactEngine.cache m) !! ipNum) as [e'|] eqn:Hk; simpl.
    - right. by rewrite (minv_coherent m Hinv ipNum e' Hk).
    - left. unfold exact_entry. by destruct (ExactEngine.ipMap m !! ipNum). }
  unfold exact_entry in *.
  destruct (ExactEngine.ipMap m !! ipNum) as [c|] eqn:Hmap; simpl in *.
  - destruct Hres as [-> | ->]; simpl; repeat split; try done;
      intros Hb; rewrite Hh; by apply atomic_AddInt64_succ.
  - split; [by destruct Hres as [-> | ->]|]. split; [by destruct Hres as [-> | ->]|].
    split; [destruct Hres as [-> | ->]; auto|]. split; [done|].
    split; [intros Hb; rewrite Hh; by apply atomic_AddInt64_succ|]. split; [done|].
    intros Hk _. unfold f1, exact_find_pure. rewrite Hk. unfold exact_entry. rewrite Hmap.
    simpl.
    destruct (get_counters (ExactEngine.cache m) ipNum) as [_ Hmiss].
    destruct (Hmiss Hk) as [Hh0 Hm0].
    destruct (put_counters (get (ExactEngine.cache m) ipNum).1 ipNum
                {| ip := ipNum; country := EmptyString; code := EmptyString;
                   found := false |}) as [-> ->].
    rewrite put_get. repeat split; try done.
    intros Hb. rewrite Hm0. by apply atomic_AddInt64_succ.
Qed.

(** X21. For an engine of either kind that is initialized and holds no
    stored initialization error, and an address, two
    lookups in a row return the same code and agree on found versus
    not-found (the not-found error of a lookup answered by the cache reads
    "country not found for IP (cached miss)"); the second lookup is served
    from the cache: it adds one to the hit counter and leaves the miss
    counter alone.  The first lookup of an address that is neither cached
    nor matched adds one to the miss counter and records a negative entry. *)
Theorem lookups_cache_transparent {go_text : GoText} {go_sort : SortSlice}
    (db : RangeEngine.IPCountryDB) (m : ExactEngine.ExactIPCountryMap)
    (ctx1 ctx2 : Context) (w1 w2 : World) (ipStr : string) (ipNum : Z) :
  reachable db → RangeEngine.initialized db = 1 → RangeEngine.initErr db = None →
  mreachable m → ExactEngine.initialized m = 1 → ExactEngine.initErr m = None →
  parseIP ipStr = Ok ipNum →
  (∃ r1 db1 r2 db2,
     RangeEngine.GetCountryCodeWithContext ctx1 w1 ipStr db = Done r1 db1
     ∧ RangeEngine.GetCountryCodeWithContext ctx2 w2 ipStr db1 = Done r2 db2
     ∧ RangeEngine.ranges db2 = RangeEngine.ranges db
     ∧ served_twice r1 r2 (RangeEngine.cache db) (RangeEngine.cache db1)
         (RangeEngine.cache db2) ipNum
         (linear_scan (RangeEngine.ranges db) ipNum = None))
  ∧ (∃ r1 m1 r2 m2,
     ExactEngine.GetCountryCodeWithContext ctx1 w1 ipStr m = Done r1 m1
     ∧ ExactEngine.GetCountryCodeWithContext ctx2 w2 ipStr m1 = Done r2 m2
     ∧ ExactEngine.ipMap m2 = ExactEngine.ipMap m
     ∧ served_twice r1 r2 (ExactEngine.cache m) (ExactEngine.cache m1)
         (ExactEngine.cache m2) ipNum
         (ExactEngine.ipMap m !! ipNum = None)).
Proof.
  intros Hdb Hi He Hm Hmi Hme Hparse.
  apply reachable_inv in Hdb. apply mreachable_inv in Hm. split.
  - rewrite GetCountryCodeWithContext_eq, initializeWithContext_ready, He, Hparse by done.
    rewrite (inv_mu db Hdb). cbn [RWMutex_RLock RWMutex_RUnlock].
    eexists _, _, _, _. split; [done|].
    rewrite GetCountryCodeWithContext_eq, initializeWithContext_ready by done.
    cbn [RangeEngine.initErr RangeEngine.set_mu RangeEngine.set_cache RangeEngine.mu].
    rewrite He, Hparse. cbn [RWMutex_RLock RWMutex_RUnlock].
    split; [done|]. split; [done|].
    apply (find_pure_twice ipNum db Hdb).
  - rewrite exact_GetCountryCodeWithContext_eq, exact_initializeWithContext_ready, Hme, Hparse
      by done.
    rewrite (minv_mu m Hm). cbn [RWMutex_RLock RWMutex_RUnlock].
    eexists _, _, _, _. split; [done|].
    rewrite exact_GetCountryCodeWithContext_eq, exact_initializeWithContext_ready by done.
    cbn [ExactEngine.initErr ExactEngine.set_mu ExactEngine.set_cache ExactEngine.mu].
    rewrite Hme, Hparse. cbn [RWMutex_RLock RWMutex_RUnlock].
    split; [done|]. split; [done|].
    apply (exact_find_pure_twice ipNum m Hm).
Qed.

Lemma lookups_cache_transparent_witness :
  let db := outcome_state (RangeEngine.GetCountryCode example_world "1.0.1.15"
                             (RangeEngine.NewIPCountryDB "ip_to_country.csv" [])) in
  let m := outcome_state (ExactEngine.GetCountryCode example_exact_world "1.1.1.1"
                            (ExactEngine.NewExactIPCountryMap "ips.csv" [])) in
  ∃ r1 db1 r2 db2,
    RangeEngine.GetCountryCodeWithContext context_Background example_world "9.9.9.9" db
      = Done r1 db1
    ∧ RangeEngine.GetCountryCodeWithContext context_Background example_world "9.9.9.9" db1
      = Done r2 db2
    ∧ RangeEngine.ranges db2 = RangeEngine.ranges db
    ∧ served_twice r1 r2 (RangeEngine.cache db) (RangeEngine.cache db1)
        (RangeEngine.cache db2) 151587081
        (linear_scan (RangeEngine.ranges db) 151587081 = None).
Proof.
  intros db m.
  assert (reachable db) as Hdb.
  { apply (reach_GetCountryCode (RangeEngine.NewIPCountryDB "ip_to_country.csv" [])
             context_Background example_world "1.0.1.15" ("CN", None) db);
      [apply reach_New|by vm_compute]. }
  assert (mreachable m) as Hm.
  { apply (mreach_GetCountryCode (ExactEngine.NewExactIPCountryMap "ips.csv" [])
             context_Background example_exact_world "1.1.1.1" ("US", None) m);
      [apply mreach_New|by vm_compute]. }
  apply (lookups_cache_transparent db m context_Background context_Background
           example_world example_world "9.9.9.9" 151587081 Hdb);
    [by vm_compute|by vm_compute|done|by vm_compute|by vm_compute|by vm_compute].
Defined.

(** C7 (the code does not do this in every initialized state).  An
    engine whose first load failed and whose second load succeeded is
    initialized and holds the error of the first attempt (the defect of
    C3).  In that state no lookup reaches the cache: two lookups of the
    unmatched address 9.9.9.9 both return the stored error and the engine
    is exactly as before, so no miss and no hit is counted and no negative
    entry is recorded.  Here the data file is missing at the first lookup
    and present afterwards. *)
Theorem stale_error_bypasses_cache :
  let stale := ErrOpenFile (ErrOS "open ip_to_country.csv: no such file or directory") in
  let db0 := RangeEngine.NewIPCountryDB "ip_to_country.csv" [] in
  let o1 := RangeEngine.GetCountryCode missing_world "8.8.8.8" db0 in
  let db := outcome_state (RangeEngine.GetCountryCode example_world "8.8.8.8"
                             (outcome_state o1)) in
  let o3 := RangeEngine.GetCountryCode example_world "9.9.9.9" db in
  let o4 := RangeEngine.GetCountryCode example_world "9.9.9.9" (outcome_state o3) in
  let m0 := ExactEngine.NewExactIPCountryMap "ip_to_country.csv" [] in
  let p1 := ExactEngine.GetCountryCode missing_world "8.8.8.8" m0 in
  let m := outcome_state (ExactEngine.GetCountryCode example_exact_world "8.8.8.8"
                            (outcome_state p1)) in
  let p3 := ExactEngine.GetCountryCode example_exact_world "9.9.9.9" m in
  let p4 := ExactEngine.GetCountryCode example_exact_world "9.9.9.9" (outcome_state p3) in
  (reachable db
   ∧ RangeEngine.initialized db = 1 ∧ RangeEngine.initErr db = Some stale
   ∧ length (RangeEngine.ranges db) = 3%nat
   ∧ parseIP "9.9.9.9" = Ok 151587081
   ∧ linear_scan (RangeEngine.ranges db) 151587081 = None
   ∧ items (RangeEngine.cache db) !! 151587081 = None
   ∧ getStats (RangeEngine.cache db) = (0, 1)
   ∧ o3 = Done (EmptyString, Some (ErrInitFailed stale)) db
   ∧ o4 = Done (EmptyString, Some (ErrInitFailed stale)) db)
  ∧ (mreachable m
     ∧ ExactEngine.initialized m = 1 ∧ ExactEngine.initErr m = Some stale
     ∧ size (ExactEngine.ipMap m) = 2%nat
     ∧ ExactEngine.ipMap m !! 151587081 = None
     ∧ items (ExactEngine.cache m) !! 151587081 = None
     ∧ getStats (ExactEngine.cache m) = (0, 1)
     ∧ p3 = Done (EmptyString, Some (ErrInitFailed stale)) m
     ∧ p4 = Done (EmptyString, Some (ErrInitFailed stale)) m).
Proof.
  intros stale db0 o1 db o3 o4 m0 p1 m p3 p4. split.
  - split.
    { apply (reach_GetCountryCode (outcome_state o1) context_Background example_world
               "8.8.8.8" ("US", None) db); [|by vm_compute].
      apply (reach_GetCountryCode db0 context_Background missing_world "8.8.8.8"
               (EmptyString, Some (ErrInitFailed stale)) (outcome_state o1));
        [apply reach_New|by vm_compute]. }
    vm_compute. repeat split; reflexivity.
  - split.
    { apply (mreach_GetCountryCode (outcome_state p1) context_Background example_exact_world
               "8.8.8.8" ("AU", None) m); [|by vm_compute].
      apply (mreach_GetCountryCode m0 context_Background missing_world "8.8.8.8"
               (EmptyString, Some (ErrInitFailed stale)) (outcome_state p1));
        [apply mreach_New|by vm_compute]. }
    vm_compute. repeat split; reflexivity.
Qed.

(** ** Claims about the validators *)

(** C8 as stated fails.  The engine's validateRanges accepts a range
    whose start is above its end and whose code is empty; and the exported
    ValidateIPRanges reports a range with an empty code by its index only:
    two ranges with different bounds get the same error. *)
Lemma validators_differ_from_claim :
  let rs := [mkIPRange EmptyString EmptyString 5 3] in
  (sorted_by_start rs
   ∧ validateRanges rs = None
   ∧ ¬ (Forall range_ok rs ∧ non_overlapping rs))
  ∧ ValidateIPRanges [mkIPRange EmptyString EmptyString 1 2]
    = Some (ErrInvalidRangeAt 0 ErrEmptyCode)
  ∧ ValidateIPRanges [mkIPRange EmptyString EmptyString 7 9]
    = Some (ErrInvalidRangeAt 0 ErrEmptyCode).
Proof.
  split; [split; [|split]|split].
  - apply (adjacent_short (λ a b, StartIP a ≤ StartIP b)). simpl. lia.
  - done.
  - intros [Hok _]. apply Forall_inv in Hok. destruct Hok as [Hle _]. simpl in Hle. lia.
  - by vm_compute.
  - by vm_compute.
Qed.

(** C8, amended. For a sequence sorted ascending by start, the exported
    ValidateIPRanges accepts it exactly when every range has
    [start <= end] and a non-empty code and every adjacent pair has
    [end < next start]; otherwise it returns the first violation in its
    scan order over the sorted copy: an ill-formed range is reported with
    its index (and its bounds when [start > end]), an overlapping pair
    with the bounds of both ranges.  The engine's validateRanges checks
    adjacent pairs only: it accepts exactly when no adjacent pair overlaps
    and otherwise reports the first overlapping pair by its bounds. *)
Theorem range_validators_correct {go_sort : SortSlice} (rs : list IPRange) :
  sorted_by_start rs →
  (ValidateIPRanges rs = None ↔ Forall range_ok rs ∧ non_overlapping rs)
  ∧ (∀ err, ValidateIPRanges rs = Some err →
       ∃ (j : nat) current,
         sort_by_start rs !! j = Some current
         ∧ Forall range_ok (take j (sort_by_start rs))
         ∧ non_overlapping (take j (sort_by_start rs))
         ∧ ((EndIP current < StartIP current
             ∧ err = ErrInvalidRangeAt j (ErrInvalidRange (StartIP current) (EndIP current)))
            ∨ (StartIP current ≤ EndIP current ∧ Code current = EmptyString
               ∧ err = ErrInvalidRangeAt j ErrEmptyCode)
            ∨ (range_ok current
               ∧ ∃ (i : nat) previous,
                   j = S i ∧ sort_by_start rs !! i = Some previous
                   ∧ StartIP current ≤ EndIP previous
                   ∧ err = ErrOverlapping (StartIP previous) (EndIP previous)
                             (StartIP current) (EndIP current))))
  ∧ (validateRanges rs = None ↔ non_overlapping rs)
  ∧ (∀ err, validateRanges rs = Some err →
       ∃ (i : nat) a b,
         rs !! i = Some a ∧ rs !! S i = Some b ∧ StartIP b ≤ EndIP a
         ∧ err = ErrOverlapDetected (StartIP a) (EndIP a) (StartIP b) (EndIP b)
         ∧ non_overlapping (take (S i) rs)).
Proof.
  intros Hs. split; [by apply ValidateIPRanges_None|].
  split; [|split; [apply validateRanges_None|apply validateRanges_Some]].
  intros err. rewrite ValidateIPRanges_unfold.
  destruct (sort_by_start rs) as [|first rest]; [done|].
  destruct (Validate first) as [e|] eqn:Hv.
  - intros [= <-]. exists 0%nat, first. split; [done|]. split; [constructor|].
    split; [apply (adjacent_short (λ a b, EndIP a < StartIP b)); simpl; lia|].
    apply Validate_Some in Hv as [[Hlt ->]|(Hle & Hc & ->)]; auto.
  - intros Hl. apply validate_loop_Some in Hl as (j & p & cur & Hp & Hcur & Hpre & Herr).
    apply validate_loop_None in Hpre as [Hok Hn]. apply Validate_None in Hv.
    exists (S j), cur. split; [done|]. cbn [take]. split; [by constructor|].
    split; [done|]. destruct Herr as [(e & He & ->)|(Hvc & Hle & ->)].
    + apply Validate_Some in He as [[Hlt ->]|(Hle & Hc & ->)]; auto.
    + right. right. split; [by apply Validate_None|]. by exists j, p.
Qed.

Lemma range_validators_correct_witness :
  sorted_by_start (RangeEngine.ranges example_db)
  ∧ ValidateIPRanges (RangeEngine.ranges example_db) = None.
Proof.
  split; [apply example_db_sorted|].
  destruct (range_validators_correct (RangeEngine.ranges example_db) example_db_sorted)
    as [Hiff _].
  apply Hiff. split; [|apply example_db_disjoint].
  rewrite Forall_forall. intros r Hr. by apply (inv_mirror _ example_db_inv).
Defined.

(** ** Claims about loading *)

(** C3 (the code does not do this). A failed load stores the error but
    leaves the engine uninitialized, so the next lookup runs the load
    pipeline again; when that load succeeds the stored error is not
    cleared, and every later lookup, matched or not, fails with the error
    of the first attempt.  Here the data file is missing at the first
    lookup and present afterwards. *)
Theorem init_error_not_sticky :
  let stale := ErrOpenFile (ErrOS "open ip_to_country.csv: no such file or directory") in
  let db0 := RangeEngine.NewIPCountryDB "ip_to_country.csv" [] in
  let o1 := RangeEngine.GetCountryCode missing_world "8.8.8.8" db0 in
  let o2 := RangeEngine.GetCountryCode example_world "8.8.8.8" (outcome_state o1) in
  let o3 := RangeEngine.GetCountryCode example_world "8.8.8.8" (outcome_state o2) in
  let o4 := RangeEngine.GetCountryCode example_world "9.9.9.9" (outcome_state o3) in
  let m0 := ExactEngine.NewExactIPCountryMap "ip_to_country.csv" [] in
  let p1 := ExactEngine.GetCountryCode missing_world "8.8.8.8" m0 in
  let p2 := ExactEngine.GetCountryCode example_exact_world "8.8.8.8" (outcome_state p1) in
  let p3 := ExactEngine.GetCountryCode example_exact_world "8.8.8.8" (outcome_state p2) in
  (∃ s, o1 = Done (EmptyString, Some (ErrInitFailed stale)) s
        ∧ RangeEngine.initialized s = 0 ∧ RangeEngine.initErr s = Some stale)
  ∧ (∃ s, o2 = Done ("US", None) s
          ∧ RangeEngine.initialized s = 1 ∧ RangeEngine.initErr s = Some stale)
  ∧ (∃ s, o3 = Done (EmptyString, Some (ErrInitFailed stale)) s)
  ∧ (∃ s, o4 = Done (EmptyString, Some (ErrInitFailed stale)) s)
  ∧ (∃ s, p1 = Done (EmptyString, Some (ErrInitFailed stale)) s
          ∧ ExactEngine.initialized s = 0)
  ∧ (∃ s, p2 = Done ("AU", None) s ∧ ExactEngine.initErr s = Some stale)
  ∧ (∃ s, p3 = Done (EmptyString, Some (ErrInitFailed stale)) s).
Proof.
  vm_compute. repeat split; eexists; repeat split; reflexivity.
Qed.

(** C4 (the code does not do this for the exact engine).  The exact
    engine writes its map while it scans: when the scan ends in an error,
    or the context is cancelled between two lines, the load fails and the
    entries read so far stay in the map. *)
Theorem exact_failed_load_keeps_entries :
  let m0 := ExactEngine.NewExactIPCountryMap "ips.csv" [] in
  let o1 := ExactEngine.GetCountryCode truncated_world "1.1.1.1" m0 in
  let o2 := ExactEngine.GetCountryCodeWithContext cancelled_after_first
              example_exact_world "1.1.1.1" m0 in
  (∃ s, o1 = Done (EmptyString, Some (ErrInitFailed
                               (ErrScanner (ErrOS "bufio.Scanner: token too long")))) s
        ∧ ExactEngine.initialized s = 0
        ∧ ExactEngine.ipMap s !! 16843009 = Some "US"
        ∧ ExactEngine.ipMap s !! 134744072 = Some "AU")
  ∧ (∃ s, o2 = Done (EmptyString, Some (ErrInitFailed (ErrContext "context canceled"))) s
          ∧ ExactEngine.initialized s = 0
          ∧ ExactEngine.ipMap s !! 16843009 = Some "US"
          ∧ size (ExactEngine.ipMap s) = 1%nat).
Proof.
  vm_compute. repeat split; eexists; repeat split; reflexivity.
Qed.

(** The range engine commits nothing on a failed load: whatever step
    fails, only [initErr] changes, and the ranges of an uninitialized
    engine are empty. *)
Lemma range_failed_load_empty {go_text : GoText} {go_sort : SortSlice}
    (ctx : Context) (w : World) (db db' : RangeEngine.IPCountryDB) (e : error) :
  db_inv db → RangeEngine.initialized db ≠ 1 →
  RangeEngine.initializeWithContext ctx w db = Done (Some e) db' →
  db' = RangeEngine.set_initErr (Some e) db ∧ RangeEngine.ranges db' = [].
Proof.
  intros Hinv Hi. rewrite initializeWithContext_load by (done || apply Hinv).
  destruct (load_result db ctx w) as [[rs st]|err]; [done|].
  intros [= <- <-]. split; [done|]. apply (inv_uninit db Hinv Hi).
Qed.



(** * Further properties *)

(** ** The cache refines a recency list *)

Lemma list_MoveToFront_eq (e : nat) (l : list nat) :
  NoDup l → e ∈ l → list_MoveToFront e l = e :: list_Remove e l.
Proof.
  intros Hnd Hin. unfold list_MoveToFront.
  rewrite (bool_decide_eq_false_2 (e ∉ l)) by (by intros Hc). simpl.
  destruct (bool_decide (head l = Some e)) eqn:Hh; [|done].
  apply bool_decide_eq_true in Hh. destruct l as [|x l]; [done|].
  simpl in Hh. injection Hh as ->. apply NoDup_cons in Hnd as [Hx _].
  unfold list_Remove. rewrite filter_cons.
  destruct (decide (e ≠ e)) as [Hc|_]; [done|].
  f_equal. symmetry. by apply list_Remove_notin.
Qed.

Lemma list_Remove_last (e : nat) (l : list nat) :
  NoDup l → last l = Some e → list_Remove e l = removelast l.
Proof.
  intros Hnd Hl. apply last_Some in Hl as [l' ->].
  apply NoDup_app in Hnd as (_ & Hdis & _).
  rewrite removelast_last. unfold list_Remove. rewrite filter_app.
  rewrite filter_cons. destruct (decide (e ≠ e)) as [Hc|_]; [done|].
  rewrite filter_nil, app_nil_r.
  apply (list_Remove_notin e l'). intros Hin. apply (Hdis e Hin). by left.
Qed.

Section CacheView.
Variable c : lruCache.
Hypothesis Hwf : cache_wf c.

Lemma wf_key_inj (x y : nat) :
  x ∈ evictList c → y ∈ evictList c → key (deref c x) = key (deref c y) → x = y.
Proof.
  intros Hx Hy Heq.
  assert (items c !! key (deref c x) = Some x) as H1 by by apply (wf_index c Hwf).
  assert (items c !! key (deref c x) = Some y) as H2 by by apply (wf_index c Hwf).
  congruence.
Qed.

Lemma assoc_fmap_Some (l : list nat) (k : Z) (e : nat) :
  e ∈ l → key (deref c e) = k →
  (∀ x, x ∈ l → key (deref c x) = k → x = e) →
  assoc k ((λ x, (key (deref c x), value (deref c x))) <$> l) = Some (value (deref c e)).
Proof.
  unfold assoc. induction l as [|x l IH]; intros Hin Hk Huniq.
  - by apply elem_of_nil in Hin.
  - rewrite fmap_cons. cbn [List.find fst]. destruct (Z.eqb_spec (key (deref c x)) k) as [Hx|Hx].
    + rewrite (Huniq x) by (done || by left). done.
    + apply elem_of_cons in Hin as [->|Hin]; [done|].
      apply IH; [done|done|]. intros y Hy. apply Huniq. by right.
Qed.

Lemma assoc_fmap_None (l : list nat) (k : Z) :
  (∀ x, x ∈ l → key (deref c x) ≠ k) →
  assoc k ((λ x, (key (deref c x), value (deref c x))) <$> l) = None.
Proof.
  unfold assoc. induction l as [|x l IH]; intros Hno; [done|].
  rewrite fmap_cons. cbn [List.find fst].
  destruct (Z.eqb_spec (key (deref c x)) k) as [Hx|Hx].
  - destruct (Hno x); [by left|done].
  - apply IH. intros y Hy. apply Hno. by right.
Qed.

(** The index and the recency list bind the same keys to the same values. *)
Lemma assoc_cache_view (k : Z) :
  assoc k (cache_view c) = (λ e, value (deref c e)) <$> items c !! k.
Proof.
  unfold cache_view. destruct (items c !! k) as [e|] eqn:Hk; simpl.
  - apply (wf_index c Hwf) in Hk as [He Hke].
    apply assoc_fmap_Some; [done|done|].
    intros x Hx Hkx. apply wf_key_inj; [done|done|congruence].
  - apply assoc_fmap_None. intros x Hx Hkx.
    assert (items c !! k = Some x) as Hc by by apply (wf_index c Hwf). congruence.
Qed.

Lemma view_Remove (l : list nat) (k : Z) (e : nat) :
  (∀ x, x ∈ l → key (deref c x) = k ↔ x = e) →
  (λ x, (key (deref c x), value (deref c x))) <$> list_Remove e l
  = filter (λ p, p.1 ≠ k) ((λ x, (key (deref c x), value (deref c x))) <$> l).
Proof.
  unfold list_Remove. induction l as [|x l IH]; intros Hiff; [done|].
  rewrite fmap_cons, !filter_cons. cbn [fst].
  assert (key (deref c x) = k ↔ x = e) as Hx by (apply Hiff; by left).
  assert (∀ y, y ∈ l → key (deref c y) = k ↔ y = e) as Hl
    by (intros y Hy; apply Hiff; by right).
  destruct (decide (x ≠ e)) as [Hne|Heq], (decide (key (deref c x) ≠ k)) as [Hkne|Hkeq].
  - rewrite fmap_cons. f_equal. by apply IH.
  - apply dec_stable in Hkeq. by apply Hx in Hkeq.
  - apply dec_stable in Heq. by apply Hx in Heq.
  - by apply IH.
Qed.

Lemma get_view (k : Z) :
  (cache_view (get c k).1, hits (get c k).1, misses (get c k).1)
  = recency_step (capacity c) (cache_view c, hits c, misses c) (OpGet k).
Proof.
  cbn [recency_step]. rewrite assoc_cache_view. unfold get.
  destruct (items c !! k) as [e|] eqn:Hk; simpl; [|done].
  destruct (proj1 (wf_index c Hwf k e) Hk) as [He Hke].
  unfold cache_view. simpl. rewrite list_MoveToFront_eq by (done || apply Hwf).
  rewrite fmap_cons. unfold deref at 1 2 3 4. simpl. fold (deref c e).
  rewrite Hke. do 2 f_equal. f_equal.
  rewrite <- (view_Remove (evictList c) k e); [done|].
  intros x Hx. split; [|by intros ->].
  intros Hkx. apply wf_key_inj; [done|done|congruence].
Qed.

Lemma put_view (k : Z) (v : cacheEntry) :
  (cache_view (put c k v), hits (put c k v), misses (put c k v))
  = recency_step (capacity c) (cache_view c, hits c, misses c) (OpPut k v).
Proof.
  cbn [recency_step]. rewrite assoc_cache_view. unfold put.
  destruct (items c !! k) as [e|] eqn:Hk; simpl.
  - destruct (proj1 (wf_index c Hwf k e) Hk) as [He Hke].
    unfold cache_view. simpl. rewrite list_MoveToFront_eq by (done || apply Hwf).
    rewrite fmap_cons.
    assert (∀ (a b : Z * cacheEntry) l1 l2, a = b → l1 = l2 →
              (a :: l1, hits c, misses c) = (b :: l2, hits c, misses c)) as Hcong
      by (by intros a b l1 l2 -> ->).
    apply Hcong.
    { unfold deref. simpl. rewrite lookup_insert_eq. simpl. fold (deref c e).
      by rewrite Hke. }
    rewrite <- (view_Remove (evictList c) k e).
    + apply list_fmap_ext. intros i x Hx.
      apply list_elem_of_lookup_2, list_Remove_elem_of in Hx as [Hxe _].
      unfold deref. simpl. by rewrite lookup_insert_ne.
    + intros x Hx. split; [|by intros ->].
      intros Hkx. apply wf_key_inj; [done|done|congruence].
  - set (c1 := if Z.of_nat (length (evictList c)) >=? capacity c
               then removeOldest c else c).
    assert (cache_wf c1) as Hwf1.
    { unfold c1. destruct (_ >=? _); [by apply removeOldest_wf|done]. }
    assert (cache_view c1
            = if Z.of_nat (length (evictList c)) >=? capacity c
              then removelast (cache_view c) else cache_view c) as Hv1.
    { unfold c1. destruct (_ >=? _); [|done]. unfold removeOldest, cache_view.
      destruct (last (evictList c)) as [e|] eqn:Hl; simpl.
      - rewrite list_Remove_last by (done || apply Hwf).
        apply last_Some in Hl as [l' Hl']. rewrite Hl'.
        by rewrite fmap_app, fmap_cons, fmap_nil, !removelast_last.
      - apply last_None in Hl. by rewrite Hl. }
    unfold cache_view at 2. rewrite length_fmap. rewrite <- Hv1.
    unfold cache_view. simpl.
    assert (∀ (a b : Z * cacheEntry) l1 l2, a = b → l1 = l2 →
              (a :: l1, hits c1, misses c1) = (b :: l2, hits c, misses c)) as Hcong.
    { intros a b l1 l2 -> ->. unfold c1, removeOldest.
      destruct (_ >=? _); [|done]. by destruct (last (evictList c)). }
    apply Hcong.
    { unfold deref. simpl. by rewrite lookup_insert_eq. }
    apply list_fmap_ext. intros i x Hx.
    apply list_elem_of_lookup_2 in Hx. apply (wf_alloc c1 Hwf1) in Hx as [Hx _].
    unfold deref. simpl. by rewrite lookup_insert_ne by lia.
Qed.

Lemma step_view (op : cache_op) :
  (cache_view (cache_step c op), hits (cache_step c op), misses (cache_step c op))
  = recency_step (capacity c) (cache_view c, hits c, misses c) op.
Proof.
  destruct op as [k|k v|]; [apply get_view|apply put_view|done].
Qed.

Lemma step_capacity (op : cache_op) : capacity (cache_step c op) = capacity c.
Proof.
  destruct op as [k|k v|]; [apply get_capacity|apply put_capacity|done].
Qed.

End CacheView.

Lemma run_view (ops : list cache_op) (c : lruCache) :
  cache_wf c →
  (cache_view (cache_run c ops), hits (cache_run c ops), misses (cache_run c ops))
  = foldl (recency_step (capacity c)) (cache_view c, hits c, misses c) ops.
Proof.
  revert c. induction ops as [|op ops IH]; intros c Hwf; [done|].
  cbn [cache_run foldl]. fold (cache_run (cache_step c op) ops).
  rewrite IH by by apply cache_step_wf.
  by rewrite step_view, step_capacity.
Qed.

(** X1. The pointer structure of the cache (index map, linked list of
    elements, items behind the elements) implements a recency list: after
    any sequence of calls on a new cache of any capacity, its bindings in
    list order and its two counters are those obtained by running the
    calls on a plain association list, and [get] returns the binding the
    list holds for the key. *)
Theorem lru_refines_recency_list (cap : Z) (ops : list cache_op) (k : Z) :
  let c := cache_run (newLRUCache cap) ops in
  (cache_view c, hits c, misses c) = foldl (recency_step cap) ([], 0, 0) ops
  ∧ (get c k).2 = match assoc k (cache_view c) with
                  | Some v => (v, true)
                  | None => (cacheEntry_zero, false)
                  end.
Proof.
  intros c. split.
  - apply (run_view ops (newLRUCache cap)), newLRUCache_wf.
  - assert (cache_wf c) as Hwf by apply cache_run_wf, newLRUCache_wf.
    rewrite (assoc_cache_view c Hwf). unfold get. by destruct (items c !! k).
Qed.

Lemma cache_run_snoc (c : lruCache) (ops : list cache_op) (op : cache_op) :
  cache_run c (ops ++ [op]) = cache_step (cache_run c ops) op.
Proof. unfold cache_run. by rewrite foldl_snoc. Qed.

Lemma gets_since_clear_snoc (ops : list cache_op) (op : cache_op) :
  gets_since_clear (ops ++ [op])
  = match op with
    | OpGet _ => S (gets_since_clear ops)
    | OpPut _ _ => gets_since_clear ops
    | OpClear => 0%nat
    end.
Proof. unfold gets_since_clear. by rewrite foldl_snoc. Qed.

Lemma gets_since_clear_le (ops : list cache_op) :
  (gets_since_clear ops ≤ length ops)%nat.
Proof.
  induction ops as [|op ops IH] using rev_ind; [done|].
  rewrite gets_since_clear_snoc, length_app. simpl. destruct op; lia.
Qed.

(** X2. The two counters of the cache count the [get] calls: as long as
    fewer than [2^63] calls were made, after any sequence of calls on a new
    cache the hits and the misses are non-negative and add up to the
    number of [get] calls made since the last [clear]; [put] never counts. *)
Theorem lru_counters_count_gets (cap : Z) (ops : list cache_op) :
  Z.of_nat (length ops) < 2 ^ 63 →
  let c := cache_run (newLRUCache cap) ops in
  0 ≤ hits c ∧ 0 ≤ misses c
  ∧ hits c + misses c = Z.of_nat (gets_since_clear ops).
Proof.
  induction ops as [|op ops IH] using rev_ind; intros Hlen c; [done|].
  rewrite length_app in Hlen. simpl in Hlen.
  destruct IH as (Hh & Hm & Hsum); [lia|].
  pose proof (gets_since_clear_le ops) as Hle.
  unfold c. rewrite cache_run_snoc, gets_since_clear_snoc.
  set (c0 := cache_run (newLRUCache cap) ops) in *.
  destruct op as [k|k v|]; cbn [cache_step].
  - destruct (get_counters c0 k) as [Hhit Hmiss].
    destruct (items c0 !! k) as [e|] eqn:Hk.
    + destruct Hhit as [-> ->]; [by eexists|].
      rewrite atomic_AddInt64_succ by lia. lia.
    + destruct Hmiss as [-> ->]; [done|].
      rewrite atomic_AddInt64_succ by lia. lia.
  - destruct (put_counters c0 k v) as [-> ->]. done.
  - simpl. lia.
Qed.

Lemma lru_counters_count_gets_witness :
  let c := cache_run (newLRUCache 2)
             [OpGet 1; OpPut 1 cacheEntry_zero; OpGet 1; OpGet 2] in
  hits c + misses c = 3.
Proof.
  intros c.
  apply (lru_counters_count_gets 2
           [OpGet 1; OpPut 1 cacheEntry_zero; OpGet 1; OpGet 2]).
  by vm_compute.
Defined.

(** A recency list of at most one binding, under a capacity of at most
    one. *)
Lemma recency_step_short (cap : Z) (l : list (Z * cacheEntry)) (h m : Z) (op : cache_op) :
  cap ≤ 1 → (length l ≤ 1)%nat →
  (length (recency_step cap (l, h, m) op).1.1 ≤ 1)%nat
  ∧ ∀ k v, op = OpPut k v → (recency_step cap (l, h, m) op).1.1 = [(k, v)].
Proof.
  intros Hcap Hl. destruct l as [|[k0 v0] [|p l]]; [| |simpl in Hl; lia].
  - destruct op as [k|k v|]; simpl.
    + split; [lia|done].
    + split; [destruct (_ >=? _); simpl; lia|].
      intros k' v' [= <- <-]. by destruct (_ >=? _).
    + split; [lia|done].
  - destruct op as [k|k v|]; unfold recency_step, assoc;
      cbn [List.find fst fmap option_fmap option_map snd].
    + destruct (Z.eqb_spec k0 k) as [->|Hne]; simpl; [|split; [lia|done]].
      rewrite filter_cons. destruct (decide _) as [Hc|_]; [done|].
      rewrite filter_nil. simpl. split; [lia|done].
    + destruct (Z.eqb_spec k0 k) as [->|Hne]; simpl.
      * rewrite filter_cons. destruct (decide _) as [Hc|_]; [done|].
        rewrite filter_nil. simpl. split; [lia|]. by intros k' v' [= <- <-].
      * change (Z.of_nat 1) with 1. rewrite (proj2 (Z.geb_le 1 cap)) by lia. simpl.
        split; [lia|]. by intros k' v' [= <- <-].
    + simpl. split; [lia|done].
Qed.

Lemma recency_run_short (cap : Z) (ops : list cache_op) :
  cap ≤ 1 → (length (foldl (recency_step cap) ([], 0%Z, 0%Z) ops).1.1 ≤ 1)%nat.
Proof.
  intros Hcap. induction ops as [|op ops IH] using rev_ind; [simpl; lia|].
  rewrite foldl_snoc.
  destruct (foldl (recency_step cap) ([], 0, 0) ops) as [[l h] m].
  by apply recency_step_short.
Qed.

(** X3. A cache created with capacity 1, 0 or a negative number keeps
    exactly the binding put last: whatever calls came before, after
    [put k v] the cache holds the single binding [(k, v)], and [get k]
    returns [v]. *)
Theorem lru_capacity_at_most_one (cap : Z) (ops : list cache_op) (k : Z) (v : cacheEntry) :
  cap ≤ 1 →
  let c := cache_run (newLRUCache cap) (ops ++ [OpPut k v]) in
  cache_view c = [(k, v)] ∧ length (evictList c) = 1%nat ∧ (get c k).2 = (v, true).
Proof.
  intros Hcap c.
  assert (cache_view c = [(k, v)]) as Hview.
  { pose proof (run_view (ops ++ [OpPut k v]) (newLRUCache cap) (newLRUCache_wf cap)) as Hrun.
    fold c in Hrun. simpl in Hrun.
    change (cache_view (newLRUCache cap)) with (@nil (Z * cacheEntry)) in Hrun.
    rewrite foldl_snoc in Hrun.
    pose proof (recency_run_short cap ops Hcap) as Hshort.
    destruct (foldl (recency_step cap) ([], 0, 0) ops) as [[l h] m].
    destruct (recency_step_short cap l h m (OpPut k v) Hcap Hshort) as [_ Hput].
    apply (f_equal (λ x, x.1.1)) in Hrun. simpl in Hrun.
    rewrite Hrun. by apply Hput. }
  split; [done|]. split.
  - unfold cache_view in Hview. apply (f_equal length) in Hview.
    by rewrite length_fmap in Hview.
  - unfold c. rewrite cache_run_snoc. apply put_get.
Qed.

Lemma lru_capacity_at_most_one_witness :
  let c := cache_run (newLRUCache 0)
             ([OpPut 1 cacheEntry_zero; OpPut 2 cacheEntry_zero] ++ [OpPut 3 cacheEntry_zero]) in
  0 ≤ 1 ∧ cache_view c = [(3, cacheEntry_zero)].
Proof.
  intros c. split; [lia|].
  apply (lru_capacity_at_most_one 0 [OpPut 1 cacheEntry_zero; OpPut 2 cacheEntry_zero]
           3 cacheEntry_zero).
  lia.
Defined.

(** ** parseIP on the addresses net.ParseIP returns *)

Lemma lor_shiftl_add (a b n : Z) :
  0 ≤ n → 0 ≤ b < 2 ^ n → Z.lor (Z.shiftl a n) b = a * 2 ^ n + b.
Proof.
  intros Hn Hb. rewrite Z.shiftl_mul_pow2 by done.
  assert (Z.land (a * 2 ^ n) b = 0) as Hland.
  { apply Z.bits_inj'. intros m Hm. rewrite Z.land_spec, Z.bits_0.
    destruct (Z.lt_ge_cases m n) as [Hlt|Hge].
    - by rewrite Z.mul_pow2_bits_low.
    - destruct (Z.eq_dec b 0) as [->|Hb0].
      + by rewrite Z.bits_0, andb_false_r.
      + rewrite (Z.bits_above_log2 b m), andb_false_r; [done|lia|].
        assert (Z.log2 b < n) by (apply Z.log2_lt_pow2; lia). lia. }
  by rewrite <- Z.lxor_lor, <- Z.add_nocarry_lxor.
Qed.

Lemma BigEndian_Uint32_value (a b c d : Z) :
  is_byte a → is_byte b → is_byte c → is_byte d →
  BigEndian_Uint32 [a; b; c; d] = a * 2 ^ 24 + b * 2 ^ 16 + c * 2 ^ 8 + d.
Proof.
  unfold is_byte, BigEndian_Uint32. intros Ha Hb Hc Hd.
  change ([a; b; c; d] !!! 0%nat) with a. change ([a; b; c; d] !!! 1%nat) with b.
  change ([a; b; c; d] !!! 2%nat) with c. change ([a; b; c; d] !!! 3%nat) with d.
  replace (Z.shiftl a 24) with (Z.shiftl (Z.shiftl a 8) 16)
    by (rewrite Z.shiftl_shiftl by lia; done).
  rewrite <- Z.shiftl_lor, (lor_shiftl_add a b 8) by lia.
  replace (Z.shiftl (a * 2 ^ 8 + b) 16) with (Z.shiftl (Z.shiftl (a * 2 ^ 8 + b) 8) 8)
    by (rewrite Z.shiftl_shiftl by lia; done).
  rewrite <- Z.shiftl_lor, (lor_shiftl_add (a * 2 ^ 8 + b) c 8) by lia.
  rewrite (lor_shiftl_add _ d 8) by lia. lia.
Qed.

(** X4. When [net.ParseIP] returns an IPv4 address, in four bytes or in
    the sixteen-byte mapped form, parseIP returns the big-endian number
    [a*2^24 + b*2^16 + c*2^8 + d] of its bytes, which fits in 32 bits, and
    two such addresses with the same number have the same bytes; a
    sixteen-byte address that is not IPv4-mapped is refused as "not an
    IPv4 address", without trying the decimal form. *)
Theorem parseIP_net_address {go_text : GoText} (s : string) (a b c d : Z) :
  is_byte a → is_byte b → is_byte c → is_byte d →
  (net_ParseIP s = Some [a; b; c; d] ∨ net_ParseIP s = Some (ipv4_mapped a b c d) →
     parseIP s = Ok (a * 2 ^ 24 + b * 2 ^ 16 + c * 2 ^ 8 + d)
     ∧ 0 ≤ a * 2 ^ 24 + b * 2 ^ 16 + c * 2 ^ 8 + d < 2 ^ 32)
  ∧ (∀ a' b' c' d', is_byte a' → is_byte b' → is_byte c' → is_byte d' →
       BigEndian_Uint32 [a; b; c; d] = BigEndian_Uint32 [a'; b'; c'; d'] →
       [a; b; c; d] = [a'; b'; c'; d'])
  ∧ (∀ addr, net_ParseIP s = Some addr → length addr = 16%nat →
       take 12 addr ≠ take 12 (ipv4_mapped a b c d) →
       parseIP s = Failed (ErrNotIPv4 s)).
Proof.
  intros Ha Hb Hc Hd. split; [|split].
  - intros Hnet. split; [|unfold is_byte in *; lia].
    unfold parseIP. destruct Hnet as [-> | ->]; cbn [IP_To4 ipv4_mapped];
      simpl; by rewrite BigEndian_Uint32_value.
  - intros a' b' c' d' Ha' Hb' Hc' Hd'. rewrite !BigEndian_Uint32_value by done.
    unfold is_byte in *. intros Heq.
    assert (a = a' ∧ b = b' ∧ c = c' ∧ d = d') as (-> & -> & -> & ->) by lia. done.
  - intros addr Hnet Hlen Hpre. unfold parseIP. rewrite Hnet.
    destruct (IP_To4 addr) as [ip4|] eqn:Hto4; [|done]. exfalso. apply Hpre.
    unfold IP_To4 in Hto4. rewrite Hlen in Hto4. simpl in Hto4.
    destruct (forallb (Z.eqb 0) (take 10 addr)) eqn:Hz; [|done].
    destruct (bool_decide (addr !! 10%nat = Some 255)) eqn:H10; [|done].
    destruct (bool_decide (addr !! 11%nat = Some 255)) eqn:H11; [|done].
    apply bool_decide_eq_true in H10, H11.
    do 16 (destruct addr as [|? addr]; [done|]). destruct addr; [|done].
    cbn [firstn forallb] in Hz. rewrite !andb_true_iff, !Z.eqb_eq in Hz.
    destruct Hz as (? & ? & ? & ? & ? & ? & ? & ? & ? & ? & _).
    cbn in H10, H11. by simplify_eq.
Qed.

Lemma parseIP_net_address_witness :
  is_byte 8 ∧ parseIP "8.8.8.8" = Ok (8 * 2 ^ 24 + 8 * 2 ^ 16 + 8 * 2 ^ 8 + 8).
Proof.
  assert (is_byte 8) as H8 by (unfold is_byte; lia).
  split; [done|].
  apply (parseIP_net_address "8.8.8.8" 8 8 8 8 H8 H8 H8 H8). right. by vm_compute.
Defined.

(** ** What the range parser returns *)
Section RangeParser.
Context {go_text : GoText} {go_sort : SortSlice}.
Import RangeEngine.

(** The loop appends to its accumulators: at most one range or one error
    per scanned line, errors carrying the number and the trimmed text of
    their line, and never more ranges than the configured maximum. *)
Lemma scan_loop_appends (db : IPCountryDB) (ctx : Context) (lines : list string)
    (lineNum : nat) (rs : list IPRange) (errors : list ParseError)
    (how : scan_end) (rs' : list IPRange) (errors' : list ParseError) :
  scan_loop db ctx lines lineNum rs errors = Ok (how, rs', errors') →
  ∃ rs1 errors1,
    rs' = rs ++ rs1 ∧ errors' = errors ++ errors1
    ∧ (length rs1 + length errors1 ≤ length lines)%nat
    ∧ Forall (λ e, (lineNum < Line e ≤ lineNum + length lines)%nat
                   ∧ parseLine db (Content e) = Failed (Err e)) errors1
    ∧ (0 < MaxRanges (config db) → Z.of_nat (length rs) < MaxRanges (config db) →
         Z.of_nat (length rs') ≤ MaxRanges (config db))
    ∧ (∀ n, (lineNum ≤ n < lineNum + length lines)%nat → how = ScanExhausted →
         ctx_Done ctx n = false).
Proof.
  revert lineNum rs errors.
  induction lines as [|text lines IH]; intros lineNum rs errors; cbn [scan_loop].
  - intros [= <- <- <-]. exists [], []. rewrite !app_nil_r.
    repeat split; try done; try lia. simpl. intros n Hn. lia.
  - destruct (ctx_Done ctx lineNum) eqn:Hdone; [done|].
    assert (∀ (rsa : list IPRange) (ea : list ParseError) (rs1 : list IPRange)
              (errors1 : list ParseError),
              (length rs1 + length errors1 ≤ length lines)%nat →
              Forall (λ e, (S lineNum < Line e ≤ S lineNum + length lines)%nat
                           ∧ parseLine db (Content e) = Failed (Err e)) errors1 →
              (length rsa + length ea ≤ 1)%nat →
              Forall (λ e, (lineNum < Line e ≤ lineNum + length (text :: lines))%nat
                           ∧ parseLine db (Content e) = Failed (Err e)) ea →
              (length (rsa ++ rs1) + length (ea ++ errors1) ≤ length (text :: lines))%nat
              ∧ Forall (λ e, (lineNum < Line e ≤ lineNum + length (text :: lines))%nat
                             ∧ parseLine db (Content e) = Failed (Err e))
                  (ea ++ errors1)) as Hcomb.
    { intros rsa ea rs1 errors1 Hlen Hall Hone Hea. rewrite !length_app. simpl.
      split; [lia|]. apply Forall_app. split; [done|].
      eapply Forall_impl; [exact Hall|]. simpl. intros e [Hl He]. split; [lia|done]. }
    assert (∀ n, (lineNum ≤ n < lineNum + length (text :: lines))%nat →
                 (∀ n', (S lineNum ≤ n' < S lineNum + length lines)%nat →
                        ctx_Done ctx n' = false) →
                 ctx_Done ctx n = false) as Hpoll.
    { intros n Hn Hrest. destruct (decide (n = lineNum)) as [->|Hne]; [done|].
      apply Hrest. simpl in Hn. lia. }
    destruct (_ || _).
    { intros Hscan. destruct (IH _ _ _ Hscan) as (rs1 & e1 & -> & -> & Hlen & Hall & Hmax & Hp).
      exists rs1, e1. split; [done|]. split; [done|].
      destruct (Hcomb [] [] rs1 e1 Hlen Hall) as [H1 H2]; [simpl; lia|constructor|].
      split; [exact H1|]. split; [exact H2|]. split; [done|].
      intros n Hn Hh. apply Hpoll; [done|]. intros n' Hn'. by apply Hp. }
    destruct (parseLine db (strings_TrimSpace text)) as [r|err] eqn:Hline.
    + destruct (_ && _) eqn:Hlim.
      * intros [= <- <- <-]. exists [r], []. rewrite app_nil_r.
        split; [done|]. split; [done|]. split; [simpl; lia|]. split; [constructor|].
        split; [|done]. intros Hpos Hlt.
        rewrite length_app, Nat2Z.inj_add. simpl. lia.
      * intros Hscan.
        destruct (IH _ _ _ Hscan) as (rs1 & e1 & -> & -> & Hlen & Hall & Hmax & Hp).
        exists (r :: rs1), e1. rewrite <- app_assoc. split; [done|]. split; [done|].
        destruct (Hcomb [r] [] rs1 e1 Hlen Hall) as [H1 H2]; [simpl; lia|constructor|].
        split; [exact H1|]. split; [exact H2|]. split.
        -- intros Hpos Hlt. rewrite app_assoc. apply Hmax; [done|].
           apply andb_false_iff in Hlim as [Hlim|Hlim].
           ++ rewrite Z.gtb_ltb in Hlim. apply Z.ltb_ge in Hlim. lia.
           ++ rewrite Z.geb_leb in Hlim. by apply Z.leb_gt in Hlim.
        -- intros n Hn Hh. apply Hpoll; [done|]. intros n' Hn'. by apply Hp.
    + intros Hscan.
      destruct (IH _ _ _ Hscan) as (rs1 & e1 & -> & -> & Hlen & Hall & Hmax & Hp).
      exists rs1, ({| Line := S lineNum; Content := strings_TrimSpace text; Err := err |} :: e1).
      rewrite <- app_assoc. split; [done|]. split; [done|].
      destruct (Hcomb [] [{| Line := S lineNum; Content := strings_TrimSpace text;
                             Err := err |}] rs1 e1 Hlen Hall) as [H1 H2].
      { simpl. lia. }
      { constructor; [|constructor]. simpl. split; [lia|done]. }
      split; [exact H1|]. split; [exact H2|]. split; [done|].
      intros n Hn Hh. apply Hpoll; [done|]. intros n' Hn'. by apply Hp.
Qed.

(** The loop fails only because the context was found cancelled at one
    of its polls, and with the context's error. *)
Lemma scan_loop_Failed (db : IPCountryDB) (ctx : Context) (lines : list string)
    (lineNum : nat) (rs : list IPRange) (errors : list ParseError) (e : error) :
  scan_loop db ctx lines lineNum rs errors = Failed e →
  e = ctx_Err ctx
  ∧ ∃ n, (lineNum ≤ n < lineNum + length lines)%nat ∧ ctx_Done ctx n = true.
Proof.
  revert lineNum rs errors.
  induction lines as [|text lines IH]; intros lineNum rs errors; cbn [scan_loop]; [done|].
  destruct (ctx_Done ctx lineNum) eqn:Hdone.
  { intros [= <-]. split; [done|]. exists lineNum. simpl. split; [lia|done]. }
  assert (∀ rs0 errors0, scan_loop db ctx lines (S lineNum) rs0 errors0 = Failed e →
            e = ctx_Err ctx
            ∧ ∃ n, (lineNum ≤ n < lineNum + length (text :: lines))%nat
                   ∧ ctx_Done ctx n = true) as Hrec.
  { intros rs0 errors0 Hscan. destruct (IH _ _ _ Hscan) as (-> & n & Hn & Hd).
    split; [done|]. exists n. simpl. split; [lia|done]. }
  destruct (_ || _); [apply Hrec|].
  destruct (parseLine db _); [|apply Hrec].
  destruct (_ && _); [done|apply Hrec].
Qed.

(** Every error the loop records holds the number of a scanned line and
    the trimmed text of that very line. *)
Lemma scan_loop_error_lines (db : IPCountryDB) (ctx : Context) (lines : list string)
    (lineNum : nat) (rs : list IPRange) (errors : list ParseError)
    (how : scan_end) (rs' : list IPRange) (errors' : list ParseError) :
  scan_loop db ctx lines lineNum rs errors = Ok (how, rs', errors') →
  ∃ errors1,
    errors' = errors ++ errors1
    ∧ Forall (λ e, (lineNum < Line e)%nat
                   ∧ ∃ text, lines !! (Line e - S lineNum)%nat = Some text
                             ∧ Content e = strings_TrimSpace text) errors1.
Proof.
  revert lineNum rs errors.
  induction lines as [|text lines IH]; intros lineNum rs errors; cbn [scan_loop].
  { intros [= <- <- <-]. exists []. by rewrite app_nil_r. }
  destruct (ctx_Done ctx lineNum); [done|].
  assert (∀ rs0 errors0 (ea : list ParseError),
            errors0 = errors ++ ea →
            Forall (λ e, Line e = S lineNum ∧ Content e = strings_TrimSpace text) ea →
            scan_loop db ctx lines (S lineNum) rs0 errors0 = Ok (how, rs', errors') →
            ∃ errors1,
              errors' = errors ++ errors1
              ∧ Forall (λ e, (lineNum < Line e)%nat
                             ∧ ∃ t, (text :: lines) !! (Line e - S lineNum)%nat = Some t
                                    ∧ Content e = strings_TrimSpace t) errors1) as Hrec.
  { intros rs0 errors0 ea -> Hea Hscan.
    destruct (IH _ _ _ Hscan) as (e1 & -> & Hall).
    exists (ea ++ e1). rewrite app_assoc. split; [done|]. apply Forall_app. split.
    - eapply Forall_impl; [exact Hea|]. simpl. intros e [Hl Hc]. split; [lia|].
      exists text. rewrite Hl, Nat.sub_diag. done.
    - eapply Forall_impl; [exact Hall|]. simpl. intros e (Hl & t & Ht & Hc).
      split; [lia|]. exists t. split; [|done].
      replace (Line e - S lineNum)%nat with (S (Line e - S (S lineNum))) by lia. done. }
  destruct (_ || _); [apply (Hrec _ _ []); [by rewrite app_nil_r|constructor]|].
  destruct (parseLine db (strings_TrimSpace text)) as [r|err].
  - destruct (_ && _).
    + intros [= <- <- <-]. exists []. by rewrite app_nil_r.
    + apply (Hrec _ _ []); [by rewrite app_nil_r|constructor].
  - apply (Hrec _ _ [{| Line := S lineNum; Content := strings_TrimSpace text;
                        Err := err |}]); [done|]. by repeat constructor.
Qed.

(** X5. What a successful parse of the data file returns: every range
    satisfies [Validate] and has its country equal to its code; the
    statistics carry the number of ranges and the size reported by
    [file.Stat], which is within the configured limit; the ranges are at
    most [MaxRanges] when that limit is positive; each scanned line gave at
    most one range or one error; and every recorded error carries the
    number of a line of the file, the trimmed text of that line, and the
    error with which parseLine refused it. *)
Theorem parse_result_wellformed (db : IPCountryDB) (ctx : Context) (w : World)
    (path : string) (file : File) (res : ParseResult) :
  os_Open w path = Ok file →
  parseFileWithContext db ctx w path = Ok res →
  Forall (λ r, range_ok r ∧ Country r = Code r) (Ranges res)
  ∧ TotalRanges (PStats res) = Z.of_nat (length (Ranges res))
  ∧ file_stat file = Ok (FileSize (PStats res))
  ∧ (0 < MaxFileSize (config db) → FileSize (PStats res) ≤ MaxFileSize (config db))
  ∧ (0 < MaxRanges (config db) → Z.of_nat (length (Ranges res)) ≤ MaxRanges (config db))
  ∧ (length (Ranges res) + length (Errors res) ≤ length (file_lines file))%nat
  ∧ Forall (λ e, (1 ≤ Line e ≤ length (file_lines file))%nat
                 ∧ (∃ text, file_lines file !! (Line e - 1)%nat = Some text
                            ∧ Content e = strings_TrimSpace text)
                 ∧ parseLine db (Content e) = Failed (Err e)) (Errors res).
Proof.
  intros Hopen Hparse. split; [by apply (parseFileWithContext_ok db ctx w path)|].
  revert Hparse. unfold parseFileWithContext, parseReaderWithContext. rewrite Hopen.
  destruct (file_stat file) as [fileSize|]; [|done].
  destruct (_ && _) eqn:Hsize; [done|].
  destruct (scan_loop _ _ _ _ _ _) as [[[how rs] errors]|] eqn:Hscan; [|done].
  destruct (match how with ScanExhausted => _ | ScanBreak => _ end); [done|].
  intros [= <-]. simpl.
  destruct (scan_loop_error_lines _ _ _ _ _ _ _ _ _ Hscan) as (e2 & He2 & Hlines).
  apply scan_loop_appends in Hscan as (rs1 & e1 & -> & -> & Hlen & Hall & Hmax & _).
  simpl in *. subst e2. split; [done|]. split; [done|]. split.
  { intros Hpos. apply andb_false_iff in Hsize as [Hsize|Hsize].
    - rewrite Z.gtb_ltb in Hsize. apply Z.ltb_ge in Hsize. lia.
    - rewrite Z.gtb_ltb in Hsize. by apply Z.ltb_ge in Hsize. }
  split; [intros Hpos; apply Hmax; [done|simpl; lia]|]. split; [done|].
  rewrite Forall_forall in Hall, Hlines. apply Forall_forall. intros e He.
  destruct (Hall e He) as [Hl Hp]. destruct (Hlines e He) as (_ & text & Ht & Hc).
  split; [lia|]. split; [|done]. by exists text.
Qed.

(** X6. A load fails only for a reason outside the records: the file
    cannot be opened, its size cannot be read or exceeds the limit, the
    context is cancelled when the scanning loop polls it, or the scanner
    reports an error.  A line that parseLine refuses never fails the load:
    when none of these happens the parse returns a result, whatever the
    lines hold. *)
Theorem load_failures_are_io (db : IPCountryDB) (ctx : Context) (w : World)
    (path : string) :
  (∀ e, parseFileWithContext db ctx w path = Failed e →
     (∃ e', os_Open w path = Failed e' ∧ e = ErrOpenFile e')
     ∨ ∃ file, os_Open w path = Ok file
         ∧ ((∃ e', file_stat file = Failed e' ∧ e = ErrFileStats e')
            ∨ (∃ size, file_stat file = Ok size ∧ 0 < MaxFileSize (config db) < size
                       ∧ e = ErrFileSize size (MaxFileSize (config db)))
            ∨ (e = ctx_Err ctx
               ∧ ∃ n, (n < length (file_lines file))%nat ∧ ctx_Done ctx n = true)
            ∨ (∃ e', file_scan_err file = Some e' ∧ e = ErrScanner e')))
  ∧ (∀ file size,
       os_Open w path = Ok file → file_stat file = Ok size →
       (0 < MaxFileSize (config db) → size ≤ MaxFileSize (config db)) →
       (∀ n, (n < length (file_lines file))%nat → ctx_Done ctx n = false) →
       file_scan_err file = None →
       ∃ res, parseFileWithContext db ctx w path = Ok res).
Proof.
  assert (∀ e, parseFileWithContext db ctx w path = Failed e →
     (∃ e', os_Open w path = Failed e' ∧ e = ErrOpenFile e')
     ∨ ∃ file, os_Open w path = Ok file
         ∧ ((∃ e', file_stat file = Failed e' ∧ e = ErrFileStats e')
            ∨ (∃ size, file_stat file = Ok size ∧ 0 < MaxFileSize (config db) < size
                       ∧ e = ErrFileSize size (MaxFileSize (config db)))
            ∨ (e = ctx_Err ctx
               ∧ ∃ n, (n < length (file_lines file))%nat ∧ ctx_Done ctx n = true)
            ∨ (∃ e', file_scan_err file = Some e' ∧ e = ErrScanner e'))) as Hclass.
  { intros e. unfold parseFileWithContext, parseReaderWithContext.
    destruct (os_Open w path) as [file|e0]; [|intros [= <-]; left; by eexists].
    intros Hres. right. exists file. split; [done|]. revert Hres.
    destruct (file_stat file) as [fileSize|e0]; [|intros [= <-]; left; by eexists].
    destruct (_ && _) eqn:Hsize.
    { intros [= <-]. right. left. exists fileSize. split; [done|].
      apply andb_true_iff in Hsize as [H1 H2]. rewrite Z.gtb_ltb in H1, H2.
      apply Z.ltb_lt in H1, H2. done. }
    destruct (scan_loop _ _ _ _ _ _) as [[[how rs] errors]|e0] eqn:Hscan.
    - destruct how; [|done]. destruct (file_scan_err file) as [e0|]; [|done].
      intros [= <-]. right. right. right. by eexists.
    - intros [= <-]. apply scan_loop_Failed in Hscan as (-> & n & Hn & Hd).
      right. right. left. split; [done|]. exists n. split; [lia|done]. }
  split; [exact Hclass|].
  intros file size Hopen Hstat Hsize Hctx Hscan.
  destruct (parseFileWithContext db ctx w path) as [res|e] eqn:Hres; [by eexists|].
  exfalso. destruct (Hclass e eq_refl) as [(e' & Ho & _)|(f & Ho & Hcases)]; [congruence|].
  assert (f = file) as -> by congruence.
  destruct Hcases as [(e' & Hs & _)|[(sz & Hs & Hlim & _)|[(_ & n & Hn & Hd)|(e' & Hs & _)]]].
  - congruence.
  - assert (sz = size) as -> by congruence. lia.
  - rewrite Hctx in Hd by done. done.
  - congruence.
Qed.

(** X7. The cancellation token is polled once per scanned line and
    nowhere else: a load whose context is already cancelled fails with the
    context's error as soon as the file yields a line, before any line is
    parsed, but succeeds with no ranges on a file without lines. *)
Theorem cancelled_context_load (db : IPCountryDB) (ctx : Context) (w : World)
    (path : string) (file : File) (size : Z) :
  os_Open w path = Ok file → file_stat file = Ok size →
  (0 < MaxFileSize (config db) → size ≤ MaxFileSize (config db)) →
  ctx_Done ctx 0 = true →
  (file_lines file ≠ [] → parseFileWithContext db ctx w path = Failed (ctx_Err ctx))
  ∧ (file_lines file = [] → file_scan_err file = None →
       ∃ res, parseFileWithContext db ctx w path = Ok res
              ∧ Ranges res = [] ∧ Errors res = []).
Proof.
  intros Hopen Hstat Hsize Hdone.
  unfold parseFileWithContext, parseReaderWithContext. rewrite Hopen, Hstat.
  assert ((MaxFileSize (config db) >? 0) && (size >? MaxFileSize (config db)) = false)
    as ->.
  { apply andb_false_iff. rewrite !Z.gtb_ltb, !Z.ltb_ge.
    destruct (Z.le_gt_cases (MaxFileSize (config db)) 0); [by left|right; lia]. }
  split.
  - destruct (file_lines file) as [|text lines]; [done|]. intros _.
    cbn [scan_loop]. by rewrite Hdone.
  - intros -> ->. cbn [scan_loop]. by eexists.
Qed.

End RangeParser.

Lemma parse_result_wellformed_witness :
  let file := {| file_stat := Ok 52;
                 file_lines := ["1.0.0.0,1.0.0.255,AU"; "  1.0.1.0;CN  ";
                                "8.8.8.0,8.8.8.255,US"];
                 file_scan_err := None |} in
  let w := {| os_Open := λ _, Ok file; clock_start := 0; clock_loaded := 1;
              clock_now := 2 |} in
  let db := RangeEngine.NewIPCountryDB "ip_to_country.csv" [] in
  ∃ res, RangeEngine.parseFileWithContext db context_Background w "ip_to_country.csv"
         = Ok res
         ∧ length (Ranges res) = 2%nat
         ∧ Errors res = [{| Line := 2; Content := "1.0.1.0;CN"; Err := ErrFieldCount 3 1 |}]
         ∧ Forall (λ e, (1 ≤ Line e ≤ length (file_lines file))%nat
                        ∧ (∃ text, file_lines file !! (Line e - 1)%nat = Some text
                                   ∧ Content e = strings_TrimSpace text)
                        ∧ RangeEngine.parseLine db (Content e) = Failed (Err e))
             (Errors res).
Proof.
  intros file w db.
  assert (∃ res, RangeEngine.parseFileWithContext db context_Background w
                   "ip_to_country.csv" = Ok res
                 ∧ length (Ranges res) = 2%nat
                 ∧ Errors res = [{| Line := 2; Content := "1.0.1.0;CN";
                                    Err := ErrFieldCount 3 1 |}])
    as (res & Hres & Hlen & Herrs).
  { eexists. split; [by vm_compute|]. split; by vm_compute. }
  exists res. split; [done|]. split; [done|]. split; [done|].
  apply (parse_result_wellformed db context_Background w "ip_to_country.csv" file res
           eq_refl Hres).
Defined.

Lemma cancelled_context_load_witness :
  RangeEngine.parseFileWithContext (RangeEngine.NewIPCountryDB "ip_to_country.csv" [])
    (mkContext (λ _, true) (ErrContext "context canceled")) example_world
    "ip_to_country.csv"
  = Failed (ErrContext "context canceled").
Proof.
  refine (proj1 (cancelled_context_load (RangeEngine.NewIPCountryDB "ip_to_country.csv" [])
                   (mkContext (λ _, true) (ErrContext "context canceled")) example_world
                   "ip_to_country.csv" example_file 64 _ _ _ _) _).
  - done.
  - done.
  - intros _. by vm_compute.
  - done.
  - done.
Defined.

Lemma load_failures_are_io_witness :
  ∃ res, RangeEngine.parseFileWithContext
           (RangeEngine.NewIPCountryDB "ip_to_country.csv" []) context_Background
           example_world "ip_to_country.csv" = Ok res.
Proof.
  refine (proj2 (load_failures_are_io (RangeEngine.NewIPCountryDB "ip_to_country.csv" [])
                   context_Background example_world "ip_to_country.csv")
            example_file 64 _ _ _ _ _).
  - done.
  - done.
  - intros _. by vm_compute.
  - done.
  - done.
Defined.


(** ** Overlap validation does not depend on the order of the ranges *)

Lemma pairwise_disjoint_perm (rs rs' : list IPRange) :
  rs ≡ₚ rs' → pairwise_disjoint rs → pairwise_disjoint rs'.
Proof.
  intros Hperm Hdis i j a b ipNum Hij Ha Hb.
  symmetry in Hperm. apply Permutation_inj in Hperm as (_ & f & Hinj & Hf).
  rewrite Hf in Ha, Hb. apply (Hdis (f i) (f j)); [|done..].
  intros Heq. by apply Hinj in Heq.
Qed.

(** On a list with ascending starts and [start <= end] everywhere, the
    adjacent-pair check is the same as disjointness of all pairs. *)
Lemma sorted_disjoint_iff (rs : list IPRange) :
  Forall (λ r, StartIP r ≤ EndIP r) rs → sorted_by_start rs →
  non_overlapping rs ↔ pairwise_disjoint rs.
Proof.
  intros Hok Hsorted. rewrite Forall_lookup in Hok. split.
  - intros Hno i j a b ipNum Hij Ha Hb Hin.
    apply Contains_spec in Hin. apply not_true_is_false. rewrite Contains_spec.
    destruct (decide (i < j)%nat) as [Hlt|Hge].
    + pose proof (non_overlapping_lt rs i j a b Hsorted Hno Hlt Ha Hb). lia.
    + assert (j < i)%nat as Hlt by lia.
      pose proof (non_overlapping_lt rs j i b a Hsorted Hno Hlt Hb Ha). lia.
  - intros Hdis i a b Ha Hb.
    pose proof (Hsorted i a b Ha Hb) as Hle.
    pose proof (Hok _ _ Ha) as Hoka. pose proof (Hok _ _ Hb) as Hokb. simpl in *.
    destruct (Z.lt_ge_cases (EndIP a) (StartIP b)) as [|Hge]; [done|].
    assert (Contains a (StartIP b) = true) as Hina by (apply Contains_spec; lia).
    pose proof (Hdis i (S i) a b (StartIP b) ltac:(lia) Ha Hb Hina) as Hout.
    apply not_true_iff_false in Hout. exfalso. apply Hout, Contains_spec. lia.
Qed.

Section AnyOrder.
Context {go_sort : SortSlice}.

Lemma sort_disjoint_iff (rs : list IPRange) :
  Forall range_ok rs →
  non_overlapping (sort_by_start rs) ↔ pairwise_disjoint rs.
Proof.
  intros Hok. rewrite sorted_disjoint_iff.
  - split; apply pairwise_disjoint_perm; [apply sort_by_start_perm|].
    symmetry. apply sort_by_start_perm.
  - rewrite sort_by_start_perm. eapply Forall_impl; [exact Hok|]. by intros r [? _].
  - apply sort_by_start_sorted_by_start.
Qed.

(** X8. ValidateIPRanges accepts a slice, in whatever order its ranges
    come, exactly when every range has [start <= end] and a non-empty
    code and no address belongs to two of its ranges; so reordering a
    slice never changes whether it is accepted. *)
Theorem ValidateIPRanges_any_order (rs : list IPRange) :
  (ValidateIPRanges rs = None ↔ Forall range_ok rs ∧ pairwise_disjoint rs)
  ∧ ∀ rs', rs ≡ₚ rs' → (ValidateIPRanges rs = None ↔ ValidateIPRanges rs' = None).
Proof.
  assert (∀ l, ValidateIPRanges l = None ↔ Forall range_ok l ∧ pairwise_disjoint l)
    as Hiff.
  { intros l. rewrite ValidateIPRanges_None_sorted.
    assert (Forall range_ok (sort_by_start l) ↔ Forall range_ok l) as ->
      by (by rewrite sort_by_start_perm).
    split; intros [Hok Hd]; (split; [done|]); by apply (sort_disjoint_iff l Hok). }
  split; [apply Hiff|]. intros rs' Hperm. rewrite !Hiff.
  assert (Forall range_ok rs ↔ Forall range_ok rs') as -> by (by rewrite Hperm).
  split; intros [Hok Hd]; (split; [done|]); revert Hd; apply pairwise_disjoint_perm;
    [done|by symmetry].
Qed.

End AnyOrder.

(** ** A load succeeds exactly on disjoint data *)
Section LoadDisjoint.
Context {go_text : GoText} {go_sort : SortSlice}.
Import RangeEngine.

Lemma parsed_ranges_ok (db : IPCountryDB) (ctx : Context) (w : World) (path : string)
    (res : ParseResult) :
  parseFileWithContext db ctx w path = Ok res → Forall range_ok (Ranges res).
Proof.
  intros Hparse. eapply Forall_impl; [by eapply parseFileWithContext_ok|].
  by intros r [? _].
Qed.

(** X9. The first use of an engine whose file parses: the load succeeds
    exactly when no address belongs to two of the parsed ranges, whatever
    their order in the file.  On success the engine is initialised, its
    ranges are the parsed ranges reordered by ascending start, the
    statistics count them, and the cache and the stored error are left as
    they were.  Otherwise the call returns a range-validation error naming
    two parsed ranges that both contain the start of the second, and only
    the stored error changes. *)
Theorem load_succeeds_iff_disjoint (ctx : Context) (w : World) (db : IPCountryDB)
    (res : ParseResult) :
  mu db = Unlocked → initialized db ≠ 1 →
  parseFileWithContext db ctx w (filePath db) = Ok res →
  (pairwise_disjoint (Ranges res) →
     ∃ db', initializeWithContext ctx w db = Done None db'
       ∧ initialized db' = 1 ∧ mu db' = Unlocked
       ∧ ranges db' ≡ₚ Ranges res ∧ sorted_by_start (ranges db')
       ∧ pairwise_disjoint (ranges db')
       ∧ TotalRanges (stats db') = Z.of_nat (length (ranges db'))
       ∧ cache db' = cache db ∧ initErr db' = initErr db)
  ∧ (¬ pairwise_disjoint (Ranges res) →
     ∃ a b, a ∈ Ranges res ∧ b ∈ Ranges res
       ∧ Contains a (StartIP b) = true ∧ Contains b (StartIP b) = true
       ∧ let err := ErrRangeValidation
                      (ErrOverlapDetected (StartIP a) (EndIP a) (StartIP b) (EndIP b)) in
         initializeWithContext ctx w db = Done (Some err) (set_initErr (Some err) db)).
Proof.
  intros Hmu Hinit Hparse.
  pose proof (parsed_ranges_ok _ _ _ _ _ Hparse) as Hok.
  rewrite initializeWithContext_load by done. unfold load_result. rewrite Hparse.
  pose proof (sort_disjoint_iff (Ranges res) Hok) as Hiff.
  rewrite <- validateRanges_None in Hiff.
  assert (TotalRanges (PStats res) = Z.of_nat (length (Ranges res))) as Htotal.
  { revert Hparse. unfold parseFileWithContext, parseReaderWithContext.
    destruct (os_Open w _) as [file|]; [|done].
    destruct (file_stat file); [|done]. destruct (_ && _); [done|].
    destruct (scan_loop _ _ _ _ _ _) as [[[how rs] errors]|]; [|done].
    destruct (match how with ScanExhausted => _ | ScanBreak => _ end); [done|].
    by intros [= <-]. }
  split.
  - intros Hdis. rewrite (proj2 Hiff Hdis). eexists. split; [done|].
    destruct db; simpl in *. rewrite Htotal.
    repeat split; try done.
    + apply sort_by_start_perm.
    + apply sort_by_start_sorted_by_start.
    + revert Hdis. apply pairwise_disjoint_perm. symmetry. apply sort_by_start_perm.
    + by rewrite sort_by_start_perm.
  - intros Hdis.
    destruct (validateRanges (sort_by_start (Ranges res))) as [err|] eqn:Hval;
      [|by destruct Hdis; apply Hiff].
    apply validateRanges_Some in Hval as (i & a & b & Ha & Hb & Hov & -> & _).
    pose proof (sort_by_start_sorted_by_start (Ranges res) i a b Ha Hb) as Hle.
    assert (∀ r, r ∈ sort_by_start (Ranges res) → r ∈ Ranges res ∧ StartIP r ≤ EndIP r)
      as Hmem.
    { intros r Hr. rewrite sort_by_start_perm in Hr. split; [done|].
      rewrite Forall_forall in Hok. by apply Hok. }
    apply list_elem_of_lookup_2 in Ha, Hb. apply Hmem in Ha as [Ha Hoka], Hb as [Hb Hokb].
    exists a, b. split; [done|]. split; [done|].
    split; [apply Contains_spec; lia|]. split; [apply Contains_spec; lia|done].
Qed.

(** Parsing reads the configuration only through the delimiter, the two
    limits and the header flag. *)
Lemma parseFileWithContext_fields (db1 db2 : IPCountryDB) (ctx : Context) (w : World)
    (path : string) :
  Delimiter (config db1) = Delimiter (config db2) →
  MaxFileSize (config db1) = MaxFileSize (config db2) →
  MaxRanges (config db1) = MaxRanges (config db2) →
  SkipHeader (config db1) = SkipHeader (config db2) →
  parseFileWithContext db1 ctx w path = parseFileWithContext db2 ctx w path.
Proof.
  intros Hd Hf Hr Hs.
  assert (∀ line, parseLine db1 line = parseLine db2 line) as Hline.
  { intros line. unfold parseLine. by rewrite Hd. }
  assert (∀ lines lineNum rs errors,
            scan_loop db1 ctx lines lineNum rs errors
            = scan_loop db2 ctx lines lineNum rs errors) as Hscan.
  { induction lines as [|text lines IH]; intros lineNum rs errors; [done|].
    cbn [scan_loop]. rewrite Hs, Hr, Hline.
    destruct (ctx_Done ctx lineNum); [done|].
    destruct (_ || _); [apply IH|].
    destruct (parseLine db2 _); [|apply IH].
    destruct (_ && _); [done|apply IH]. }
  unfold parseFileWithContext, parseReaderWithContext.
  rewrite Hf. destruct (os_Open w path) as [file|]; [|done].
  destruct (file_stat file); [|done]. destruct (_ && _); [done|].
  by rewrite Hscan.
Qed.

End LoadDisjoint.

Lemma load_succeeds_iff_disjoint_witness :
  ∃ db', RangeEngine.initializeWithContext context_Background example_world
           (RangeEngine.NewIPCountryDB "ip_to_country.csv" []) = Done None db'
         ∧ RangeEngine.initialized db' = 1.
Proof.
  assert (∃ res, RangeEngine.parseFileWithContext
                   (RangeEngine.NewIPCountryDB "ip_to_country.csv" [])
                   context_Background example_world "ip_to_country.csv" = Ok res
                 ∧ Ranges res = RangeEngine.ranges example_db) as (res & Hres & Hranges).
  { eexists. split; by vm_compute. }
  destruct (proj1 (load_succeeds_iff_disjoint context_Background example_world
                     (RangeEngine.NewIPCountryDB "ip_to_country.csv" []) res
                     eq_refl ltac:(done) Hres)) as (db' & Hdone & Hinit & _).
  - rewrite Hranges. apply sorted_disjoint_iff.
    + repeat constructor; by vm_compute.
    + apply example_db_sorted.
    + apply example_db_disjoint.
  - by exists db'.
Defined.


(** ** The range engine between calls *)
Section RangeEngineCalls.
Context {go_text : GoText} {go_sort : SortSlice}.
Import RangeEngine.

(** The state a load attempt leaves, by the state it starts from. *)
Lemma initializeWithContext_cases (ctx : Context) (w : World) (db : IPCountryDB) :
  db_inv db →
  ∃ r0 s, initializeWithContext ctx w db = Done r0 s ∧ db_inv s
    ∧ (r0 = None → initialized s = 1)
    ∧ cache s = cache db ∧ config s = config db ∧ filePath s = filePath db
    ∧ ((initialized db = 1 ∧ s = db ∧ r0 = initErr db)
       ∨ (initialized db ≠ 1 ∧ ∃ e, r0 = Some e ∧ s = set_initErr (Some e) db)
       ∨ (initialized db ≠ 1 ∧ r0 = None
          ∧ ∃ res, parseFileWithContext db ctx w (filePath db) = Ok res
              ∧ ranges s = sort_by_start (Ranges res)
              ∧ TotalRanges (stats s) = TotalRanges (PStats res))).
Proof.
  intros Hinv. destruct (initializeWithContext_inv ctx w db Hinv) as (r0 & s & Hrun & Hs & Hr).
  exists r0, s. split; [done|]. split; [done|]. split; [done|].
  destruct (decide (initialized db = 1)) as [Hi|Hi].
  - rewrite initializeWithContext_ready in Hrun by done. injection Hrun as <- <-.
    repeat split; try done. left. done.
  - rewrite initializeWithContext_load in Hrun by (done || apply Hinv).
    unfold load_result in Hrun.
    destruct (parseFileWithContext db ctx w (filePath db)) as [res|err] eqn:Hparse.
    + destruct (validateRanges _) as [err|].
      * injection Hrun as <- <-. repeat split; try done. right. left. split; [done|].
        by eexists.
      * injection Hrun as <- <-. repeat split; try done. right. right.
        split; [done|]. split; [done|]. exists res. by destruct db.
    + injection Hrun as <- <-. repeat split; try done. right. left. split; [done|].
      by eexists.
Qed.

(** A lookup is a load attempt followed, when that succeeds and the
    address parses, by a probe that only writes the cache. *)
Lemma GetCountryCodeWithContext_cases (ctx : Context) (w : World) (ipStr : string)
    (db : IPCountryDB) (r0 : option error) (s : IPCountryDB) :
  db_inv db → initializeWithContext ctx w db = Done r0 s →
  GetCountryCodeWithContext ctx w ipStr db =
    match r0 with
    | Some e => Done (EmptyString, Some (ErrInitFailed e)) s
    | None =>
        match parseIP ipStr with
        | Failed e => Done (EmptyString, Some (ErrInvalidIP e)) s
        | Ok ipNum =>
            Done ((find_pure ipNum s).1.1.2, (find_pure ipNum s).1.2)
                 (set_mu Unlocked (set_cache (find_pure ipNum s).2 s))
        end
    end.
Proof.
  intros Hinv Hrun. rewrite GetCountryCodeWithContext_eq, Hrun.
  destruct (initializeWithContext_inv ctx w db Hinv) as (r0' & s' & Hrun' & Hs & _).
  assert (s' = s) as -> by congruence.
  destruct r0; [done|]. destruct (parseIP ipStr); [|done].
  by rewrite (inv_mu s Hs).
Qed.

Lemma GetCountryWithContext_cases (ctx : Context) (w : World) (ipStr : string)
    (db : IPCountryDB) (r0 : option error) (s : IPCountryDB) :
  db_inv db → initializeWithContext ctx w db = Done r0 s →
  GetCountryWithContext ctx w ipStr db =
    match r0 with
    | Some e => Done (EmptyString, Some (ErrInitFailed e)) s
    | None =>
        match parseIP ipStr with
        | Failed e => Done (EmptyString, Some (ErrInvalidIP e)) s
        | Ok ipNum =>
            Done ((find_pure ipNum s).1.1.1, (find_pure ipNum s).1.2)
                 (set_mu Unlocked (set_cache (find_pure ipNum s).2 s))
        end
    end.
Proof.
  intros Hinv Hrun. rewrite GetCountryWithContext_eq, Hrun.
  destruct (initializeWithContext_inv ctx w db Hinv) as (r0' & s' & Hrun' & Hs & _).
  assert (s' = s) as -> by congruence.
  destruct r0; [done|]. destruct (parseIP ipStr); [|done].
  by rewrite (inv_mu s Hs).
Qed.

Lemma parseFileWithContext_total (db : IPCountryDB) (ctx : Context) (w : World)
    (path : string) (res : ParseResult) :
  parseFileWithContext db ctx w path = Ok res →
  TotalRanges (PStats res) = Z.of_nat (length (Ranges res))
  ∧ (0 < MaxRanges (config db) → Z.of_nat (length (Ranges res)) ≤ MaxRanges (config db)).
Proof.
  unfold parseFileWithContext, parseReaderWithContext.
  destruct (os_Open w path) as [file|]; [|done].
  destruct (file_stat file); [|done]. destruct (_ && _); [done|].
  destruct (scan_loop _ _ _ _ _ _) as [[[how rs] errors]|] eqn:Hscan; [|done].
  destruct (match how with ScanExhausted => _ | ScanBreak => _ end); [done|].
  intros [= <-]. simpl. split; [done|]. intros Hpos.
  apply scan_loop_appends in Hscan as (rs1 & e1 & -> & _ & _ & _ & Hmax & _).
  apply Hmax; [done|simpl; lia].
Qed.

Lemma find_pure_bounds (ipNum : Z) (db : IPCountryDB) :
  cache_wf (cache db) → 1 ≤ capacity (cache db) →
  Z.of_nat (length (evictList (cache db))) ≤ capacity (cache db) →
  capacity (find_pure ipNum db).2 = capacity (cache db)
  ∧ Z.of_nat (length (evictList (find_pure ipNum db).2)) ≤ capacity (cache db).
Proof.
  intros Hwf Hcap Hlen. unfold find_pure.
  destruct (items (cache db) !! ipNum); simpl.
  - by rewrite get_capacity, get_length.
  - rewrite put_capacity, get_capacity. split; [done|].
    rewrite <- (get_capacity (cache db) ipNum).
    apply put_length_bound.
    + by apply get_wf.
    + by rewrite get_capacity.
    + by rewrite get_capacity, get_length.
Qed.

Lemma NewIPCountryDB_bounds (path : string) (cfgs : list Config) :
  db_bounds (NewIPCountryDB path cfgs).
Proof.
  unfold NewIPCountryDB, db_bounds.
  set (cfg := match cfgs with c :: _ => c | [] => DefaultConfig end).
  destruct (String.eqb (Delimiter cfg) EmptyString) eqn:Hd;
    destruct (CacheSize _ <=? 0) eqn:Hc; simpl in *;
    try apply Z.leb_gt in Hc; try apply String.eqb_neq in Hd;
    repeat split; try done; try lia.
Qed.

Lemma initializeWithContext_bounds (ctx : Context) (w : World) (db : IPCountryDB)
    (r0 : option error) (s : IPCountryDB) :
  db_inv db → db_bounds db → initializeWithContext ctx w db = Done r0 s → db_bounds s.
Proof.
  intros Hinv Hb Hrun.
  destruct (initializeWithContext_cases ctx w db Hinv)
    as (r0' & s' & Hrun' & _ & _ & Hcache & Hcfg & _ & Hcases).
  assert (s' = s) as -> by congruence.
  destruct Hcases as [(_ & -> & _)|[(_ & e & _ & ->)|(_ & _ & res & Hparse & Hrs & Htot)]];
    [done|done|].
  destruct Hb as (Hd & Hc & Hcap & Hlen & _ & _).
  apply parseFileWithContext_total in Hparse as [Hlenr Hmax].
  unfold db_bounds. rewrite Hcache, Hcfg, Hrs, Htot, sort_by_start_perm. done.
Qed.

Lemma lookup_state_bounds (ipNum : Z) (s : IPCountryDB) :
  db_inv s → db_bounds s →
  db_bounds (set_mu Unlocked (set_cache (find_pure ipNum s).2 s)).
Proof.
  intros Hinv (Hd & Hc & Hcap & Hlen & Htot & Hmax).
  destruct (find_pure_bounds ipNum s) as [Hcap' Hlen'];
    [apply Hinv|lia|lia|].
  unfold db_bounds. simpl. rewrite Hcap'. repeat split; try done. lia.
Qed.

Lemma reachable_bounds (db : IPCountryDB) : reachable db → db_bounds db.
Proof.
  induction 1 as [path cfgs|db ctx w ipStr r db' Hreach IH Hcall
                 |db ctx w ipStr r db' Hreach IH Hcall
                 |db r db' Hreach IH Hcall|db ctx w r db' Hreach IH Hcall].
  - apply NewIPCountryDB_bounds.
  - pose proof (reachable_inv db Hreach) as Hinv.
    destruct (initializeWithContext_inv ctx w db Hinv) as (r0 & s & Hrun & Hs & _).
    pose proof (initializeWithContext_bounds ctx w db r0 s Hinv IH Hrun) as Hb.
    rewrite (GetCountryWithContext_cases ctx w ipStr db r0 s Hinv Hrun) in Hcall.
    destruct r0; [by injection Hcall as _ <-|].
    destruct (parseIP ipStr); [|by injection Hcall as _ <-].
    injection Hcall as _ <-. by apply lookup_state_bounds.
  - pose proof (reachable_inv db Hreach) as Hinv.
    destruct (initializeWithContext_inv ctx w db Hinv) as (r0 & s & Hrun & Hs & _).
    pose proof (initializeWithContext_bounds ctx w db r0 s Hinv IH Hrun) as Hb.
    rewrite (GetCountryCodeWithContext_cases ctx w ipStr db r0 s Hinv Hrun) in Hcall.
    destruct r0; [by injection Hcall as _ <-|].
    destruct (parseIP ipStr); [|by injection Hcall as _ <-].
    injection Hcall as _ <-. by apply lookup_state_bounds.
  - destruct (GetStats_inv db (reachable_inv db Hreach)) as (r' & Heq). congruence.
  - rewrite ReloadWithContext_blocked in Hcall. by destruct (mu db).
Qed.

(** X11. Data is loaded at most once.  In a state reached through the
    exported methods with the engine initialised, a lookup returns,
    whatever the file system and the context are at that moment, the same
    result and the same state, in which the ranges, the statistics, the
    stored error, the configuration and the path are those before the
    call and the lock is free: only the cache is written. *)
Theorem loaded_engine_frozen (db : IPCountryDB) (ctx : Context) (w : World)
    (ipStr : string) :
  reachable db → initialized db = 1 →
  ∃ r r' db',
    (∀ ctx' w', GetCountryCodeWithContext ctx' w' ipStr db = Done r db'
                ∧ GetCountryWithContext ctx' w' ipStr db = Done r' db')
    ∧ ranges db' = ranges db ∧ stats db' = stats db
    ∧ initialized db' = 1 ∧ initErr db' = initErr db
    ∧ config db' = config db ∧ filePath db' = filePath db ∧ mu db' = Unlocked.
Proof.
  intros Hreach Hi. pose proof (reachable_inv db Hreach) as Hinv.
  pose proof (inv_mu db Hinv) as Hmu.
  assert (∀ ctx' w', initializeWithContext ctx' w' db = Done (initErr db) db) as Hready.
  { intros ctx' w'. by apply initializeWithContext_ready. }
  destruct (initErr db) as [e|] eqn:Herr.
  - exists (EmptyString, Some (ErrInitFailed e)), (EmptyString, Some (ErrInitFailed e)), db.
    split; [|done]. intros ctx' w'.
    by rewrite (GetCountryCodeWithContext_cases ctx' w' ipStr db _ db Hinv (Hready _ _)),
      (GetCountryWithContext_cases ctx' w' ipStr db _ db Hinv (Hready _ _)).
  - destruct (parseIP ipStr) as [ipNum|e] eqn:Hip.
    + eexists _, _, _. split.
      * intros ctx' w'.
        rewrite (GetCountryCodeWithContext_cases ctx' w' ipStr db _ db Hinv (Hready _ _)),
          (GetCountryWithContext_cases ctx' w' ipStr db _ db Hinv (Hready _ _)), Hip.
        done.
      * done.
    + exists (EmptyString, Some (ErrInvalidIP e)), (EmptyString, Some (ErrInvalidIP e)), db.
      split; [|done]. intros ctx' w'.
      by rewrite (GetCountryCodeWithContext_cases ctx' w' ipStr db _ db Hinv (Hready _ _)),
        (GetCountryWithContext_cases ctx' w' ipStr db _ db Hinv (Hready _ _)), Hip.
Qed.

(** X12. A lookup of a string that parseIP refuses does to the engine
    exactly what a load attempt does (nothing at all once the engine is
    initialised): the cache and its counters are not touched.  It returns
    an empty string and an error, the initialisation error when there is
    one and otherwise the invalid-address error wrapping parseIP's. *)
Theorem invalid_address_lookup (db : IPCountryDB) (ctx : Context) (w : World)
    (ipStr : string) (e : error) :
  reachable db → parseIP ipStr = Failed e →
  ∃ r0 s, initializeWithContext ctx w db = Done r0 s
    ∧ (let err := match r0 with Some e0 => ErrInitFailed e0 | None => ErrInvalidIP e end in
       GetCountryCodeWithContext ctx w ipStr db = Done (EmptyString, Some err) s
       ∧ GetCountryWithContext ctx w ipStr db = Done (EmptyString, Some err) s)
    ∧ cache s = cache db
    ∧ (initialized db = 1 → s = db).
Proof.
  intros Hreach Hip. pose proof (reachable_inv db Hreach) as Hinv.
  destruct (initializeWithContext_cases ctx w db Hinv)
    as (r0 & s & Hrun & _ & _ & Hcache & _ & _ & Hcases).
  exists r0, s. split; [done|]. split.
  - rewrite (GetCountryCodeWithContext_cases ctx w ipStr db r0 s Hinv Hrun),
      (GetCountryWithContext_cases ctx w ipStr db r0 s Hinv Hrun), Hip.
    by destruct r0.
  - split; [done|]. intros Hi.
    by destruct Hcases as [(_ & -> & _)|[(Hn & _)|(Hn & _)]].
Qed.

(** X13. In every state reached through the exported methods the
    configuration has a non-empty delimiter and a cache size of at least
    one, the cache holds at most that many addresses, the engine holds at
    most [MaxRanges] ranges when that limit is positive, and Stats returns
    without changing the state, reporting the number of committed ranges
    and the counters of the cache. *)
Theorem reachable_engine_bounds (db : IPCountryDB) :
  reachable db →
  Delimiter (config db) ≠ EmptyString
  ∧ 1 ≤ CacheSize (config db)
  ∧ Z.of_nat (size (items (cache db))) ≤ CacheSize (config db)
  ∧ (0 < MaxRanges (config db) → Z.of_nat (length (ranges db)) ≤ MaxRanges (config db))
  ∧ ∃ st, GetStats db = Done st db
      ∧ TotalRanges st = Z.of_nat (length (ranges db))
      ∧ CacheHits st = hits (cache db) ∧ CacheMisses st = misses (cache db).
Proof.
  intros Hreach. pose proof (reachable_inv db Hreach) as Hinv.
  destruct (reachable_bounds db Hreach) as (Hd & Hc & Hcap & Hlen & Htot & Hmax).
  destruct (cache_wf_keys (cache db) (inv_wf db Hinv)) as (_ & _ & Hsize).
  split; [done|]. split; [done|]. split; [by rewrite Hsize|]. split; [done|].
  pose proof (inv_mu db Hinv) as Hmu.
  unfold GetStats, M_bind, mu_RLock, M_acquire. rewrite Hmu. simpl.
  assert (set_mu Unlocked (set_mu (ReadLocked 1) db) = db) as ->.
  { destruct db. simpl in *. by subst. }
  by eexists.
Qed.

End RangeEngineCalls.

Lemma loaded_engine_frozen_witness :
  let db := outcome_state (RangeEngine.GetCountryCode example_world "1.0.1.15"
                             (RangeEngine.NewIPCountryDB "ip_to_country.csv" [])) in
  ∃ r db',
    RangeEngine.GetCountryCodeWithContext context_Background missing_world "8.8.8.8" db
    = Done r db' ∧ RangeEngine.initialized db' = 1.
Proof.
  intros db.
  assert (reachable db) as Hdb.
  { apply (reach_GetCountryCode (RangeEngine.NewIPCountryDB "ip_to_country.csv" [])
             context_Background example_world "1.0.1.15" ("CN", None) db);
      [apply reach_New|by vm_compute]. }
  assert (RangeEngine.initialized db = 1) as Hi by (by vm_compute).
  destruct (loaded_engine_frozen db context_Background example_world "8.8.8.8" Hdb Hi)
    as (r & r' & db' & Hcalls & _ & _ & Hi' & _).
  exists r, db'. split; [apply Hcalls|done].
Defined.

Lemma invalid_address_lookup_witness :
  ∃ s, RangeEngine.GetCountryCodeWithContext context_Background example_world
         "not an address" (RangeEngine.NewIPCountryDB "ip_to_country.csv" [])
       = Done (EmptyString, Some (ErrInvalidIP (ErrInvalidIPFormat "not an address"))) s.
Proof.
  destruct (invalid_address_lookup (RangeEngine.NewIPCountryDB "ip_to_country.csv" [])
              context_Background example_world "not an address"
              (ErrInvalidIPFormat "not an address"))
    as (r0 & s & Hrun & [Hcode _] & _).
  - apply reach_New.
  - by vm_compute.
  - vm_compute in Hrun. injection Hrun as <- <-. eexists. exact Hcode.
Defined.

Lemma reachable_engine_bounds_witness :
  let cfg := {| Delimiter := ","; MaxFileSize := 0; MaxRanges := 2; CacheSize := 1;
                SkipHeader := false |} in
  let db0 := RangeEngine.NewIPCountryDB "ip_to_country.csv" [cfg] in
  let db1 := outcome_state (RangeEngine.GetCountryCode example_world "1.0.1.15" db0) in
  let db := outcome_state (RangeEngine.GetCountryCode example_world "1.0.0.1" db1) in
  RangeEngine.initialized db = 1
  ∧ length (RangeEngine.ranges db) = 2%nat
  ∧ size (items (RangeEngine.cache db)) = 1%nat
  ∧ getStats (RangeEngine.cache db) = (0, 2)
  ∧ Z.of_nat (size (items (RangeEngine.cache db))) ≤ CacheSize (RangeEngine.config db)
  ∧ (0 < MaxRanges (RangeEngine.config db) →
       Z.of_nat (length (RangeEngine.ranges db)) ≤ MaxRanges (RangeEngine.config db))
  ∧ ∃ st, RangeEngine.GetStats db = Done st db
      ∧ TotalRanges st = Z.of_nat (length (RangeEngine.ranges db))
      ∧ CacheHits st = hits (RangeEngine.cache db)
      ∧ CacheMisses st = misses (RangeEngine.cache db).
Proof.
  intros cfg db0 db1 db.
  assert (reachable db) as Hdb.
  { apply (reach_GetCountryCode db1 context_Background example_world "1.0.0.1"
             ("AU", None) db); [|by vm_compute].
    apply (reach_GetCountryCode db0 context_Background example_world "1.0.1.15"
             ("CN", None) db1); [apply reach_New|by vm_compute]. }
  split; [by vm_compute|]. split; [by vm_compute|]. split; [by vm_compute|].
  split; [by vm_compute|].
  exact (proj2 (proj2 (reachable_engine_bounds db Hdb))).
Defined.


(** ** The exact engine: what a load stores and what a lookup returns *)
Section ExactEngineLoad.
Context {go_text : GoText}.
Import ExactEngine.

Lemma exact_parseLine_config (m1 m2 : ExactIPCountryMap) (line : string) :
  config m1 = config m2 → parseLine m1 line = parseLine m2 line.
Proof. intros Hc. unfold parseLine. by rewrite Hc. Qed.

Lemma exact_parseLine_code (m : ExactIPCountryMap) (line c : string) (ipNum : Z) :
  parseLine m line = Ok (c, ipNum) → c ≠ EmptyString.
Proof.
  unfold parseLine. destruct (strings_Split _ _) as [|p0 [|p1 [|p2 ps]]]; try done.
  destruct (parseIP _); [|done].
  destruct (String.eqb _ EmptyString) eqn:Hc; [done|].
  intros [= <- _]. by apply String.eqb_neq.
Qed.

(** A load attempt of an unlocked engine that is not initialised, step
    by step. *)
Lemma exact_initializeWithContext_run (ctx : Context) (w : World) (m : ExactIPCountryMap) :
  initialized m ≠ 1 → mu m = Unlocked →
  initializeWithContext ctx w m =
    match os_Open w (filePath m) with
    | Failed err => Done (Some (ErrOpenFile err)) (set_initErr (Some (ErrOpenFile err)) m)
    | Ok file =>
        match file_stat file with
        | Failed err =>
            Done (Some (ErrFileStats err)) (set_initErr (Some (ErrFileStats err)) m)
        | Ok fileSize =>
            if (MaxFileSize (config m) >? 0) && (fileSize >? MaxFileSize (config m))
            then Done (Some (ErrFileSize fileSize (MaxFileSize (config m))))
                   (set_initErr (Some (ErrFileSize fileSize (MaxFileSize (config m)))) m)
            else
              let sc := scan_loop ctx (file_lines file) 0 0
                          (set_parseErrors [] (set_ipMap ∅ m)) in
              match sc.2 with
              | Failed err => Done (Some err) (set_initErr (Some err) sc.1)
              | Ok how =>
                  match (match how with
                         | ScanExhausted => file_scan_err file
                         | ScanBreak => None
                         end) with
                  | Some err =>
                      Done (Some (ErrScanner err)) (set_initErr (Some (ErrScanner err)) sc.1)
                  | None =>
                      Done None
                        (set_initialized 1
                           (set_stats
                              (mkStats (clock_now w) (clock_loaded w - clock_start w)
                                 fileSize (CacheHits (stats m)) (CacheMisses (stats m))
                                 (Z.of_nat (size (ipMap sc.1)))) sc.1))
                  end
              end
        end
    end.
Proof.
  intros Hi Hmu.
  assert (∀ lines lineNum processed m1,
            scan_loop ctx lines lineNum processed (set_mu WriteLocked m1)
            = (set_mu WriteLocked (scan_loop ctx lines lineNum processed m1).1,
               (scan_loop ctx lines lineNum processed m1).2)) as Hscan.
  { induction lines as [|text lines IH]; intros lineNum processed m1; [done|].
    cbn [scan_loop]. destruct (ctx_Done ctx lineNum); [done|].
    change (config (set_mu WriteLocked m1)) with (config m1).
    rewrite (exact_parseLine_config (set_mu WriteLocked m1) m1) by done.
    destruct (_ || _); [apply IH|].
    destruct (parseLine m1 _) as [[c ipNum]|err].
    - change (config (set_ipMap _ (set_mu WriteLocked m1))) with (config m1).
      change (config (set_ipMap (<[ipNum:=c]> (ipMap m1)) m1)) with (config m1).
      destruct (_ && _); [done|]. apply (IH _ _ (set_ipMap _ m1)).
    - apply (IH _ _ (set_parseErrors _ m1)). }
  assert (∀ lines lineNum processed m1,
            stats (scan_loop ctx lines lineNum processed m1).1 = stats m1) as Hstats.
  { induction lines as [|text lines IH]; intros lineNum processed m1; [done|].
    cbn [scan_loop]. destruct (ctx_Done ctx lineNum); [done|].
    destruct (_ || _); [apply IH|].
    destruct (parseLine m1 _) as [[c ipNum]|err].
    - destruct (_ && _); [done|]. by rewrite IH.
    - by rewrite IH. }
  unfold initializeWithContext, M_bind, M_gets.
  rewrite (proj2 (Z.eqb_neq _ _) Hi). unfold mu_Lock, M_acquire. rewrite Hmu. simpl.
  unfold M_defer, load, M_bind, M_gets. simpl.
  rewrite (proj2 (Z.eqb_neq _ _) Hi).
  unfold parseFileWithContext, M_bind, M_gets, M_ret, M_modify, mu_Unlock. simpl.
  destruct (os_Open w (filePath m)) as [file|err]; simpl.
  2:{ destruct m; simpl in *; by subst. }
  destruct (file_stat file) as [fileSize|err]; simpl.
  2:{ destruct m; simpl in *; by subst. }
  destruct (_ && _); simpl.
  { destruct m; simpl in *; by subst. }
  change (set_parseErrors [] (set_ipMap ∅ (set_mu WriteLocked m)))
    with (set_mu WriteLocked (set_parseErrors [] (set_ipMap ∅ m))).
  rewrite Hscan. simpl.
  pose proof (Hstats (file_lines file) 0%nat 0%nat (set_parseErrors [] (set_ipMap ∅ m)))
    as Hst.
  pose proof (scan_loop_frame ctx (file_lines file) 0 0 (set_parseErrors [] (set_ipMap ∅ m)))
    as (Hmu' & _).
  destruct (scan_loop ctx (file_lines file) 0 0 (set_parseErrors [] (set_ipMap ∅ m)))
    as [m1 [how|err]]; simpl in *.
  - destruct (match how with ScanExhausted => _ | ScanBreak => _ end); simpl.
    + destruct m1; simpl in *. rewrite Hmu in Hmu'. by subst.
    + destruct m1; simpl in *. rewrite Hmu in Hmu'. by subst.
  - destruct m1; simpl in *. rewrite Hmu in Hmu'. by subst.
Qed.

(** What the scanning loop adds to the map and to the recorded errors,
    whether or not it runs to the end of the file. *)
Lemma exact_scan_loop_adds (m0 : ExactIPCountryMap) (ctx : Context) (lines : list string)
    (lineNum processed : nat) (m : ExactIPCountryMap) :
  config m = config m0 →
  let m' := (scan_loop ctx lines lineNum processed m).1 in
  (∀ ipNum c, ipMap m' !! ipNum = Some c →
     ipMap m !! ipNum = Some c
     ∨ ∃ text, text ∈ lines ∧ parseLine m0 (strings_TrimSpace text) = Ok (c, ipNum))
  ∧ (0 < MaxRanges (config m0) → Z.of_nat processed < MaxRanges (config m0) →
       Z.of_nat (size (ipMap m')) - Z.of_nat (size (ipMap m))
       ≤ MaxRanges (config m0) - Z.of_nat processed)
  ∧ ∃ errs,
      parseErrors m' = parseErrors m ++ errs
      ∧ (size (ipMap m') + length errs ≤ size (ipMap m) + length lines)%nat
      ∧ Forall (λ e, (lineNum < Line e ≤ lineNum + length lines)%nat
                     ∧ parseLine m0 (Content e) = Failed (Err e)) errs.
Proof.
  revert lineNum processed m.
  induction lines as [|text lines IH]; intros lineNum processed m Hcfg; cbn [scan_loop].
  { simpl. split; [by left|]. split; [lia|]. exists []. rewrite app_nil_r.
    split; [done|]. split; [simpl; lia|constructor]. }
  assert (∀ processed1 m1 errs0,
    config m1 = config m0 →
    (∀ ipNum c, ipMap m1 !! ipNum = Some c →
       ipMap m !! ipNum = Some c
       ∨ parseLine m0 (strings_TrimSpace text) = Ok (c, ipNum)) →
    (size (ipMap m1) + length errs0 ≤ S (size (ipMap m)))%nat →
    (processed ≤ processed1)%nat →
    (Z.of_nat (size (ipMap m1)) - Z.of_nat (size (ipMap m))
     ≤ Z.of_nat processed1 - Z.of_nat processed) →
    (0 < MaxRanges (config m0) → Z.of_nat processed < MaxRanges (config m0) →
       Z.of_nat processed1 < MaxRanges (config m0)) →
    parseErrors m1 = parseErrors m ++ errs0 →
    Forall (λ e, (lineNum < Line e ≤ lineNum + length (text :: lines))%nat
                 ∧ parseLine m0 (Content e) = Failed (Err e)) errs0 →
    let m' := (scan_loop ctx lines (S lineNum) processed1 m1).1 in
    (∀ ipNum c, ipMap m' !! ipNum = Some c →
       ipMap m !! ipNum = Some c
       ∨ ∃ t, t ∈ text :: lines ∧ parseLine m0 (strings_TrimSpace t) = Ok (c, ipNum))
    ∧ (0 < MaxRanges (config m0) → Z.of_nat processed < MaxRanges (config m0) →
         Z.of_nat (size (ipMap m')) - Z.of_nat (size (ipMap m))
         ≤ MaxRanges (config m0) - Z.of_nat processed)
    ∧ ∃ errs,
        parseErrors m' = parseErrors m ++ errs
        ∧ (size (ipMap m') + length errs ≤ size (ipMap m) + length (text :: lines))%nat
        ∧ Forall (λ e, (lineNum < Line e ≤ lineNum + length (text :: lines))%nat
                       ∧ parseLine m0 (Content e) = Failed (Err e)) errs) as Hrec.
  { intros processed1 m1 errs0 Hcfg1 Hmap Hsz Hproc Hszp Hlim Herrs Hall.
    destruct (IH (S lineNum) processed1 m1 Hcfg1) as (Hmap' & Hmax' & errs1 & He1 & Hs1 & Hall1).
    split; [|split].
    - intros ipNum c Hl. destruct (Hmap' ipNum c Hl) as [Hl1|(t & Ht & Hp)].
      + destruct (Hmap ipNum c Hl1) as [?|?]; [by left|].
        right. exists text. split; [left|done].
      + right. exists t. split; [by right|done].
    - intros Hpos Hlt. specialize (Hmax' Hpos (Hlim Hpos Hlt)). lia.
    - exists (errs0 ++ errs1). rewrite He1, Herrs, app_assoc. split; [done|].
      rewrite length_app. simpl. split; [lia|].
      apply Forall_app. split; [done|].
      eapply Forall_impl; [exact Hall1|]. simpl. intros e [Hl He]. split; [lia|done]. }
  destruct (ctx_Done ctx lineNum).
  { simpl. split; [by left|]. split; [lia|]. exists []. rewrite app_nil_r.
    split; [done|]. split; [simpl; lia|constructor]. }
  destruct (_ || _).
  { apply (Hrec processed m []); try done; try lia.
    - by left.
    - simpl. lia.
    - by rewrite app_nil_r. }
  rewrite (exact_parseLine_config m m0) by done.
  destruct (parseLine m0 (strings_TrimSpace text)) as [[c ipNum]|err] eqn:Hline.
  - assert (size (ipMap (set_ipMap (<[ipNum:=c]> (ipMap m)) m)) ≤ S (size (ipMap m)))%nat
      as Hsz.
    { simpl. rewrite map_size_insert. destruct (ipMap m !! ipNum); simpl; lia. }
    assert (∀ ip c0, ipMap (set_ipMap (<[ipNum:=c]> (ipMap m)) m) !! ip = Some c0 →
              ipMap m !! ip = Some c0
              ∨ parseLine m0 (strings_TrimSpace text) = Ok (c0, ip)) as Hmap.
    { intros ip c0. simpl. destruct (decide (ip = ipNum)) as [->|Hne].
      - rewrite lookup_insert_eq. intros [= <-]. by right.
      - rewrite lookup_insert_ne by done. by left. }
    change (config (set_ipMap (<[ipNum:=c]> (ipMap m)) m)) with (config m). rewrite Hcfg.
    destruct (_ && _) eqn:Hlim.
    + cbn [fst]. split; [|split].
      * intros ip c0 Hl. destruct (Hmap ip c0 Hl) as [?|?]; [by left|].
        right. exists text. split; [left|done].
      * intros Hpos Hlt. lia.
      * exists []. rewrite app_nil_r. split; [done|]. split; [simpl in *; lia|constructor].
    + apply (Hrec (S processed) (set_ipMap (<[ipNum:=c]> (ipMap m)) m) []);
        try done; try lia.
      * intros ip c0 Hl. rewrite <- Hline. by apply Hmap.
      * simpl in *. lia.
      * intros Hpos Hlt. apply andb_false_iff in Hlim as [Hlim|Hlim].
        -- rewrite Z.gtb_ltb in Hlim. apply Z.ltb_ge in Hlim. lia.
        -- rewrite Z.geb_leb in Hlim. by apply Z.leb_gt in Hlim.
      * by rewrite app_nil_r.
  - apply (Hrec processed
             (set_parseErrors
                (parseErrors m ++ [{| Line := S lineNum; Content := strings_TrimSpace text;
                                      Err := err |}]) m)
             [{| Line := S lineNum; Content := strings_TrimSpace text; Err := err |}]);
      try done; try lia.
    + by left.
    + simpl. lia.
    + simpl. lia.
    + constructor; [|constructor]. simpl. split; [lia|done].
Qed.

(** Every error the loop records holds the number of a scanned line and
    the trimmed text of that very line. *)
Lemma exact_scan_loop_error_lines (ctx : Context) (lines : list string)
    (lineNum processed : nat) (m : ExactIPCountryMap) :
  ∃ errs,
    parseErrors (scan_loop ctx lines lineNum processed m).1 = parseErrors m ++ errs
    ∧ Forall (λ e, (lineNum < Line e)%nat
                   ∧ ∃ text, lines !! (Line e - S lineNum)%nat = Some text
                             ∧ Content e = strings_TrimSpace text) errs.
Proof.
  revert lineNum processed m.
  induction lines as [|text lines IH]; intros lineNum processed m; cbn [scan_loop].
  { exists []. by rewrite app_nil_r. }
  destruct (ctx_Done ctx lineNum); [exists []; by rewrite app_nil_r|].
  assert (∀ processed1 m1 (ea : list ParseError),
            parseErrors m1 = parseErrors m ++ ea →
            Forall (λ e, Line e = S lineNum ∧ Content e = strings_TrimSpace text) ea →
            ∃ errs,
              parseErrors (scan_loop ctx lines (S lineNum) processed1 m1).1
              = parseErrors m ++ errs
              ∧ Forall (λ e, (lineNum < Line e)%nat
                             ∧ ∃ t, (text :: lines) !! (Line e - S lineNum)%nat = Some t
                                    ∧ Content e = strings_TrimSpace t) errs) as Hrec.
  { intros processed1 m1 ea Hm1 Hea.
    destruct (IH (S lineNum) processed1 m1) as (e1 & He1 & Hall).
    exists (ea ++ e1). rewrite He1, Hm1, app_assoc. split; [done|]. apply Forall_app. split.
    - eapply Forall_impl; [exact Hea|]. simpl. intros e [Hl Hc]. split; [lia|].
      exists text. rewrite Hl, Nat.sub_diag. done.
    - eapply Forall_impl; [exact Hall|]. simpl. intros e (Hl & t & Ht & Hc).
      split; [lia|]. exists t. split; [|done].
      replace (Line e - S lineNum)%nat with (S (Line e - S (S lineNum))) by lia. done. }
  destruct (_ || _); [apply (Hrec _ _ []); [by rewrite app_nil_r|constructor]|].
  destruct (parseLine m (strings_TrimSpace text)) as [[c ipNum]|err].
  - destruct (_ && _).
    + exists []. by rewrite app_nil_r.
    + apply (Hrec _ _ []); [simpl; by rewrite app_nil_r|constructor].
  - apply (Hrec _ _ [{| Line := S lineNum; Content := strings_TrimSpace text;
                        Err := err |}]); [done|]. by repeat constructor.
Qed.

(** X14. What a successful load of the exact engine leaves: the engine
    is initialised with the lock free and the cache untouched; every
    address in the map comes from a line of the file that parseLine
    accepts with that code, which is not empty; Stats.TotalRanges is the
    number of distinct addresses and Stats.FileSize the size reported by
    [file.Stat]; each line gave at most one address or one recorded error;
    the map has at most [MaxRanges] addresses when that limit is positive;
    and every recorded error carries the number of a line of the file,
    the trimmed text of that line, and the error with which parseLine
    refused it. *)
Theorem exact_load_result (ctx : Context) (w : World) (m m' : ExactIPCountryMap) :
  mu m = Unlocked → initialized m ≠ 1 →
  initializeWithContext ctx w m = Done None m' →
  ∃ file fileSize,
    os_Open w (filePath m) = Ok file ∧ file_stat file = Ok fileSize
    ∧ initialized m' = 1 ∧ mu m' = Unlocked ∧ cache m' = cache m
    ∧ (∀ ipNum c, ipMap m' !! ipNum = Some c →
         c ≠ EmptyString
         ∧ ∃ text, text ∈ file_lines file
                   ∧ parseLine m (strings_TrimSpace text) = Ok (c, ipNum))
    ∧ TotalRanges (stats m') = Z.of_nat (size (ipMap m'))
    ∧ FileSize (stats m') = fileSize
    ∧ (size (ipMap m') + length (parseErrors m') ≤ length (file_lines file))%nat
    ∧ (0 < MaxRanges (config m) → Z.of_nat (size (ipMap m')) ≤ MaxRanges (config m))
    ∧ Forall (λ e, (1 ≤ Line e ≤ length (file_lines file))%nat
                   ∧ (∃ text, file_lines file !! (Line e - 1)%nat = Some text
                              ∧ Content e = strings_TrimSpace text)
                   ∧ parseLine m (Content e) = Failed (Err e)) (parseErrors m').
Proof.
  intros Hmu Hi. rewrite exact_initializeWithContext_run by done.
  destruct (os_Open w (filePath m)) as [file|]; [|done].
  destruct (file_stat file) as [fileSize|] eqn:Hstat; [|done].
  destruct (_ && _); [done|]. cbv zeta.
  pose proof (scan_loop_frame ctx (file_lines file) 0 0 (set_parseErrors [] (set_ipMap ∅ m)))
    as (Hmu' & _ & _ & _ & _ & Hcache).
  destruct (exact_scan_loop_adds m ctx (file_lines file) 0 0
              (set_parseErrors [] (set_ipMap ∅ m)) eq_refl)
    as (Hmap & Hmax & errs & Herrs & Hsz & Hall).
  destruct (exact_scan_loop_error_lines ctx (file_lines file) 0 0
              (set_parseErrors [] (set_ipMap ∅ m))) as (errs2 & Herrs2 & Hlines).
  destruct (scan_loop ctx (file_lines file) 0 0 (set_parseErrors [] (set_ipMap ∅ m)))
    as [m1 [how|err]]; [|done]. simpl in *.
  destruct (match how with ScanExhausted => _ | ScanBreak => _ end); [done|].
  intros [= <-]. exists file, fileSize. simpl.
  rewrite map_size_empty in Hsz, Hmax. simpl in *. subst errs errs2.
  split; [done|]. split; [done|]. split; [done|]. split; [congruence|].
  split; [done|]. split.
  { intros ipNum c Hl.
    destruct (Hmap ipNum c Hl) as [Hl0|(text & Ht & Hp)]; [by rewrite lookup_empty in Hl0|].
    split; [by eapply exact_parseLine_code|by exists text]. }
  split; [done|]. split; [done|]. split; [lia|].
  split; [intros Hpos; specialize (Hmax Hpos); lia|].
  rewrite Forall_forall in Hall, Hlines. apply Forall_forall. intros e He.
  destruct (Hall e He) as [Hl Hp]. destruct (Hlines e He) as (_ & text & Ht & Hc).
  split; [lia|]. split; [|done]. by exists text.
Qed.

(** Lines that do not give [ipNum] leave its entry as it is. *)
Lemma exact_scan_loop_keeps (m0 : ExactIPCountryMap) (ctx : Context) (ipNum : Z)
    (lines : list string) (lineNum processed : nat) (m : ExactIPCountryMap) :
  config m = config m0 →
  (∀ text c, text ∈ lines → parseLine m0 (strings_TrimSpace text) ≠ Ok (c, ipNum)) →
  ipMap (scan_loop ctx lines lineNum processed m).1 !! ipNum = ipMap m !! ipNum.
Proof.
  revert lineNum processed m.
  induction lines as [|text lines IH]; intros lineNum processed m Hcfg Hno; [done|].
  cbn [scan_loop].
  assert (∀ t c, t ∈ lines → parseLine m0 (strings_TrimSpace t) ≠ Ok (c, ipNum)) as Hno'.
  { intros t c Ht. apply Hno. by right. }
  destruct (ctx_Done ctx lineNum); [done|].
  destruct (_ || _); [by apply IH|].
  rewrite (exact_parseLine_config m m0) by done.
  destruct (parseLine m0 (strings_TrimSpace text)) as [[c ip]|err] eqn:Hline.
  - assert (ip ≠ ipNum) as Hne.
    { intros ->. eapply Hno; [left|exact Hline]. }
    destruct (_ && _); simpl.
    + by rewrite lookup_insert_ne.
    + rewrite IH by done. simpl. by rewrite lookup_insert_ne.
  - by rewrite IH.
Qed.

(** With a context that is not cancelled and fewer lines than the limit,
    the loop runs to the end of the file. *)
Lemma exact_scan_loop_exhausts (ctx : Context) (lines : list string)
    (lineNum processed : nat) (m : ExactIPCountryMap) :
  (∀ n, (lineNum ≤ n < lineNum + length lines)%nat → ctx_Done ctx n = false) →
  (MaxRanges (config m) ≤ 0
   ∨ Z.of_nat processed + Z.of_nat (length lines) < MaxRanges (config m)) →
  (scan_loop ctx lines lineNum processed m).2 = Ok ScanExhausted.
Proof.
  revert lineNum processed m.
  induction lines as [|text lines IH]; intros lineNum processed m Hctx Hmax; [done|].
  cbn [scan_loop]. rewrite Hctx by (simpl; lia).
  assert (∀ n, (S lineNum ≤ n < S lineNum + length lines)%nat → ctx_Done ctx n = false)
    as Hctx'.
  { intros n Hn. apply Hctx. simpl. lia. }
  simpl length in Hmax. rewrite Nat2Z.inj_succ in Hmax.
  destruct (_ || _); [apply IH; [done|simpl; lia]|].
  destruct (parseLine m _) as [[c ip]|err].
  - change (config (set_ipMap (<[ip:=c]> (ipMap m)) m)) with (config m).
    assert ((MaxRanges (config m) >? 0)
            && (Z.of_nat (S processed) >=? MaxRanges (config m)) = false) as ->.
    { apply andb_false_iff. rewrite Z.gtb_ltb, Z.geb_leb, Z.ltb_ge, Z.leb_gt. lia. }
    apply IH; [done|]. simpl. lia.
  - apply IH; [done|]. simpl. lia.
Qed.

(** The entry of [ipNum] after the loop is the one of the last line that
    gives [ipNum]. *)
Lemma exact_scan_loop_stores (m0 : ExactIPCountryMap) (ctx : Context) (ipNum : Z)
    (c text : string) (l2 l1 : list string) (lineNum processed : nat)
    (m : ExactIPCountryMap) :
  config m = config m0 →
  (∀ n, (lineNum ≤ n < lineNum + length (l1 ++ text :: l2))%nat → ctx_Done ctx n = false) →
  (MaxRanges (config m0) ≤ 0
   ∨ Z.of_nat processed + Z.of_nat (length (l1 ++ text :: l2)) < MaxRanges (config m0)) →
  strings_TrimSpace text ≠ EmptyString →
  (SkipHeader (config m0) = true → (lineNum + length l1 ≠ 0)%nat) →
  parseLine m0 (strings_TrimSpace text) = Ok (c, ipNum) →
  (∀ t c', t ∈ l2 → parseLine m0 (strings_TrimSpace t) ≠ Ok (c', ipNum)) →
  ipMap (scan_loop ctx (l1 ++ text :: l2) lineNum processed m).1 !! ipNum = Some c.
Proof.
  intros Hcfg Hctx Hmax Htext Hhead Hline Hno. revert lineNum processed m Hcfg Hctx Hmax Hhead.
  induction l1 as [|t l1 IH]; intros lineNum processed m Hcfg Hctx Hmax Hhead.
  - simpl app. cbn [scan_loop]. rewrite Hctx by (simpl; lia).
    assert (String.eqb (strings_TrimSpace text) EmptyString
            || SkipHeader (config m) && (S lineNum =? 1)%nat = false) as ->.
    { apply orb_false_iff. split; [by apply String.eqb_neq|].
      apply andb_false_iff. rewrite Hcfg.
      destruct (SkipHeader (config m0)); [right|by left].
      apply Nat.eqb_neq. specialize (Hhead eq_refl). simpl in Hhead. lia. }
    rewrite (exact_parseLine_config m m0), Hline by done.
    change (config (set_ipMap (<[ipNum:=c]> (ipMap m)) m)) with (config m).
    simpl length in Hmax. rewrite Nat2Z.inj_succ in Hmax.
    assert ((MaxRanges (config m) >? 0)
            && (Z.of_nat (S processed) >=? MaxRanges (config m)) = false) as ->.
    { apply andb_false_iff. rewrite Hcfg, Z.gtb_ltb, Z.geb_leb, Z.ltb_ge, Z.leb_gt. lia. }
    rewrite (exact_scan_loop_keeps m0) by done. simpl. by rewrite lookup_insert_eq.
  - simpl app. cbn [scan_loop]. rewrite Hctx by (simpl; lia).
    assert (∀ n, (S lineNum ≤ n < S lineNum + length (l1 ++ text :: l2))%nat →
                 ctx_Done ctx n = false) as Hctx'.
    { intros n Hn. apply Hctx. simpl. lia. }
    assert (SkipHeader (config m0) = true → (S lineNum + length l1 ≠ 0)%nat) as Hhead'
      by (intros _; lia).
    simpl length in Hmax. rewrite Nat2Z.inj_succ in Hmax.
    destruct (_ || _); [apply IH; try done; lia|].
    destruct (parseLine m _) as [[c' ip]|err].
    + change (config (set_ipMap (<[ip:=c']> (ipMap m)) m)) with (config m).
      assert ((MaxRanges (config m) >? 0)
              && (Z.of_nat (S processed) >=? MaxRanges (config m)) = false) as ->.
      { apply andb_false_iff. rewrite Hcfg, Z.gtb_ltb, Z.geb_leb, Z.ltb_ge, Z.leb_gt.
        rewrite length_app in Hmax. simpl in Hmax. lia. }
      apply IH; try done. lia.
    + apply IH; try done. lia.
Qed.

(** X15. The last line wins.  On the first lookup of an exact engine
    whose file opens, is within the size limit, is read to its end without
    cancellation or scanner error and has fewer lines than [MaxRanges]
    (when that is positive): an address given by a line that is not blank
    nor the skipped header, and by no later line, is served with the code
    of that line, whatever earlier lines say about it. *)
Theorem exact_last_line_wins (ctx : Context) (w : World) (m : ExactIPCountryMap)
    (file : File) (fileSize : Z) (l1 l2 : list string) (text ipStr c : string)
    (ipNum : Z) :
  mreachable m → initialized m ≠ 1 →
  os_Open w (filePath m) = Ok file → file_stat file = Ok fileSize →
  (0 < MaxFileSize (config m) → fileSize ≤ MaxFileSize (config m)) →
  (∀ n, (n < length (file_lines file))%nat → ctx_Done ctx n = false) →
  file_scan_err file = None →
  (MaxRanges (config m) ≤ 0 ∨ Z.of_nat (length (file_lines file)) < MaxRanges (config m)) →
  file_lines file = l1 ++ text :: l2 →
  strings_TrimSpace text ≠ EmptyString →
  (SkipHeader (config m) = true → l1 ≠ []) →
  parseLine m (strings_TrimSpace text) = Ok (c, ipNum) →
  (∀ t c', t ∈ l2 → parseLine m (strings_TrimSpace t) ≠ Ok (c', ipNum)) →
  parseIP ipStr = Ok ipNum →
  ∃ m', GetCountryCodeWithContext ctx w ipStr m = Done (c, None) m'
        ∧ ipMap m' !! ipNum = Some c ∧ initialized m' = 1.
Proof.
  intros Hreach Hi Hopen Hstat Hsize Hctx Herr Hmax Hlines Htext Hhead Hline Hno Hip.
  pose proof (mreachable_inv m Hreach) as Hinv.
  pose proof (minv_mu m Hinv) as Hmu.
  pose proof (minv_uninit m Hinv Hi) as Hempty.
  rewrite exact_GetCountryCodeWithContext_eq, exact_initializeWithContext_run by done.
  rewrite Hopen, Hstat.
  assert ((MaxFileSize (config m) >? 0) && (fileSize >? MaxFileSize (config m)) = false)
    as ->.
  { apply andb_false_iff. rewrite !Z.gtb_ltb, !Z.ltb_ge.
    destruct (Z.le_gt_cases (MaxFileSize (config m)) 0); [by left|right; lia]. }
  cbv zeta.
  pose proof (scan_loop_frame ctx (file_lines file) 0 0 (set_parseErrors [] (set_ipMap ∅ m)))
    as (Hmu' & _ & _ & _ & _ & Hcache).
  pose proof (exact_scan_loop_exhausts ctx (file_lines file) 0 0
                (set_parseErrors [] (set_ipMap ∅ m))) as Hex.
  rewrite Hex; [|intros n Hn; apply Hctx; lia|simpl; lia]. rewrite Herr.
  pose proof (exact_scan_loop_stores m ctx ipNum c text l2 l1 0 0
                (set_parseErrors [] (set_ipMap ∅ m)) eq_refl) as Hst.
  rewrite <- Hlines in Hst. specialize (Hst ltac:(intros n Hn; apply Hctx; lia)
    ltac:(simpl; lia) Htext).
  assert (SkipHeader (config m) = true → (0 + length l1 ≠ 0)%nat) as Hhead'.
  { intros Hs. specialize (Hhead Hs). destruct l1; [done|simpl; lia]. }
  specialize (Hst Hhead' Hline Hno). rewrite Hip.
  set (m1 := (scan_loop ctx (file_lines file) 0 0 (set_parseErrors [] (set_ipMap ∅ m))).1)
    in *.
  set (s := set_initialized 1 (set_stats _ m1)).
  assert (mu s = Unlocked) as Hmus by (subst s; simpl; by rewrite Hmu').
  assert (items (cache s) = ∅) as Hcs by (subst s; simpl; by rewrite Hcache).
  assert (ipMap s !! ipNum = Some c) as Hips by (by subst s).
  assert (initialized s = 1) as His by (by subst s).
  rewrite Hmus. simpl. unfold exact_find_pure. rewrite Hcs, lookup_empty, Hips. simpl.
  eexists. split; [done|]. by simpl.
Qed.

(** X16. Lookups of the exact engine.  In every state reached through
    the exported methods a lookup returns with the lock free, and its
    result is the initialisation error, or the invalid-address error of a
    string that parseIP refuses, or else what the map of the now
    initialised engine holds for the address: its code and no error, or
    the empty string and one of the two not-found errors.  Both lookup
    methods return the same. *)
Theorem exact_lookup_correct (m : ExactIPCountryMap) (ctx : Context) (w : World)
    (ipStr : string) :
  mreachable m →
  ∃ r m',
    GetCountryCodeWithContext ctx w ipStr m = Done r m'
    ∧ GetCountryWithContext ctx w ipStr m = Done r m'
    ∧ mu m' = Unlocked
    ∧ ((∃ e, r = (EmptyString, Some (ErrInitFailed e)))
       ∨ (∃ e, parseIP ipStr = Failed e ∧ r = (EmptyString, Some (ErrInvalidIP e)))
       ∨ (∃ ipNum, parseIP ipStr = Ok ipNum ∧ initialized m' = 1
            ∧ match ipMap m' !! ipNum with
              | Some c => r = (c, None)
              | None => r = (EmptyString, Some ErrNotFound)
                        ∨ r = (EmptyString, Some ErrNotFoundCached)
              end)).
Proof.
  intros Hreach. pose proof (mreachable_inv m Hreach) as Hinv.
  rewrite exact_GetCountryCodeWithContext_eq, exact_GetCountryWithContext_eq.
  destruct (exact_initializeWithContext_inv ctx w m Hinv) as (r0 & s & -> & Hs & Hr).
  pose proof (minv_mu s Hs) as Hmu.
  destruct r0 as [e|].
  { eexists _, _. repeat split; try done. left. by eexists. }
  destruct (parseIP ipStr) as [ipNum|e] eqn:Hip.
  2:{ eexists _, _. repeat split; try done. right. left. by eexists. }
  rewrite Hmu. simpl.
  rewrite (exact_find_pure_mirror ipNum s Hs).
  eexists _, _. split; [done|]. split; [done|]. split; [done|].
  right. right. exists ipNum. split; [done|]. split; [by apply Hr|]. simpl.
  unfold exact_find_pure.
  destruct (items (cache s) !! ipNum) as [el|] eqn:Hk; simpl.
  - rewrite (minv_coherent s Hs ipNum el Hk). unfold exact_entry.
    destruct (ipMap s !! ipNum); simpl; [done|by right].
  - destruct (ipMap s !! ipNum); simpl; [done|by left].
Qed.

End ExactEngineLoad.

Lemma exact_load_result_witness :
  let file := {| file_stat := Ok 40;
                 file_lines := ["8.8.8.8,US"; "  no address  "; "1.1.1.1,US"; "8.8.8.8,AU"];
                 file_scan_err := None |} in
  let w := {| os_Open := λ _, Ok file; clock_start := 0; clock_loaded := 1;
              clock_now := 2 |} in
  let m := ExactEngine.NewExactIPCountryMap "ips.csv" [] in
  ∃ m', ExactEngine.initializeWithContext context_Background w m = Done None m'
        ∧ size (ExactEngine.ipMap m') = 2%nat
        ∧ TotalRanges (ExactEngine.stats m') = 2
        ∧ length (ExactEngine.parseErrors m') = 1%nat
        ∧ Forall (λ e, (1 ≤ Line e ≤ length (file_lines file))%nat
                       ∧ (∃ text, file_lines file !! (Line e - 1)%nat = Some text
                                  ∧ Content e = strings_TrimSpace text)
                       ∧ ExactEngine.parseLine m (Content e) = Failed (Err e))
            (ExactEngine.parseErrors m').
Proof.
  intros file w m.
  assert (∃ m', ExactEngine.initializeWithContext context_Background w m = Done None m'
                ∧ size (ExactEngine.ipMap m') = 2%nat
                ∧ length (ExactEngine.parseErrors m') = 1%nat)
    as (m' & Hrun & Hsize & Hlen).
  { eexists. split; [by vm_compute|]. split; by vm_compute. }
  destruct (exact_load_result context_Background w m m' eq_refl ltac:(done) Hrun)
    as (file' & fileSize & Hopen & _ & _ & _ & _ & _ & Htotal & _ & _ & _ & Hall).
  injection Hopen as <-.
  exists m'. split; [done|]. split; [done|]. split; [by rewrite Htotal, Hsize|].
  split; [done|]. exact Hall.
Defined.

Lemma exact_last_line_wins_witness :
  ∃ m', ExactEngine.GetCountryCodeWithContext context_Background example_exact_world
          "8.8.8.8" (ExactEngine.NewExactIPCountryMap "ips.csv" [])
        = Done ("AU", None) m'.
Proof.
  destruct (exact_last_line_wins context_Background example_exact_world
              (ExactEngine.NewExactIPCountryMap "ips.csv" []) example_exact_file 22
              ["1.1.1.1,US"] [] "8.8.8.8,AU" "8.8.8.8" "AU" 134744072)
    as (m' & Hcall & _).
  - apply mreach_New.
  - done.
  - done.
  - done.
  - intros _. by vm_compute.
  - done.
  - done.
  - right. by vm_compute.
  - done.
  - by vm_compute.
  - done.
  - by vm_compute.
  - intros t c' Ht. by apply elem_of_nil in Ht.
  - by vm_compute.
  - by exists m'.
Defined.

Lemma exact_lookup_correct_witness :
  ∃ r m', ExactEngine.GetCountryCodeWithContext context_Background example_exact_world
            "1.1.1.1" (ExactEngine.NewExactIPCountryMap "ips.csv" []) = Done r m'
          ∧ ExactEngine.mu m' = Unlocked.
Proof.
  destruct (exact_lookup_correct (ExactEngine.NewExactIPCountryMap "ips.csv" [])
              context_Background example_exact_world "1.1.1.1" (mreach_New "ips.csv" []))
    as (r & m' & Hcall & _ & Hmu & _).
  by exists r, m'.
Defined.


(** ** The exact engine between calls *)
Section ExactEngineCalls.
Context {go_text : GoText}.
Import ExactEngine.

Lemma NewExactIPCountryMap_bounds (path : string) (cfgs : list Config) :
  map_bounds (NewExactIPCountryMap path cfgs).
Proof.
  unfold NewExactIPCountryMap, map_bounds.
  set (cfg := match cfgs with c :: _ => c | [] => DefaultConfig end).
  destruct (String.eqb (Delimiter cfg) EmptyString) eqn:Hd;
    destruct (CacheSize _ <=? 0) eqn:Hc; simpl in *;
    try apply Z.leb_gt in Hc; try apply String.eqb_neq in Hd;
    repeat split; try done; try lia.
Qed.

Lemma exact_initializeWithContext_bounds (ctx : Context) (w : World)
    (m : ExactIPCountryMap) (r0 : option error) (s : ExactIPCountryMap) :
  map_inv m → map_bounds m → initializeWithContext ctx w m = Done r0 s → map_bounds s.
Proof.
  intros Hinv Hb. destruct (decide (initialized m = 1)) as [Hi|Hi].
  { rewrite exact_initializeWithContext_ready by done. by intros [= _ <-]. }
  rewrite exact_initializeWithContext_run by (done || apply Hinv).
  destruct Hb as (Hd & Hc & Hcap & Hlen & _).
  assert (∀ e, map_bounds (set_initErr (Some e) m)) as Hfail.
  { intros e. unfold map_bounds. simpl. repeat split; try done. }
  destruct (os_Open w (filePath m)) as [file|]; [|by intros [= _ <-]].
  destruct (file_stat file) as [fileSize|]; [|by intros [= _ <-]].
  destruct (_ && _); [by intros [= _ <-]|]. cbv zeta.
  pose proof (scan_loop_frame ctx (file_lines file) 0 0 (set_parseErrors [] (set_ipMap ∅ m)))
    as (_ & Hi' & _ & Hcfg & _ & Hcache).
  destruct (exact_scan_loop_adds m ctx (file_lines file) 0 0
              (set_parseErrors [] (set_ipMap ∅ m)) eq_refl)
    as (Hmap & Hmax & _).
  destruct (scan_loop ctx (file_lines file) 0 0 (set_parseErrors [] (set_ipMap ∅ m)))
    as [m1 [how|err]]; simpl in *.
  - destruct (match how with ScanExhausted => _ | ScanBreak => _ end).
    + intros [= _ <-]. unfold map_bounds. simpl. rewrite Hcfg, Hcache, Hi'.
      repeat split; done.
    + intros [= _ <-]. unfold map_bounds. simpl. rewrite Hcfg, Hcache.
      split; [done|]. split; [done|]. split; [done|]. split; [done|]. intros _.
      split; [done|]. split.
      * intros Hpos. rewrite map_size_empty in Hmax. specialize (Hmax Hpos). simpl in Hmax.
        lia.
      * intros ipNum c Hl.
        destruct (Hmap ipNum c Hl) as [Hl0|(text & _ & Hp)];
          [by rewrite lookup_empty in Hl0|]. by eapply exact_parseLine_code.
  - intros [= _ <-]. unfold map_bounds. simpl. rewrite Hcfg, Hcache, Hi'.
    repeat split; done.
Qed.

Lemma exact_find_pure_bounds (ipNum : Z) (m : ExactIPCountryMap) :
  cache_wf (cache m) → 1 ≤ capacity (cache m) →
  Z.of_nat (length (evictList (cache m))) ≤ capacity (cache m) →
  capacity (exact_find_pure ipNum m).2 = capacity (cache m)
  ∧ Z.of_nat (length (evictList (exact_find_pure ipNum m).2)) ≤ capacity (cache m).
Proof.
  intros Hwf Hcap Hlen. unfold exact_find_pure.
  destruct (items (cache m) !! ipNum); simpl.
  - by rewrite get_capacity, get_length.
  - rewrite put_capacity, get_capacity. split; [done|].
    rewrite <- (get_capacity (cache m) ipNum).
    apply put_length_bound.
    + by apply get_wf.
    + by rewrite get_capacity.
    + by rewrite get_capacity, get_length.
Qed.

Lemma exact_lookup_state_bounds (ipNum : Z) (s : ExactIPCountryMap) :
  map_inv s → map_bounds s →
  map_bounds (set_mu Unlocked (set_cache (exact_find_pure ipNum s).2 s)).
Proof.
  intros Hinv (Hd & Hc & Hcap & Hlen & Hinit).
  destruct (exact_find_pure_bounds ipNum s) as [Hcap' Hlen'];
    [apply Hinv|lia|lia|].
  unfold map_bounds. simpl. rewrite Hcap'. repeat split; try done; try lia; by apply Hinit.
Qed.

Lemma mreachable_bounds (m : ExactIPCountryMap) : mreachable m → map_bounds m.
Proof.
  induction 1 as [path cfgs|m ctx w ipStr r m' Hreach IH Hcall
                 |m ctx w ipStr r m' Hreach IH Hcall
                 |m r m' Hreach IH Hcall|m r m' Hreach IH Hcall
                 |m ctx w r m' Hreach IH Hcall].
  - apply NewExactIPCountryMap_bounds.
  - pose proof (mreachable_inv m Hreach) as Hinv.
    rewrite exact_GetCountryWithContext_eq in Hcall.
    destruct (exact_initializeWithContext_inv ctx w m Hinv) as (r0 & s & Hrun & Hs & _).
    pose proof (exact_initializeWithContext_bounds ctx w m r0 s Hinv IH Hrun) as Hb.
    rewrite Hrun in Hcall.
    destruct r0; [by injection Hcall as _ <-|].
    destruct (parseIP ipStr); [|by injection Hcall as _ <-].
    rewrite (minv_mu s Hs) in Hcall. simpl in Hcall.
    injection Hcall as _ <-. by apply exact_lookup_state_bounds.
  - pose proof (mreachable_inv m Hreach) as Hinv.
    rewrite exact_GetCountryCodeWithContext_eq in Hcall.
    destruct (exact_initializeWithContext_inv ctx w m Hinv) as (r0 & s & Hrun & Hs & _).
    pose proof (exact_initializeWithContext_bounds ctx w m r0 s Hinv IH Hrun) as Hb.
    rewrite Hrun in Hcall.
    destruct r0; [by injection Hcall as _ <-|].
    destruct (parseIP ipStr); [|by injection Hcall as _ <-].
    rewrite (minv_mu s Hs) in Hcall. simpl in Hcall.
    injection Hcall as _ <-. by apply exact_lookup_state_bounds.
  - destruct (exact_GetStats_inv m (mreachable_inv m Hreach)) as (r' & Heq). congruence.
  - destruct (exact_GetParseErrors_inv m (mreachable_inv m Hreach)) as (r' & Heq).
    congruence.
  - rewrite exact_ReloadWithContext_blocked in Hcall. by destruct (mu m).
Qed.

(** X17. In every state of an exact engine reached through the exported
    methods the configuration has a non-empty delimiter and a cache size
    of at least one, and the cache holds at most that many addresses;
    Stats and GetParseErrors return without changing the state, the one
    with the counters of the cache and the other with the recorded errors;
    and once the engine is initialised, Stats reports the number of
    distinct addresses of the map, which is at most [MaxRanges] when that
    limit is positive, and no address has an empty code. *)
Theorem exact_reachable_bounds (m : ExactIPCountryMap) :
  mreachable m →
  Delimiter (config m) ≠ EmptyString
  ∧ 1 ≤ CacheSize (config m)
  ∧ Z.of_nat (size (items (cache m))) ≤ CacheSize (config m)
  ∧ GetParseErrors m = Done (parseErrors m) m
  ∧ (∃ st, GetStats m = Done st m
       ∧ CacheHits st = hits (cache m) ∧ CacheMisses st = misses (cache m)
       ∧ (initialized m = 1 → TotalRanges st = Z.of_nat (size (ipMap m))))
  ∧ (initialized m = 1 →
       (0 < MaxRanges (config m) → Z.of_nat (size (ipMap m)) ≤ MaxRanges (config m))
       ∧ ∀ ipNum c, ipMap m !! ipNum = Some c → c ≠ EmptyString).
Proof.
  intros Hreach. pose proof (mreachable_inv m Hreach) as Hinv.
  destruct (mreachable_bounds m Hreach) as (Hd & Hc & Hcap & Hlen & Hinit).
  destruct (cache_wf_keys (cache m) (minv_wf m Hinv)) as (_ & _ & Hsize).
  pose proof (minv_mu m Hinv) as Hmu.
  assert (set_mu Unlocked (set_mu (ReadLocked 1) m) = m) as Hback.
  { destruct m. simpl in *. by subst. }
  split; [done|]. split; [done|]. split; [by rewrite Hsize|]. split.
  { unfold GetParseErrors, M_defer, M_bind, mu_RLock, M_acquire. rewrite Hmu. simpl.
    by rewrite Hback. }
  split.
  { unfold GetStats, M_bind, mu_RLock, M_acquire. rewrite Hmu. simpl. rewrite Hback.
    eexists. split; [done|]. simpl. split; [done|]. split; [done|].
    intros Hi. by apply Hinit. }
  intros Hi. by apply Hinit.
Qed.

End ExactEngineCalls.

Lemma exact_reachable_bounds_witness :
  let cfg := {| Delimiter := ","; MaxFileSize := 0; MaxRanges := 2; CacheSize := 1;
                SkipHeader := false |} in
  let file := {| file_stat := Ok 48;
                 file_lines := ["1.1.1.1,US"; "no address"; "8.8.8.8,AU"; "9.9.9.9,DE"];
                 file_scan_err := None |} in
  let w := {| os_Open := λ _, Ok file; clock_start := 0; clock_loaded := 1;
              clock_now := 2 |} in
  let m0 := ExactEngine.NewExactIPCountryMap "ips.csv" [cfg] in
  let m1 := outcome_state (ExactEngine.GetCountryCode w "1.1.1.1" m0) in
  let m := outcome_state (ExactEngine.GetCountryCode w "9.9.9.9" m1) in
  ExactEngine.initialized m = 1
  ∧ size (ExactEngine.ipMap m) = 2%nat
  ∧ size (items (ExactEngine.cache m)) = 1%nat
  ∧ length (ExactEngine.parseErrors m) = 1%nat
  ∧ Z.of_nat (size (items (ExactEngine.cache m))) ≤ CacheSize (ExactEngine.config m)
  ∧ ExactEngine.GetParseErrors m = Done (ExactEngine.parseErrors m) m
  ∧ (∃ st, ExactEngine.GetStats m = Done st m
       ∧ CacheHits st = hits (ExactEngine.cache m)
       ∧ CacheMisses st = misses (ExactEngine.cache m)
       ∧ TotalRanges st = Z.of_nat (size (ExactEngine.ipMap m)))
  ∧ Z.of_nat (size (ExactEngine.ipMap m)) ≤ MaxRanges (ExactEngine.config m)
  ∧ ∀ ipNum c, ExactEngine.ipMap m !! ipNum = Some c → c ≠ EmptyString.
Proof.
  intros cfg file w m0 m1 m.
  assert (mreachable m) as Hm.
  { apply (mreach_GetCountryCode m1 context_Background w "9.9.9.9"
             (EmptyString, Some ErrNotFound) m); [|by vm_compute].
    apply (mreach_GetCountryCode m0 context_Background w "1.1.1.1"
             ("US", None) m1); [apply mreach_New|by vm_compute]. }
  assert (ExactEngine.initialized m = 1) as Hi by (by vm_compute).
  destruct (exact_reachable_bounds m Hm)
    as (_ & _ & Hcache & Herrs & (st & Hst & Hh & Hmi & Htot) & Hinit).
  destruct (Hinit Hi) as [Hmax Hcodes].
  split; [done|]. split; [by vm_compute|]. split; [by vm_compute|].
  split; [by vm_compute|]. split; [done|]. split; [done|].
  split; [exists st; by auto|]. split; [by apply Hmax|done].
Defined.


(** ** From the lines of the file to the answer of a lookup *)
Section RangeEndToEnd.
Context {go_text : GoText} {go_sort : SortSlice}.
Import RangeEngine.

(** Every range the loop adds comes from a line that parseLine accepts. *)
Lemma scan_loop_sound (db : IPCountryDB) (ctx : Context) (lines : list string)
    (lineNum : nat) (rs : list IPRange) (errors : list ParseError)
    (how : scan_end) (rs' : list IPRange) (errors' : list ParseError) :
  scan_loop db ctx lines lineNum rs errors = Ok (how, rs', errors') →
  ∀ rg, rg ∈ rs' →
    rg ∈ rs ∨ ∃ text, text ∈ lines ∧ parseLine db (strings_TrimSpace text) = Ok rg.
Proof.
  revert lineNum rs errors.
  induction lines as [|text lines IH]; intros lineNum rs errors; cbn [scan_loop].
  { intros [= <- <- <-] rg Hrg. by left. }
  destruct (ctx_Done ctx lineNum); [done|].
  assert (∀ rs0 errors0,
            scan_loop db ctx lines (S lineNum) rs0 errors0 = Ok (how, rs', errors') →
            (∀ rg, rg ∈ rs0 →
               rg ∈ rs ∨ parseLine db (strings_TrimSpace text) = Ok rg) →
            ∀ rg, rg ∈ rs' →
              rg ∈ rs ∨ ∃ t, t ∈ text :: lines ∧ parseLine db (strings_TrimSpace t) = Ok rg)
    as Hrec.
  { intros rs0 errors0 Hscan Hrs0 rg Hrg.
    destruct (IH _ _ _ Hscan rg Hrg) as [Hin|(t & Ht & Hp)].
    - destruct (Hrs0 rg Hin) as [?|?]; [by left|]. right. exists text. split; [left|done].
    - right. exists t. split; [by right|done]. }
  destruct (_ || _); [intros Hscan; apply (Hrec _ _ Hscan); by left|].
  destruct (parseLine db (strings_TrimSpace text)) as [r|err] eqn:Hline.
  - assert (∀ rg, rg ∈ rs ++ [r] →
              rg ∈ rs ∨ parseLine db (strings_TrimSpace text) = Ok rg) as Hnew.
    { intros rg Hrg. apply elem_of_app in Hrg as [?|Hrg]; [by left|].
      apply list_elem_of_singleton in Hrg as ->. by right. }
    destruct (_ && _).
    + intros [= <- <- <-] rg Hrg. destruct (Hnew rg Hrg) as [?|?]; [by left|].
      right. exists text. split; [left|]. congruence.
    + intros Hscan. apply (Hrec _ _ Hscan). intros rg Hrg.
      destruct (Hnew rg Hrg) as [?|?]; [by left|right; congruence].
  - intros Hscan. apply (Hrec _ _ Hscan). by left.
Qed.

(** A line that parseLine accepts is loaded, unless it is blank, the
    skipped header, or behind the line at which the limit was reached. *)
Lemma scan_loop_complete (db : IPCountryDB) (ctx : Context) (text : string)
    (l2 l1 : list string) (lineNum : nat) (rs : list IPRange) (errors : list ParseError)
    (how : scan_end) (rs' : list IPRange) (errors' : list ParseError) (rg : IPRange) :
  scan_loop db ctx (l1 ++ text :: l2) lineNum rs errors = Ok (how, rs', errors') →
  (MaxRanges (config db) ≤ 0
   ∨ Z.of_nat (length rs) + Z.of_nat (length l1) < MaxRanges (config db)) →
  strings_TrimSpace text ≠ EmptyString →
  (SkipHeader (config db) = true → (lineNum + length l1 ≠ 0)%nat) →
  parseLine db (strings_TrimSpace text) = Ok rg →
  rg ∈ rs'.
Proof.
  intros Hscan Hmax Htext Hhead Hline.
  revert lineNum rs errors Hscan Hmax Hhead.
  induction l1 as [|t l1 IH]; intros lineNum rs errors Hscan Hmax Hhead.
  - simpl app in Hscan. cbn [scan_loop] in Hscan.
    destruct (ctx_Done ctx lineNum); [done|].
    assert (String.eqb (strings_TrimSpace text) EmptyString
            || SkipHeader (config db) && (S lineNum =? 1)%nat = false) as Hskip.
    { apply orb_false_iff. split; [by apply String.eqb_neq|].
      apply andb_false_iff. destruct (SkipHeader (config db)); [right|by left].
      apply Nat.eqb_neq. specialize (Hhead eq_refl). simpl in Hhead. lia. }
    rewrite Hskip, Hline in Hscan.
    destruct (_ && _).
    + injection Hscan as _ <- _. apply elem_of_app. right. by left.
    + apply scan_loop_appends in Hscan as (rs1 & _ & -> & _).
      apply elem_of_app. left. apply elem_of_app. right. by left.
  - simpl app in Hscan. cbn [scan_loop] in Hscan.
    destruct (ctx_Done ctx lineNum); [done|].
    assert (SkipHeader (config db) = true → (S lineNum + length l1 ≠ 0)%nat) as Hhead'
      by (intros _; lia).
    simpl length in Hmax. rewrite Nat2Z.inj_succ in Hmax.
    destruct (_ || _); [apply (IH _ _ _ Hscan); [lia|done]|].
    destruct (parseLine db (strings_TrimSpace t)) as [r|err].
    + assert ((MaxRanges (config db) >? 0)
              && (Z.of_nat (length (rs ++ [r])) >=? MaxRanges (config db)) = false) as Hlim.
      { apply andb_false_iff. rewrite Z.gtb_ltb, Z.geb_leb, Z.ltb_ge, Z.leb_gt.
        rewrite length_app, Nat2Z.inj_add. simpl. lia. }
      rewrite Hlim in Hscan. apply (IH _ _ _ Hscan); [|done].
      rewrite length_app, Nat2Z.inj_add. simpl. lia.
    + apply (IH _ _ _ Hscan); [lia|done].
Qed.

(** X18. The ranges a successful parse returns are those of the lines
    of the file: every returned range is what parseLine makes of some line,
    and every line that parseLine accepts is among the returned ranges
    when it is not blank, not the skipped header and, with a positive
    [MaxRanges], its index is below that limit. *)
Theorem parsed_ranges_are_the_lines (db : IPCountryDB) (ctx : Context) (w : World)
    (path : string) (file : File) (res : ParseResult) :
  os_Open w path = Ok file →
  parseFileWithContext db ctx w path = Ok res →
  (∀ rg, rg ∈ Ranges res →
     ∃ text, text ∈ file_lines file ∧ parseLine db (strings_TrimSpace text) = Ok rg)
  ∧ (∀ (i : nat) text rg,
       file_lines file !! i = Some text →
       strings_TrimSpace text ≠ EmptyString →
       (SkipHeader (config db) = true → i ≠ 0%nat) →
       (MaxRanges (config db) ≤ 0 ∨ Z.of_nat i < MaxRanges (config db)) →
       parseLine db (strings_TrimSpace text) = Ok rg →
       rg ∈ Ranges res).
Proof.
  intros Hopen. unfold parseFileWithContext, parseReaderWithContext. rewrite Hopen.
  destruct (file_stat file) as [fileSize|]; [|done].
  destruct (_ && _); [done|].
  destruct (scan_loop _ _ _ _ _ _) as [[[how rs] errors]|] eqn:Hscan; [|done].
  destruct (match how with ScanExhausted => _ | ScanBreak => _ end); [done|].
  intros [= <-]. simpl. split.
  - intros rg Hrg. destruct (scan_loop_sound _ _ _ _ _ _ _ _ _ Hscan rg Hrg) as [Hin|?];
      [by apply elem_of_nil in Hin|done].
  - intros i text rg Hi Htext Hhead Hmax Hline.
    pose proof (lookup_lt_Some _ _ _ Hi) as Hlt.
    rewrite <- (take_drop_middle _ _ _ Hi) in Hscan.
    apply (scan_loop_complete _ _ _ _ _ _ _ _ _ _ _ rg Hscan); try done.
    + rewrite length_take. simpl. lia.
    + intros Hs. specialize (Hhead Hs). rewrite length_take. lia.
Qed.

(** Two ranges of a pairwise disjoint list that contain the same address
    are the same range. *)
Lemma pairwise_disjoint_unique (rs : list IPRange) (a b : IPRange) (ipNum : Z) :
  pairwise_disjoint rs → a ∈ rs → b ∈ rs →
  Contains a ipNum = true → Contains b ipNum = true → a = b.
Proof.
  intros Hdis Ha Hb Hina Hinb.
  apply list_elem_of_lookup_1 in Ha as [i Hi]. apply list_elem_of_lookup_1 in Hb as [j Hj].
  destruct (decide (i = j)) as [->|Hne]; [congruence|].
  pose proof (Hdis i j a b ipNum Hne Hi Hj Hina). congruence.
Qed.

(** X19. From the file to the answer.  On the first lookup of a range
    engine whose file parses into ranges no two of which share an address,
    a valid address is answered with the code of the parsed range that
    contains it, wherever that range stands in the file, and with the
    not-found error when no parsed range contains it; the engine is
    initialised afterwards. *)
Theorem first_lookup_end_to_end (ctx : Context) (w : World) (db : IPCountryDB)
    (res : ParseResult) (ipStr : string) (ipNum : Z) :
  reachable db → initialized db ≠ 1 →
  parseFileWithContext db ctx w (filePath db) = Ok res →
  pairwise_disjoint (Ranges res) →
  parseIP ipStr = Ok ipNum →
  ∃ r db',
    GetCountryCodeWithContext ctx w ipStr db = Done r db'
    ∧ initialized db' = 1
    ∧ (∀ rg, rg ∈ Ranges res → Contains rg ipNum = true → r = (Code rg, None))
    ∧ ((∀ rg, rg ∈ Ranges res → Contains rg ipNum = false) →
         r = (EmptyString, Some ErrNotFound)).
Proof.
  intros Hreach Hi Hparse Hdis Hip.
  pose proof (reachable_inv db Hreach) as Hinv.
  pose proof (inv_mu db Hinv) as Hmu.
  destruct (inv_uninit db Hinv Hi) as [_ Hempty].
  pose proof (parsed_ranges_ok _ _ _ _ _ Hparse) as Hok.
  pose proof (proj2 (sort_disjoint_iff (Ranges res) Hok) Hdis) as Hno.
  pose proof (sort_by_start_sorted_by_start (Ranges res)) as Hsorted.
  assert (initializeWithContext ctx w db
          = Done None
              (set_initialized 1
                 (set_stats
                    (mkStats (clock_now w) (clock_loaded w - clock_start w)
                       (FileSize (PStats res)) (CacheHits (PStats res))
                       (CacheMisses (PStats res)) (TotalRanges (PStats res)))
                    (set_ranges (sort_by_start (Ranges res)) db)))) as Hrun.
  { rewrite initializeWithContext_load by done. unfold load_result.
    by rewrite Hparse, (proj2 (validateRanges_None _) Hno). }
  rewrite (GetCountryCodeWithContext_cases ctx w ipStr db _ _ Hinv Hrun), Hip.
  eexists _, _. split; [done|]. split; [done|].
  unfold find_pure. simpl. rewrite Hempty, lookup_empty.
  rewrite (range_search_linear _ _ Hsorted Hno). simpl. split.
  - intros rg Hrg Hin.
    destruct (linear_scan (sort_by_start (Ranges res)) ipNum) as [rg'|] eqn:Hscan.
    + apply linear_scan_Some in Hscan as [Hrg' Hin'].
      rewrite sort_by_start_perm in Hrg'.
      by rewrite (pairwise_disjoint_unique (Ranges res) rg rg' ipNum).
    + rewrite linear_scan_None in Hscan.
      rewrite <- (sort_by_start_perm (Ranges res)) in Hrg.
      specialize (Hscan rg Hrg). congruence.
  - intros Hnone.
    destruct (linear_scan (sort_by_start (Ranges res)) ipNum) as [rg'|] eqn:Hscan; [|done].
    apply linear_scan_Some in Hscan as [Hrg' Hin'].
    rewrite sort_by_start_perm in Hrg'. specialize (Hnone rg' Hrg'). congruence.
Qed.

(** X20. Lookups of the range engine.  In every state reached through
    the exported methods a lookup returns with the lock free, and its
    result is the initialisation error, or the invalid-address error of a
    string that parseIP refuses, or else is decided by the ranges of the
    now initialised engine: the code of the range that contains the
    address and no error, or the empty string and one of the two
    not-found errors when no range contains it. *)
Theorem range_lookup_api_correct (db : IPCountryDB) (ctx : Context) (w : World)
    (ipStr : string) :
  reachable db →
  ∃ r db',
    GetCountryCodeWithContext ctx w ipStr db = Done r db'
    ∧ mu db' = Unlocked
    ∧ ((∃ e, r = (EmptyString, Some (ErrInitFailed e)))
       ∨ (∃ e, parseIP ipStr = Failed e ∧ r = (EmptyString, Some (ErrInvalidIP e)))
       ∨ (∃ ipNum, parseIP ipStr = Ok ipNum ∧ initialized db' = 1
            ∧ (∀ rg, rg ∈ ranges db' → Contains rg ipNum = true → r = (Code rg, None))
            ∧ ((∀ rg, rg ∈ ranges db' → Contains rg ipNum = false) →
                 r = (EmptyString, Some ErrNotFound)
                 ∨ r = (EmptyString, Some ErrNotFoundCached)))).
Proof.
  intros Hreach. pose proof (reachable_inv db Hreach) as Hinv.
  destruct (initializeWithContext_inv ctx w db Hinv) as (r0 & s & Hrun & Hs & Hr).
  rewrite (GetCountryCodeWithContext_cases ctx w ipStr db r0 s Hinv Hrun).
  pose proof (inv_mu s Hs) as Hmu.
  destruct r0 as [e|].
  { eexists _, _. split; [done|]. split; [done|]. left. by eexists. }
  destruct (parseIP ipStr) as [ipNum|e] eqn:Hip.
  2:{ eexists _, _. split; [done|]. split; [done|]. right. left. by eexists. }
  eexists _, _. split; [done|]. split; [done|].
  right. right. exists ipNum. split; [done|]. split; [by apply Hr|]. simpl.
  pose proof (find_pure_result ipNum s (inv_sorted s Hs) (inv_disjoint s Hs)
                (inv_coherent s Hs)) as Hres.
  destruct (find_pure ipNum s) as [[[cn cd] err] c']. simpl in *.
  unfold lookup_result_of in Hres.
  destruct (linear_scan (ranges s) ipNum) as [rg'|] eqn:Hscan.
  - apply linear_scan_Some in Hscan as [Hrg' Hin']. injection Hres as -> -> ->. split.
    + intros rg Hrg Hin. destruct (list_elem_of_lookup_1 _ _ Hrg) as [i Hi].
      destruct (list_elem_of_lookup_1 _ _ Hrg') as [j Hj].
      by rewrite (Contains_unique (ranges s) ipNum i j rg rg'
                    (inv_sorted s Hs) (inv_disjoint s Hs) Hi Hj Hin Hin') in Hi;
        simplify_eq.
    + intros Hnone. specialize (Hnone rg' Hrg'). congruence.
  - rewrite linear_scan_None in Hscan. split.
    + intros rg Hrg Hin. specialize (Hscan rg Hrg). congruence.
    + intros _. destruct Hres as [[= -> -> ->]|[= -> -> ->]]; [by left|by right].
Qed.

End RangeEndToEnd.

Lemma parsed_ranges_are_the_lines_witness :
  ∃ res, RangeEngine.parseFileWithContext
           (RangeEngine.NewIPCountryDB "ip_to_country.csv" []) context_Background
           example_world "ip_to_country.csv" = Ok res
         ∧ mkIPRange "US" "US" 134744064 134744319 ∈ Ranges res.
Proof.
  eexists. split; [by vm_compute|].
  eapply (proj2 (parsed_ranges_are_the_lines
                   (RangeEngine.NewIPCountryDB "ip_to_country.csv" []) context_Background
                   example_world "ip_to_country.csv" example_file _ eq_refl
                   ltac:(by vm_compute))
            2%nat "8.8.8.0,8.8.8.255,US").
  - done.
  - by vm_compute.
  - done.
  - right. by vm_compute.
  - by vm_compute.
Defined.

Lemma first_lookup_end_to_end_witness :
  ∃ db', RangeEngine.GetCountryCodeWithContext context_Background example_world "8.8.8.8"
           (RangeEngine.NewIPCountryDB "ip_to_country.csv" [])
         = Done ("US", None) db'.
Proof.
  assert (∃ res, RangeEngine.parseFileWithContext
                   (RangeEngine.NewIPCountryDB "ip_to_country.csv" [])
                   context_Background example_world "ip_to_country.csv" = Ok res
                 ∧ Ranges res = RangeEngine.ranges example_db) as (res & Hres & Hranges).
  { eexists. split; by vm_compute. }
  destruct (first_lookup_end_to_end context_Background example_world
              (RangeEngine.NewIPCountryDB "ip_to_country.csv" []) res "8.8.8.8" 134744072)
    as (r & db' & Hcall & _ & Hin & _).
  - apply reach_New.
  - done.
  - exact Hres.
  - rewrite Hranges. apply sorted_disjoint_iff.
    + repeat constructor; by vm_compute.
    + apply example_db_sorted.
    + apply example_db_disjoint.
  - by vm_compute.
  - exists db'. rewrite Hcall. f_equal.
    apply (Hin (mkIPRange "US" "US" 134744064 134744319)); [|by vm_compute].
    rewrite Hranges. simpl. do 2 right. left.
Defined.

Lemma range_lookup_api_correct_witness :
  ∃ r db', RangeEngine.GetCountryCodeWithContext context_Background example_world
             "8.8.8.8" (RangeEngine.NewIPCountryDB "ip_to_country.csv" []) = Done r db'
           ∧ RangeEngine.mu db' = Unlocked.
Proof.
  destruct (range_lookup_api_correct (RangeEngine.NewIPCountryDB "ip_to_country.csv" [])
              context_Background example_world "8.8.8.8"
              (reach_New "ip_to_country.csv" []))
    as (r & db' & Hcall & Hmu & _).
  by exists r, db'.
Defined.

(** ** Pre-validation with ParseCSVRanges *)
Section PreValidation.
Context {go_text : GoText} {go_sort : SortSlice}.
Import RangeEngine.

(** A context that is never cancelled parses like [context.Background()]. *)
Lemma parseFileWithContext_never_cancelled (db : IPCountryDB) (ctx : Context) (w : World)
    (path : string) :
  (∀ n, ctx_Done ctx n = false) →
  parseFileWithContext db ctx w path = parseFileWithContext db context_Background w path.
Proof.
  intros Hctx.
  assert (∀ lines lineNum rs errors,
            scan_loop db ctx lines lineNum rs errors
            = scan_loop db context_Background lines lineNum rs errors) as Hscan.
  { induction lines as [|text lines IH]; intros lineNum rs errors; [done|].
    cbn [scan_loop]. rewrite Hctx. simpl.
    destruct (_ || _); [apply IH|].
    destruct (parseLine db _); [|apply IH].
    destruct (_ && _); [done|apply IH]. }
  unfold parseFileWithContext, parseReaderWithContext.
  destruct (os_Open w path) as [file|]; [|done].
  destruct (file_stat file); [|done]. destruct (_ && _); [done|].
  by rewrite Hscan.
Qed.

(** X10. Pre-validation predicts the load.  Take a configuration whose
    delimiter is not empty, a file system on which [os.Stat] and
    [file.Stat] agree, the engine built by NewIPCountryDB from the same
    arguments, and a context that is never cancelled.  When the file
    opens, ParseCSVRanges returns exactly what the parser of the engine
    returns, result or error.  When it does not open, both fail: the
    engine's parser with the open error, ParseCSVRanges with the error of
    its own size check when [MaxFileSize] is positive and that check
    fails, and with the same open error otherwise.  And the first lookup
    of the engine leaves it initialised exactly when ParseCSVRanges
    succeeds and ValidateIPRanges accepts the ranges it returned. *)
Theorem prevalidation_predicts_load (os_Stat : string → result Z) (w : World)
    (path : string) (cfgs : list Config) (ctx : Context) (ipStr : string) :
  (∀ c, head cfgs = Some c → Delimiter c ≠ EmptyString) →
  (∀ file, os_Open w path = Ok file → os_Stat path = file_stat file) →
  (∀ n, ctx_Done ctx n = false) →
  let db := NewIPCountryDB path cfgs in
  (∀ file, os_Open w path = Ok file →
     ParseCSVRanges os_Stat w path cfgs = parseFileWithContext db ctx w path)
  ∧ (∀ e, os_Open w path = Failed e →
       parseFileWithContext db ctx w path = Failed (ErrOpenFile e)
       ∧ ParseCSVRanges os_Stat w path cfgs
         = Failed (if MaxFileSize (config db) >? 0
                   then match os_Stat path with
                        | Failed e0 => ErrFileStats e0
                        | Ok size =>
                            if size >? MaxFileSize (config db)
                            then ErrFileSize size (MaxFileSize (config db))
                            else ErrOpenFile e
                        end
                   else ErrOpenFile e))
  ∧ ((∃ res, ParseCSVRanges os_Stat w path cfgs = Ok res
             ∧ ValidateIPRanges (Ranges res) = None)
     ↔ ∃ r db', GetCountryCodeWithContext ctx w ipStr db = Done r db'
                ∧ initialized db' = 1).
Proof.
  intros Hdelim Hstat Hctx db.
  set (cfg := match cfgs with c :: _ => c | [] => DefaultConfig end).
  set (db0 := {| ranges := []; mu := Unlocked; initialized := 0; initErr := None;
                 config := cfg; stats := Stats_zero; filePath := path;
                 cache := newLRUCache 0 |}).
  assert (Delimiter cfg ≠ EmptyString) as Hd.
  { subst cfg. destruct cfgs as [|c cfgs']; [done|]. by apply Hdelim. }
  assert (parseFileWithContext db0 context_Background w path
          = parseFileWithContext db ctx w path) as Hparse.
  { rewrite (parseFileWithContext_never_cancelled db ctx) by done.
    apply parseFileWithContext_fields; subst db db0; unfold NewIPCountryDB;
      fold cfg; simpl; apply String.eqb_neq in Hd; rewrite Hd;
      by destruct (CacheSize cfg <=? 0). }
  assert (MaxFileSize (config db) = MaxFileSize cfg) as Hmax.
  { subst db. unfold NewIPCountryDB. fold cfg. apply String.eqb_neq in Hd. rewrite Hd.
    by destruct (CacheSize cfg <=? 0). }
  assert (ParseCSVRanges os_Stat w path cfgs
          = if MaxFileSize cfg >? 0 then
              match os_Stat path with
              | Failed err => Failed (ErrFileStats err)
              | Ok size =>
                  if size >? MaxFileSize cfg
                  then Failed (ErrFileSize size (MaxFileSize cfg))
                  else parseFileWithContext db ctx w path
              end
            else parseFileWithContext db ctx w path) as Hcsv.
  { unfold ParseCSVRanges. fold cfg. fold db0. by rewrite Hparse. }
  assert (∀ file, os_Open w path = Ok file →
            ParseCSVRanges os_Stat w path cfgs = parseFileWithContext db ctx w path)
    as Hsame.
  { intros file Hopen. rewrite Hcsv.
    destruct (MaxFileSize cfg >? 0) eqn:Hpos; [|done].
    rewrite (Hstat file Hopen). unfold parseFileWithContext.
    rewrite Hopen, Hmax, Hpos.
    destruct (file_stat file) as [size|]; [|done]. simpl.
    by destruct (size >? MaxFileSize cfg). }
  assert (∀ e, os_Open w path = Failed e →
            parseFileWithContext db ctx w path = Failed (ErrOpenFile e)) as Hfail.
  { intros e Hopen. unfold parseFileWithContext. by rewrite Hopen. }
  split; [exact Hsame|]. split.
  { intros e Hopen. split; [by apply Hfail|].
    rewrite Hcsv, Hmax, (Hfail e Hopen).
    destruct (MaxFileSize cfg >? 0); [|done].
    destruct (os_Stat path) as [size|]; [|done].
    by destruct (size >? MaxFileSize cfg). }
  assert (∀ res, ParseCSVRanges os_Stat w path cfgs = Ok res
                 ↔ parseFileWithContext db ctx w path = Ok res) as Hok.
  { intros res.
    assert ((∃ file, os_Open w path = Ok file) ∨ (∃ e, os_Open w path = Failed e))
      as [[file Hopen]|[e Hopen]] by (destruct (os_Open w path); eauto).
    - by rewrite (Hsame file).
    - rewrite Hcsv, (Hfail e Hopen).
      destruct (MaxFileSize cfg >? 0); [|done].
      destruct (os_Stat path) as [size|]; [|done].
      by destruct (size >? MaxFileSize cfg). }
  pose proof (NewIPCountryDB_inv path cfgs) as Hinv. fold db in Hinv.
  assert (mu db = Unlocked ∧ initialized db ≠ 1 ∧ filePath db = path) as (Hmu & Hi & Hpath).
  { by subst db. }
  destruct (initializeWithContext_inv ctx w db Hinv) as (r0 & s & Hrun & Hs & Hr).
  rewrite (GetCountryCodeWithContext_cases ctx w ipStr db r0 s Hinv Hrun).
  revert Hrun. rewrite initializeWithContext_load by done. unfold load_result.
  rewrite Hpath. split.
  - intros (res & Hres & Hval). apply Hok in Hres. revert Hrun. rewrite Hres.
    apply ValidateIPRanges_None_sorted in Hval as [_ Hno].
    apply validateRanges_None in Hno. rewrite Hno. intros [= <- <-].
    destruct (parseIP ipStr); by eexists _, _.
  - intros (r & db' & Hcall & Hinit). revert Hrun.
    destruct (parseFileWithContext db ctx w path) as [res|e] eqn:Hres.
    + destruct (validateRanges (sort_by_start (Ranges res))) eqn:Hval.
      * intros [= <- <-]. by injection Hcall as _ <-.
      * intros _. exists res. split; [by apply Hok|].
        apply ValidateIPRanges_None_sorted. split.
        -- rewrite sort_by_start_perm. by eapply parsed_ranges_ok.
        -- by apply validateRanges_None.
    + intros [= <- <-]. by injection Hcall as _ <-.
Qed.

End PreValidation.

Lemma prevalidation_predicts_load_witness :
  (∃ res, ParseCSVRanges (λ _, Ok 64) example_world "ip_to_country.csv" [] = Ok res
          ∧ ValidateIPRanges (Ranges res) = None)
  ∧ ParseCSVRanges (λ _, Failed (ErrOS "stat ip_to_country.csv: no such file or directory"))
      missing_world "ip_to_country.csv" []
    = Failed (ErrFileStats (ErrOS "stat ip_to_country.csv: no such file or directory")).
Proof.
  split.
  - apply (proj2 (proj2 (prevalidation_predicts_load (λ _, Ok 64) example_world
                           "ip_to_country.csv" [] context_Background "8.8.8.8"
                           ltac:(done) ltac:(by intros file [= <-]) ltac:(done)))).
    eexists _, _. split; by vm_compute.
  - destruct (proj1 (proj2 (prevalidation_predicts_load
                (λ _, Failed (ErrOS "stat ip_to_country.csv: no such file or directory"))
                missing_world "ip_to_country.csv" [] context_Background "8.8.8.8"
                ltac:(done) ltac:(done) ltac:(done)))
              (ErrOS "open ip_to_country.csv: no such file or directory") eq_refl)
      as [_ Hcsv].
    exact Hcsv.
Defined.
